(** * A shallow embedding of the dispatcher's task queue

    The development follows [TaskQueue.cpp] / [TaskQueue.h]
    (the time-ordered task store with its barrier, listener edges and
    concurrency ceiling), the constructor of [ThreadPoolDispatchQueue],
    and of [ThreadedDispatchQueue] the worker thread's start and
    teardown and the two branches of [sync].

    Every block that the C++ code runs while holding [mutex_] is one
    function on the record [TaskQueue]; a call that waits on
    [condition_] is a sequence of such blocks, with the actions of the
    other threads placed between them.  A waiter may re-evaluate its
    condition at any moment (a condition variable may wake spuriously),
    so [notify_all] adds no behaviour and is not represented. *)

From Stdlib Require Import ZArith List Bool Lia Sorted.
Import ListNotations.
Open Scope Z_scope.

(** ** Types.h *)

(** [using TaskId = int64_t].  The counter is only ever incremented; signed
    overflow has no defined behaviour in C++, so identifiers are integers
    and the model speaks about the first [2^63 - 1] insertions. *)
Definition TaskId := Z.

(** [using DispatchFunction = std::function<void()>]: either empty
    ([DispatchFunction()]) or an opaque callable, named by a number.  A
    callable object either returns when it is called ([Callable]) or
    leaves by an exception ([Throwing]). *)
Inductive DispatchFunction :=
| EmptyFunction
| Callable (name : nat)
| Throwing (name : nat).

(** What a call can leave by: [std::bad_function_call], thrown by
    [operator()] of an empty [std::function], or the exception of the
    callable itself. *)
Inductive exception :=
| bad_function_call
| thrown_by (name : nat).

(** How a call ends: it returns a value, or an exception leaves it. *)
Inductive Outcome (A : Type) :=
| Normal (a : A)
| Exceptional (e : exception).
Arguments Normal {A} a.
Arguments Exceptional {A} e.

(** [function()], as [runNextTask] and [barrier] write it, with no
    test for an empty function and no handler around it. *)
Definition invoke (f : DispatchFunction) : Outcome unit :=
  match f with
  | EmptyFunction => Exceptional bad_function_call
  | Callable _ => Normal tt
  | Throwing name => Exceptional (thrown_by name)
  end.

(** [std::chrono::steady_clock::time_point], in clock ticks. *)
Definition time_point := Z.

(** [time_point + duration]: both count ticks in a signed 64-bit
    integer.  The sum is exact while it fits; beyond that the addition
    overflows (undefined in C++), and wraps on the usual targets. *)
Definition tick_wrap (x : Z) : Z := (x + 2 ^ 63) mod 2 ^ 64 - 2 ^ 63.

(** [size_t] arithmetic: unsigned, 64 bits, wrapping. *)
Definition size_wrap (x : Z) : Z := x mod 2 ^ 64.

(** ** TaskQueue.h *)

Record Task := mkTask {
  id : TaskId;
  function : DispatchFunction;
  executeTime : time_point;
  isBarrier : bool
}.

Record EnqueuedTask := mkEnqueuedTask {
  enq_id : TaskId;
  isFirst : bool
}.

(** A listener is a [shared_ptr<IQueueListener>]: null or an object,
    named by a number. *)
Definition Listener := option nat.

Record TaskQueue := mkTaskQueue {
  disposed_ : bool;
  taskIdCounter_ : TaskId;
  tasks_ : list Task;
  empty_ : bool;
  first_ : bool;
  currentRunningTasks_ : Z;
  maxConcurrentTasks_ : Z;
  listener_ : Listener
}.

(** The state built by the constructor and the member initialisers. *)
Definition TaskQueue_new : TaskQueue :=
  mkTaskQueue false 0 [] true true 0 1 None.

Definition with_disposed (b : bool) (s : TaskQueue) : TaskQueue :=
  mkTaskQueue b (taskIdCounter_ s) (tasks_ s) (empty_ s) (first_ s)
    (currentRunningTasks_ s) (maxConcurrentTasks_ s) (listener_ s).

Definition with_counter (c : TaskId) (s : TaskQueue) : TaskQueue :=
  mkTaskQueue (disposed_ s) c (tasks_ s) (empty_ s) (first_ s)
    (currentRunningTasks_ s) (maxConcurrentTasks_ s) (listener_ s).

Definition with_tasks (l : list Task) (s : TaskQueue) : TaskQueue :=
  mkTaskQueue (disposed_ s) (taskIdCounter_ s) l (empty_ s) (first_ s)
    (currentRunningTasks_ s) (maxConcurrentTasks_ s) (listener_ s).

Definition with_empty (b : bool) (s : TaskQueue) : TaskQueue :=
  mkTaskQueue (disposed_ s) (taskIdCounter_ s) (tasks_ s) b (first_ s)
    (currentRunningTasks_ s) (maxConcurrentTasks_ s) (listener_ s).

Definition with_first (b : bool) (s : TaskQueue) : TaskQueue :=
  mkTaskQueue (disposed_ s) (taskIdCounter_ s) (tasks_ s) (empty_ s) b
    (currentRunningTasks_ s) (maxConcurrentTasks_ s) (listener_ s).

Definition with_running (n : Z) (s : TaskQueue) : TaskQueue :=
  mkTaskQueue (disposed_ s) (taskIdCounter_ s) (tasks_ s) (empty_ s) (first_ s)
    n (maxConcurrentTasks_ s) (listener_ s).

Definition with_max (n : Z) (s : TaskQueue) : TaskQueue :=
  mkTaskQueue (disposed_ s) (taskIdCounter_ s) (tasks_ s) (empty_ s) (first_ s)
    (currentRunningTasks_ s) n (listener_ s).

Definition with_listener (l : Listener) (s : TaskQueue) : TaskQueue :=
  mkTaskQueue (disposed_ s) (taskIdCounter_ s) (tasks_ s) (empty_ s) (first_ s)
    (currentRunningTasks_ s) (maxConcurrentTasks_ s) l.

(** What a block does besides changing the queue: listener callbacks and
    invocations of callables. *)
Inductive Event :=
| onQueueNonEmpty (l : nat)
| onQueueEmpty (l : nat)
| invokeTask (i : TaskId) (f : DispatchFunction)
| invokeBarrier (i : TaskId) (f : DispatchFunction).

(** ** TaskQueue::insertTask *)

(** The comparator handed to [std::upper_bound]. *)
Definition task_comp (a b : Task) : bool :=
  if executeTime a =? executeTime b then id a <? id b
  else executeTime a <? executeTime b.

(** [std::upper_bound] over a random-access range: the halving loop on
    [(first, len)].  [fuel] bounds the number of iterations; [len] at
    least halves each time, so [length l] iterations always suffice. *)
Fixpoint upper_bound_loop {A : Type} (comp : A -> A -> bool) (l : list A)
    (val : A) (fuel first len : nat) : nat :=
  match fuel with
  | O => first
  | S fuel' =>
      if (len =? 0)%nat then first
      else
        let half := Nat.div2 len in
        let middle := (first + half)%nat in
        match nth_error l middle with
        | Some m =>
            if comp val m
            then upper_bound_loop comp l val fuel' first half
            else upper_bound_loop comp l val fuel' (middle + 1)%nat
                   (len - half - 1)%nat
        | None => first
        end
  end.

Definition upper_bound {A : Type} (comp : A -> A -> bool) (l : list A)
    (val : A) : nat :=
  upper_bound_loop comp l val (length l) 0%nat (length l).

(** [tasks_.emplace(it, task)]. *)
Definition emplace {A : Type} (it : nat) (x : A) (l : list A) : list A :=
  firstn it l ++ x :: skipn it l.

Definition insertTask (f : DispatchFunction) (t : time_point) (b : bool)
    (s : TaskQueue) : TaskQueue * TaskId :=
  let i := taskIdCounter_ s + 1 in
  let task := mkTask i f t b in
  let it := upper_bound task_comp (tasks_ s) task in
  (with_tasks (emplace it task (tasks_ s)) (with_counter i s), i).

(** ** TaskQueue::enqueue *)

Definition notify (l : Listener) (ev : nat -> Event) : list Event :=
  match l with
  | Some o => [ev o]
  | None => []
  end.

(** The block of [enqueue] that runs under [lock_guard]. *)
Definition enqueue_locked (f : DispatchFunction) (t : time_point)
    (s : TaskQueue) : TaskQueue * list Event * EnqueuedTask :=
  let '(s1, i) := insertTask f t false s in
  let r := mkEnqueuedTask i (first_ s1) in
  let s2 := with_first false s1 in
  if empty_ s2
  then (with_empty false s2, notify (listener_ s2) onQueueNonEmpty, r)
  else (s2, [], r).

(** [enqueue(function, executeTime)]: the test of [disposed_] and then
    the locked block. *)
Definition enqueue (f : DispatchFunction) (t : time_point)
    (s : TaskQueue) : TaskQueue * list Event * EnqueuedTask :=
  if disposed_ s then (s, [], mkEnqueuedTask 0 false)
  else enqueue_locked f t s.

(** ** TaskQueue::lockFreeRemoveTask and TaskQueue::cancel *)

(** The scan erases the first entry whose id matches and returns its
    callable; without a match it returns an empty function. *)
Fixpoint remove_first (i : TaskId) (l : list Task)
    : list Task * DispatchFunction :=
  match l with
  | [] => ([], EmptyFunction)
  | t :: l' =>
      if id t =? i then (l', function t)
      else let '(r, f) := remove_first i l' in (t :: r, f)
  end.

Definition lockFreeRemoveTask (i : TaskId) (s : TaskQueue)
    : TaskQueue * DispatchFunction :=
  let '(l, f) := remove_first i (tasks_ s) in (with_tasks l s, f).

Definition cancel (i : TaskId) (s : TaskQueue) : TaskQueue * list Event :=
  (fst (lockFreeRemoveTask i s), []).

(** ** TaskQueue::dispose *)

(** [disposed_ = true], an atomic store made without the lock. *)
Definition dispose_mark (s : TaskQueue) : TaskQueue := with_disposed true s.

(** [toDelete.swap(tasks_)] under the lock. *)
Definition dispose_swap (s : TaskQueue) : TaskQueue := with_tasks [] s.

Definition dispose (s : TaskQueue) : TaskQueue :=
  if disposed_ s then s else dispose_swap (dispose_mark s).

(** ** TaskQueue::setMaxConcurrentTasks, TaskQueue::setListener *)

Definition setMaxConcurrentTasks (n : Z) (s : TaskQueue) : TaskQueue :=
  if maxConcurrentTasks_ s =? size_wrap n then s
  else with_max (size_wrap n) s.

Definition setListener (l : Listener) (s : TaskQueue) : TaskQueue :=
  with_listener l s.

(** ** TaskQueue::barrier *)

(** The first block: [insertTask(DispatchFunction(), executeTime, true)]. *)
Definition barrier_insert (now : time_point) (s : TaskQueue)
    : TaskQueue * TaskId :=
  insertTask EmptyFunction now true s.

(** One evaluation of the loop of [barrier], made while holding the lock:
    the loop ends because [tasks_] is empty, or the caller waits on
    [condition_], or the barrier is entered ([currentRunningTasks_++]). *)
Inductive BarrierPass :=
| BarrierReturn
| BarrierWait
| BarrierEnter.

Definition barrier_pass (i : TaskId) (s : TaskQueue)
    : TaskQueue * BarrierPass :=
  match tasks_ s with
  | [] => (s, BarrierReturn)
  | t :: _ =>
      if negb (currentRunningTasks_ s =? 0) || negb (id t =? i)
      then (s, BarrierWait)
      else (with_running (size_wrap (currentRunningTasks_ s + 1)) s,
            BarrierEnter)
  end.

(** The block after [function()]: remove the placeholder, decrement. *)
Definition barrier_leave (i : TaskId) (s : TaskQueue) : TaskQueue :=
  let s1 := fst (lockFreeRemoveTask i s) in
  with_running (size_wrap (currentRunningTasks_ s1 - 1)) s1.

(** ** TaskQueue::nextTask *)

(** One evaluation of the loop of [nextTask].  [now] is the value of
    [steady_clock::now()] read by the fourth test. *)
Inductive NextPass :=
| PassDisposed
| PassWait (until : time_point) (untilIsMax : bool)
| PassHasTask.

Definition nextTask_pass (maxTime now : time_point) (s : TaskQueue)
    : TaskQueue * list Event * NextPass :=
  if disposed_ s then (s, [], PassDisposed)
  else
    match tasks_ s with
    | [] =>
        if negb (empty_ s)
        then (with_empty true s, notify (listener_ s) onQueueEmpty,
              PassWait maxTime true)
        else (s, [], PassWait maxTime true)
    | nextTask :: _ =>
        if maxConcurrentTasks_ s <=? currentRunningTasks_ s
        then (s, [], PassWait maxTime true)
        else if isBarrier nextTask
        then (s, [], PassWait maxTime true)
        else if now <? executeTime nextTask
        then
          let maxTimeToWait := Z.min maxTime (executeTime nextTask) in
          (s, [], PassWait maxTimeToWait (maxTimeToWait =? maxTime))
        else (s, [], PassHasTask)
    end.

(** The block after the loop.  It runs in the same hold of the lock as
    the last evaluation of the loop, so with [hasTask] the deque is not
    empty ([nextTask_pass_hasTask] below); the empty case stands for
    [front()] on an empty deque and is never reached. *)
Definition nextTask_finish (hasTask : bool) (s : TaskQueue)
    : TaskQueue * option Task :=
  if disposed_ s || negb hasTask then (s, None)
  else
    match tasks_ s with
    | t :: rest =>
        (with_tasks rest
           (with_running (size_wrap (currentRunningTasks_ s + 1)) s),
         Some t)
    | [] => (s, None)
    end.

(** What one hold of the lock inside [nextTask] ends with: the function
    returns (with the task it popped, if any), or it waits until
    [until]; [untilIsMax] records [maxTimeToWait == maxTime]. *)
Inductive NextBlock :=
| BlockReturn (popped : option Task)
| BlockWait (until : time_point) (untilIsMax : bool).

Definition nextTask_block (maxTime now : time_point) (s : TaskQueue)
    : TaskQueue * list Event * NextBlock :=
  let '(s1, evs, p) := nextTask_pass maxTime now s in
  match p with
  | PassDisposed =>
      let '(s2, t) := nextTask_finish false s1 in (s2, evs, BlockReturn t)
  | PassHasTask =>
      let '(s2, t) := nextTask_finish true s1 in (s2, evs, BlockReturn t)
  | PassWait u b => (s1, evs, BlockWait u b)
  end.

(** The block of [runNextTask] after [task()]. *)
Definition runNextTask_done (s : TaskQueue) : TaskQueue :=
  with_running (size_wrap (currentRunningTasks_ s - 1)) s.

(** [condition_.wait_until(lock, until)] returns [cv_status::timeout]
    when the absolute time has expired on return. *)
Inductive cv_status := no_timeout | timeout.

Definition wait_until (until woke_at : time_point) : cv_status :=
  if until <=? woke_at then timeout else no_timeout.

Definition is_timeout (c : cv_status) : bool :=
  match c with timeout => true | no_timeout => false end.

(** ** The queue shared by several threads *)

(** Besides the queue, the callers that are in the middle of a call:
    [stepping] callers of [runNextTask] are between the pop and the
    decrement, [waiting] holds the barrier calls blocked on
    [condition_] (barrier id and the caller's function), [entered] the
    barrier calls whose function is executing.  [trace] lists the
    callbacks and invocations in the order they happened. *)
Record System := mkSystem {
  queue : TaskQueue;
  stepping : nat;
  waiting : list (TaskId * DispatchFunction);
  entered : list TaskId;
  trace : list Event
}.

Definition System_new : System := mkSystem TaskQueue_new 0 [] [] [].

Definition with_queue (q : TaskQueue) (evs : list Event) (sys : System)
    : System :=
  mkSystem q (stepping sys) (waiting sys) (entered sys) (trace sys ++ evs).

Definition set_queue (q : TaskQueue) (sys : System) : System :=
  mkSystem q (stepping sys) (waiting sys) (entered sys) (trace sys).

Fixpoint lookup_waiting (i : TaskId) (w : list (TaskId * DispatchFunction))
    : option DispatchFunction :=
  match w with
  | [] => None
  | (j, f) :: w' => if j =? i then Some f else lookup_waiting i w'
  end.

Definition drop_waiting (i : TaskId) (w : list (TaskId * DispatchFunction))
    : list (TaskId * DispatchFunction) :=
  filter (fun p => negb (fst p =? i)) w.

Fixpoint drop_entered (i : TaskId) (l : list TaskId) : list TaskId :=
  match l with
  | [] => []
  | j :: l' => if j =? i then l' else j :: drop_entered i l'
  end.

Definition is_entered (i : TaskId) (l : list TaskId) : bool :=
  existsb (Z.eqb i) l.

(** A hold of the lock inside [nextTask]; a popped task is invoked
    right after the lock is released. *)
Definition sys_nextTask (maxTime now : time_point) (sys : System)
    : System * list Event * NextBlock :=
  let '(q1, evs, b) := nextTask_block maxTime now (queue sys) in
  match b with
  | BlockReturn (Some t) =>
      let own := evs ++ [invokeTask (id t) (function t)] in
      (mkSystem q1 (S (stepping sys)) (waiting sys) (entered sys)
         (trace sys ++ own), own, b)
  | _ => (with_queue q1 evs sys, evs, b)
  end.

(** A re-evaluation of the loop of [barrier] for the barrier [i] called
    with [f]. *)
Definition sys_barrier_pass (i : TaskId) (f : DispatchFunction)
    (sys : System) : System * list Event * BarrierPass :=
  let '(q1, p) := barrier_pass i (queue sys) in
  match p with
  | BarrierReturn =>
      (mkSystem q1 (stepping sys) (drop_waiting i (waiting sys))
         (entered sys) (trace sys), [], p)
  | BarrierWait =>
      (mkSystem q1 (stepping sys) ((i, f) :: drop_waiting i (waiting sys))
         (entered sys) (trace sys), [], p)
  | BarrierEnter =>
      (mkSystem q1 (stepping sys) (drop_waiting i (waiting sys))
         (i :: entered sys) (trace sys ++ [invokeBarrier i f]),
       [invokeBarrier i f], p)
  end.

Definition sys_barrier_begin (f : DispatchFunction) (now : time_point)
    (sys : System) : System * list Event * BarrierPass * TaskId :=
  let '(q1, i) := barrier_insert now (queue sys) in
  let '(sys1, evs, p) := sys_barrier_pass i f (with_queue q1 [] sys) in
  (sys1, evs, p, i).

Definition sys_barrier_leave (i : TaskId) (sys : System) : System :=
  if is_entered i (entered sys)
  then mkSystem (barrier_leave i (queue sys)) (stepping sys) (waiting sys)
         (drop_entered i (entered sys)) (trace sys)
  else sys.

Definition sys_task_done (sys : System) : System :=
  match stepping sys with
  | O => sys
  | S n => mkSystem (runNextTask_done (queue sys)) n (waiting sys)
             (entered sys) (trace sys)
  end.

(** The actions of the threads, one per hold of the lock (or per atomic
    store for [OpDisposeMark]).

    - [OpEnqueue]: a call of [enqueue(f, t)].
    - [OpEnqueueLocked]: the locked block of an [enqueue] whose test of
      [disposed_] was made earlier, before the flag was set.
    - [OpDisposeMark], [OpDisposeSwap]: the two halves of [dispose]; the
      swap follows the store of the flag.
    - [OpBarrier]: the start of [barrier(f)] up to its first wait.
    - [OpBarrierWake]: a waiting barrier call wakes and re-evaluates.
    - [OpBarrierLeave]: the function of an entered barrier returned
      (a function that throws never gets there).
    - [OpNextTask]: one hold of the lock in [nextTask(maxTime, _)].
    - [OpTaskDone]: the decrement at the end of [runNextTask], reached
      when [task()] returned. *)
Inductive Op :=
| OpEnqueue (f : DispatchFunction) (t : time_point)
| OpEnqueueLocked (f : DispatchFunction) (t : time_point)
| OpCancel (i : TaskId)
| OpDisposeMark
| OpDisposeSwap
| OpSetMaxConcurrentTasks (n : Z)
| OpSetListener (l : Listener)
| OpBarrier (f : DispatchFunction) (now : time_point)
| OpBarrierWake (i : TaskId)
| OpBarrierLeave (i : TaskId)
| OpNextTask (maxTime now : time_point)
| OpTaskDone.

Definition sys_step (o : Op) (sys : System) : System :=
  match o with
  | OpEnqueue f t =>
      let '(q, evs, _) := enqueue f t (queue sys) in with_queue q evs sys
  | OpEnqueueLocked f t =>
      let '(q, evs, _) := enqueue_locked f t (queue sys) in
      with_queue q evs sys
  | OpCancel i =>
      let '(q, evs) := cancel i (queue sys) in with_queue q evs sys
  | OpDisposeMark => with_queue (dispose_mark (queue sys)) [] sys
  | OpDisposeSwap =>
      if disposed_ (queue sys)
      then with_queue (dispose_swap (queue sys)) [] sys
      else sys
  | OpSetMaxConcurrentTasks n =>
      with_queue (setMaxConcurrentTasks n (queue sys)) [] sys
  | OpSetListener l => with_queue (setListener l (queue sys)) [] sys
  | OpBarrier f now => fst (fst (fst (sys_barrier_begin f now sys)))
  | OpBarrierWake i =>
      match lookup_waiting i (waiting sys) with
      | Some f => fst (fst (sys_barrier_pass i f sys))
      | None => sys
      end
  | OpBarrierLeave i => sys_barrier_leave i sys
  | OpNextTask maxTime now => fst (fst (sys_nextTask maxTime now sys))
  | OpTaskDone => sys_task_done sys
  end.

Definition run (ops : list Op) (sys : System) : System :=
  fold_left (fun s o => sys_step o s) ops sys.

(** ** Calls that wait: nextTask, runNextTask, flush, barrier *)

(** A call is followed from its caller's side: its blocks act on the
    queue and on the trace, and between them the other threads act,
    given as lists of [Op].  The fields [stepping], [waiting] and
    [entered] keep the books of those other threads only; the caller's
    own position is the point reached in the functions below. *)

Definition call_nextTask (maxTime now : time_point) (sys : System)
    : System * list Event * NextBlock :=
  let '(q1, evs, b) := nextTask_block maxTime now (queue sys) in
  let own :=
    match b with
    | BlockReturn (Some t) => evs ++ [invokeTask (id t) (function t)]
    | _ => evs
    end in
  (with_queue q1 own sys, own, b).

(** What happens around one return of [wait_until] inside [nextTask]:
    the other threads' actions while the lock was released, the clock
    when the wait returned, and the clock read by the next evaluation of
    the loop. *)
Record Wake := mkWake {
  others : list Op;
  woke_at : time_point;
  now_after : time_point
}.

(** [nextTask(maxTime, &shouldRun)].  The result is the system after the
    call, the caller's own events, and the popped task ([None] stands
    for [*shouldRun = false]).  [None] as a whole: the schedule ended
    while the caller was still waiting. *)
Fixpoint nextTask (maxTime : time_point) (sched : list Wake)
    (now : time_point) (sys : System) {struct sched}
    : option (System * list Event * option Task) :=
  let '(sys1, evs, b) := call_nextTask maxTime now sys in
  match b with
  | BlockReturn t => Some (sys1, evs, t)
  | BlockWait until untilIsMax =>
      match sched with
      | [] => None
      | w :: sched' =>
          let sys2 := run (others w) sys1 in
          if untilIsMax && is_timeout (wait_until until (woke_at w))
          then
            let '(q, t) := nextTask_finish false (queue sys2) in
            Some (set_queue q sys2, evs, t)
          else
            match nextTask maxTime sched' (now_after w) sys2 with
            | Some (sys3, evs', t) => Some (sys3, evs ++ evs', t)
            | None => None
            end
      end
  end.

(** [runNextTask(maxTime)]; [during] are the other threads' actions while
    [task()] executes.  When [task()] returns, the count is decremented
    and the result is [true]; an exception from [task()] leaves
    [runNextTask] at once, past the decrement. *)
Definition runNextTask (maxTime : time_point) (sched : list Wake)
    (now : time_point) (during : list Op) (sys : System)
    : option (System * list Event * Outcome bool) :=
  match nextTask maxTime sched now sys with
  | None => None
  | Some (sys1, evs, None) => Some (sys1, evs, Normal false)
  | Some (sys1, evs, Some task) =>
      let sys2 := run during sys1 in
      match invoke (function task) with
      | Normal _ =>
          Some (set_queue (runNextTask_done (queue sys2)) sys2, evs,
                Normal true)
      | Exceptional e => Some (sys2, evs, Exceptional e)
      end
  end.

(** One iteration of the loop of [flush]: [call_now] is the clock read by
    [runNextTask()] for its deadline, [pass_now] the clock read inside the
    first evaluation of the loop of [nextTask]. *)
Record Round := mkRound {
  call_now : time_point;
  pass_now : time_point;
  wakes : list Wake;
  during : list Op
}.

Fixpoint flush_loop (rounds : list Round) (ranTasks : Z) (sys : System)
    : option (System * list Event * Outcome Z) :=
  match rounds with
  | [] => None
  | r :: rs =>
      match runNextTask (call_now r) (wakes r) (pass_now r) (during r) sys with
      | None => None
      | Some (sys1, evs, Normal false) => Some (sys1, evs, Normal ranTasks)
      | Some (sys1, evs, Normal true) =>
          match flush_loop rs (size_wrap (ranTasks + 1)) sys1 with
          | Some (sys2, evs', n) => Some (sys2, evs ++ evs', n)
          | None => None
          end
      | Some (sys1, evs, Exceptional e) => Some (sys1, evs, Exceptional e)
      end
  end.

Definition flush (rounds : list Round) (sys : System)
    : option (System * list Event * Outcome Z) :=
  flush_loop rounds 0 sys.

Definition call_barrier_pass (i : TaskId) (f : DispatchFunction)
    (sys : System) : System * list Event * BarrierPass :=
  let '(q1, p) := barrier_pass i (queue sys) in
  match p with
  | BarrierEnter =>
      (with_queue q1 [invokeBarrier i f] sys, [invokeBarrier i f], p)
  | _ => (set_queue q1 sys, [], p)
  end.

(** [barrier(function)]: [wake_ops] are the other threads' actions during
    each wait, [during_ops] their actions while [function()] executes.
    When [function()] returns, the placeholder is removed and the count
    decremented; an exception from [function()] leaves [barrier] at
    once ([lock] does not own the mutex at that point), with the
    placeholder still in the sequence and the count still incremented. *)
Fixpoint barrier_wait (i : TaskId) (f : DispatchFunction)
    (wake_ops : list (list Op)) (during_ops : list Op)
    (st : System * list Event * BarrierPass) {struct wake_ops}
    : option (System * list Event * Outcome unit) :=
  let '(sys, evs, p) := st in
  match p with
  | BarrierReturn => Some (sys, evs, Normal tt)
  | BarrierEnter =>
      let sys1 := run during_ops sys in
      match invoke f with
      | Normal _ =>
          Some (set_queue (barrier_leave i (queue sys1)) sys1, evs, Normal tt)
      | Exceptional e => Some (sys1, evs, Exceptional e)
      end
  | BarrierWait =>
      match wake_ops with
      | [] => None
      | ops :: rest =>
          barrier_wait i f rest during_ops
            (call_barrier_pass i f (run ops sys))
      end
  end.

Definition barrier (f : DispatchFunction) (now : time_point)
    (wake_ops : list (list Op)) (during_ops : list Op) (sys : System)
    : option (System * list Event * Outcome unit) :=
  let '(q1, i) := barrier_insert now (queue sys) in
  barrier_wait i f wake_ops during_ops (call_barrier_pass i f (set_queue q1 sys)).

(** [TaskQueue::sync] is [barrier]. *)
Definition sync := barrier.

(** ** The other entry points of TaskQueue *)

(** [enqueue(function)]: the execute time is the clock, read as [now]. *)
Definition enqueue_now (f : DispatchFunction) (now : time_point)
    (s : TaskQueue) : TaskQueue * list Event * EnqueuedTask :=
  enqueue f now s.

(** [enqueue(function, delay)]: the execute time is
    [steady_clock::now() + delay], a sum of two tick counts. *)
Definition enqueue_delay (f : DispatchFunction) (delay : Z)
    (now : time_point) (s : TaskQueue)
    : TaskQueue * list Event * EnqueuedTask :=
  enqueue f (tick_wrap (now + delay)) s.

(** [async(function)] drops the result of [enqueue(function)]. *)
Definition async (f : DispatchFunction) (now : time_point) (s : TaskQueue)
    : TaskQueue * list Event :=
  fst (enqueue_now f now s).

(** [asyncAfter(function, delay)] returns the id. *)
Definition asyncAfter (f : DispatchFunction) (delay : Z) (now : time_point)
    (s : TaskQueue) : TaskQueue * list Event * TaskId :=
  let '(s', evs, r) := enqueue_delay f delay now s in (s', evs, enq_id r).

Definition isDisposed (s : TaskQueue) : bool := disposed_ s.

Definition getListener (s : TaskQueue) : Listener := listener_ s.

(** [flushUpToNow()]: the deadline [maxTime] is read once, before the
    loop; the rounds give the clock readings and the other threads'
    actions of each iteration (their [call_now] is not used). *)
Fixpoint flushUpToNow_loop (maxTime : time_point) (rounds : list Round)
    (ranTasks : Z) (sys : System)
    : option (System * list Event * Outcome Z) :=
  match rounds with
  | [] => None
  | r :: rs =>
      match runNextTask maxTime (wakes r) (pass_now r) (during r) sys with
      | None => None
      | Some (sys1, evs, Normal false) => Some (sys1, evs, Normal ranTasks)
      | Some (sys1, evs, Normal true) =>
          match flushUpToNow_loop maxTime rs (size_wrap (ranTasks + 1)) sys1
          with
          | Some (sys2, evs', n) => Some (sys2, evs ++ evs', n)
          | None => None
          end
      | Some (sys1, evs, Exceptional e) => Some (sys1, evs, Exceptional e)
      end
  end.

Definition flushUpToNow (maxTime : time_point) (rounds : list Round)
    (sys : System) : option (System * list Event * Outcome Z) :=
  flushUpToNow_loop maxTime rounds 0 sys.

(** * ThreadPoolDispatchQueue *)

Module ThreadPoolDispatchQueue.

(** [create(name)]: [std::thread::hardware_concurrency()], and 4 when it
    reports 0. *)
Definition default_threadCount (hardware_concurrency : Z) : Z :=
  if hardware_concurrency =? 0 then 4 else hardware_concurrency.

(** The constructor: a new task queue with
    [setMaxConcurrentTasks(threadCount)]. *)
Definition construct (threadCount : Z) : System :=
  sys_step (OpSetMaxConcurrentTasks threadCount) System_new.

(** The pool reaches its task queue through [runNextTask] (the workers),
    [barrier], [enqueue], [cancel], [dispose] and [setListener]; it has
    no call of [setMaxConcurrentTasks] after the constructor. *)
Fixpoint pool_actions (ops : list Op) : bool :=
  match ops with
  | [] => true
  | OpSetMaxConcurrentTasks _ :: _ => false
  | _ :: rest => pool_actions rest
  end.

End ThreadPoolDispatchQueue.

(** * ThreadedDispatchQueue: the worker thread *)

Module WorkerThread.

(** What happens to the [std::thread] behind [thread_]. *)
Inductive ThreadEvent :=
| started
| joined
| detached.

(** The task queue with the threads acting on it, [thread_ != nullptr],
    the callers that received [isFirst] from [enqueue] and have not yet
    reached [startThread], whether [assert(thread_ == nullptr)] has held
    every time it was evaluated, and the log of thread events. *)
Record State := mkState {
  taskQueue_ : System;
  thread_ : bool;
  toStart : nat;
  asserted : bool;
  log : list ThreadEvent
}.

(** The constructor. *)
Definition State_new : State := mkState System_new false 0 true [].

(** The first half of [async] / [asyncAfter]: the [enqueue]; a caller
    that is told [isFirst] goes on to [startThread]. *)
Definition enqueue_part (f : DispatchFunction) (t : time_point) (st : State)
    : State * TaskId :=
  let '(q, evs, r) := enqueue f t (queue (taskQueue_ st)) in
  (mkState (with_queue q evs (taskQueue_ st)) (thread_ st)
     (if isFirst r then S (toStart st) else toStart st)
     (asserted st) (log st),
   enq_id r).

(** [startThread()], under [mutex_]: the assertion, then the new
    thread. *)
Definition startThread (st : State) : State :=
  mkState (taskQueue_ st) true (pred (toStart st))
    (asserted st && negb (thread_ st)) (log st ++ [started]).

(** The thread-local [current_] of one thread (queues are named by
    numbers; [None] is [nullptr]), together with the values that the
    lambdas of [sync] this thread is executing hold in their
    [previousCurrent], innermost first. *)
Record Local := mkLocal {
  current_ : option nat;
  previousCurrent : list (option nat)
}.

(** [static thread_local ... current_ = nullptr]. *)
Definition Local_new : Local := mkLocal None [].

(** What a thread does to its [current_]: [handler] stores its queue
    when the worker thread starts; the lambda that [sync] hands to
    [barrier] saves the value and stores [this], and puts the saved
    value back when the user's function has returned; when the user's
    function throws, the lambda is left without putting it back. *)
Inductive LocalStep :=
| handler_begins (q : nat)
| sync_callable_begins (q : nat)
| sync_callable_returns
| sync_callable_throws.

Definition local_step (a : LocalStep) (l : Local) : Local :=
  match a with
  | handler_begins q => mkLocal (Some q) (previousCurrent l)
  | sync_callable_begins q =>
      mkLocal (Some q) (current_ l :: previousCurrent l)
  | sync_callable_returns =>
      match previousCurrent l with
      | previous :: outer => mkLocal previous outer
      | [] => l
      end
  | sync_callable_throws =>
      match previousCurrent l with
      | _ :: outer => mkLocal (current_ l) outer
      | [] => l
      end
  end.

(** The thread-local state of a thread that has done [history]. *)
Definition local (history : list LocalStep) : Local :=
  fold_left (fun l a => local_step a l) history Local_new.

(** [ThreadedDispatchQueue::getCurrent()], on the calling thread. *)
Definition getCurrent (l : Local) : option nat := current_ l.

(** [this == getCurrent()]. *)
Definition isCurrent (this : nat) (l : Local) : bool :=
  match getCurrent l with
  | Some q => Nat.eqb q this
  | None => false
  end.

(** [teardownThread()], under [mutex_]; [current] is
    [this == getCurrent()] on the calling thread.  A thread behind
    [thread_] has been neither joined nor detached, so it is
    joinable. *)
Definition teardownThread (current : bool) (st : State) : State :=
  if thread_ st
  then mkState (taskQueue_ st) false (toStart st) (asserted st)
         (log st ++ [if current then detached else joined])
  else st.

Definition on_queue (ops : list Op) (st : State) : State :=
  mkState (run ops (taskQueue_ st)) (thread_ st) (toStart st) (asserted st)
    (log st).

(** [teardown()] : [taskQueue_->dispose()], then [teardownThread()]. *)
Definition teardown (current : bool) (st : State) : State :=
  teardownThread current
    (if disposed_ (queue (taskQueue_ st)) then st
     else on_queue [OpDisposeMark; OpDisposeSwap] st).

(** The steps of the threads that use the queue object. *)
Inductive Action :=
| Async (f : DispatchFunction) (now : time_point)
| AsyncAfter (f : DispatchFunction) (delay : Z) (now : time_point)
| StartThread
| TeardownThread (current : bool)
| Teardown (current : bool)
| Queue (o : Op).

Definition act (a : Action) (st : State) : State :=
  match a with
  | Async f now => fst (enqueue_part f now st)
  | AsyncAfter f delay now =>
      fst (enqueue_part f (tick_wrap (now + delay)) st)
  | StartThread =>
      match toStart st with
      | O => st
      | S _ => startThread st
      end
  | TeardownThread current => teardownThread current st
  | Teardown current => teardown current st
  | Queue o => on_queue [o] st
  end.

Definition acts (l : list Action) (st : State) : State :=
  fold_left (fun s a => act a s) l st.

End WorkerThread.

(** * ThreadedDispatchQueue::sync *)

(** Here callables have behaviour: a callable is a computation that
    changes the state and either returns or throws.  The blocks of the
    code are written in a state-and-exception monad. *)
Module ThreadedDispatchQueue.

Definition exn := nat.
Bind Scope nat_scope with exn.

Inductive result (A : Type) :=
| Returned (a : A)
| Thrown (e : exn).
Arguments Returned {A} a.
Arguments Thrown {A} e.

(** The shared state of a [std::promise<void>]. *)
Inductive shared_state :=
| NotReady
| HasValue
| HasException (e : exn).

(** The fields [sync] touches: the two flags of the dispatch queue, the
    promise on the caller's stack, the running count of the task queue,
    and a log of the user callables that ran. *)
Record World := mkWorld {
  disableSyncCallsInCallingThread_ : bool;
  runningSync_ : bool;
  promise : shared_state;
  currentRunningTasks_ : Z;
  ran : list nat
}.

Definition M (A : Type) : Type := World -> World * result A.

Definition ret {A : Type} (a : A) : M A := fun w => (w, Returned a).

Definition bind {A B : Type} (m : M A) (k : A -> M B) : M B :=
  fun w =>
    match m w with
    | (w', Returned a) => k a w'
    | (w', Thrown e) => (w', Thrown e)
    end.

Notation "m ;; k" := (bind m (fun _ => k))
  (at level 61, right associativity).

Definition set_runningSync (b : bool) : M unit :=
  fun w => (mkWorld (disableSyncCallsInCallingThread_ w) b (promise w)
              (currentRunningTasks_ w) (ran w), Returned tt).

Definition set_promise (p : shared_state) (w : World) : World :=
  mkWorld (disableSyncCallsInCallingThread_ w) (runningSync_ w) p
    (currentRunningTasks_ w) (ran w).

Definition set_running (n : Z) (w : World) : World :=
  mkWorld (disableSyncCallsInCallingThread_ w) (runningSync_ w) (promise w)
    n (ran w).

(** [promise.set_value()] on a promise that is not yet satisfied. *)
Definition promise_set_value : M unit :=
  fun w => (set_promise HasValue w, Returned tt).

(** [currentRunningTasks_--] under the lock. *)
Definition decrement_running : M unit :=
  fun w => (set_running (size_wrap (currentRunningTasks_ w - 1)) w,
            Returned tt).

(** A user callable: it is logged, and returns or throws. *)
Inductive behaviour :=
| returns
| throws (e : exn).

Definition user_function (name : nat) (b : behaviour) : M unit :=
  fun w =>
    (mkWorld (disableSyncCallsInCallingThread_ w) (runningSync_ w) (promise w)
       (currentRunningTasks_ w) (ran w ++ [name]),
     match b with
     | returns => Returned tt
     | throws e => Thrown e
     end).

(** The lambda that [sync] hands to [async]. *)
Definition sync_task (function : M unit) : M unit :=
  set_runningSync true ;;
  function ;;
  promise_set_value ;;
  set_runningSync false.

(** The lambda that [sync] hands to [barrier] (its saving and restoring
    of the thread-local [current_] is not represented). *)
Definition sync_barrier_task (function : M unit) : M unit :=
  set_runningSync true ;;
  function ;;
  set_runningSync false.

(** [runNextTask] from [task()] on, for a task that [nextTask] popped:
    the invocation, then the decrement.  There is no handler around
    [task()]. *)
Definition runNextTask_invoke (task : M unit) : M bool :=
  task ;;
  decrement_running ;;
  ret true.

(** [barrier] from [function()] on, for a barrier that was entered. *)
Definition barrier_invoke (function : M unit) : M unit :=
  function ;;
  decrement_running.

(** How the worker's thread function ([handler]) goes on after a task:
    it loops, or an exception leaves it and [std::terminate] is
    called. *)
Inductive thread_state :=
| Looping
| Terminated (e : exn).

Definition handler_step (task : M unit) (w : World) : World * thread_state :=
  match runNextTask_invoke task w with
  | (w', Returned _) => (w', Looping)
  | (w', Thrown e) => (w', Terminated e)
  end.

(** [future.get()]: blocks ([None]) until the shared state is ready,
    then returns or rethrows the stored exception. *)
Definition future_get (w : World) : option (result unit) :=
  match promise w with
  | NotReady => None
  | HasValue => Some (Returned tt)
  | HasException e => Some (Thrown e)
  end.

(** [sync(function)], from the moment the posted task is popped by the
    worker, or the barrier entered by the caller (either increments the
    running count).  The result is the state, how the worker goes on,
    and what the caller gets: [None] when it stays blocked.

    With [disableSyncCallsInCallingThread_]: a fresh promise, the worker
    runs the posted lambda, the caller blocks in [future.get()].
    Otherwise the caller runs the lambda itself inside [barrier]. *)
Definition sync (function : M unit) (w : World)
    : World * thread_state * option (result unit) :=
  if disableSyncCallsInCallingThread_ w then
    let w0 := set_running (size_wrap (currentRunningTasks_ w + 1))
                (set_promise NotReady w) in
    let '(w1, worker) := handler_step (sync_task function) w0 in
    (w1, worker, future_get w1)
  else
    let w0 := set_running (size_wrap (currentRunningTasks_ w + 1)) w in
    let '(w1, r) := barrier_invoke (sync_barrier_task function) w0 in
    (w1, Looping, Some r).

(** A queue after [setDisableSyncCallsInCallingThread(true)]. *)
Definition World_new : World := mkWorld true false NotReady 0 [].

End ThreadedDispatchQueue.

(** * Properties *)

(** ** The order on tasks *)

(** [(executeTime, id)] ascending, strictly. *)
Definition task_before (a b : Task) : Prop :=
  executeTime a < executeTime b \/
  (executeTime a = executeTime b /\ id a < id b).

Lemma task_comp_spec a b : task_comp a b = true <-> task_before a b.
Proof.
  unfold task_comp, task_before.
  destruct (Z.eqb_spec (executeTime a) (executeTime b)) as [E | E].
  - rewrite Z.ltb_lt. lia.
  - rewrite Z.ltb_lt. lia.
Qed.

Lemma task_before_trans a b c :
  task_before a b -> task_before b c -> task_before a c.
Proof. unfold task_before. lia. Qed.

Lemma task_before_total a b :
  id a <> id b -> task_comp a b = false -> task_before b a.
Proof.
  intros Hne Hc. unfold task_before.
  destruct (task_comp a b) eqn:E; [discriminate |].
  assert (~ task_before a b) as N.
  { intro H. apply task_comp_spec in H. congruence. }
  unfold task_before in N. lia.
Qed.

Definition sorted_tasks (l : list Task) : Prop :=
  StronglySorted task_before l.

(** ** Lists: sortedness of pieces, positions *)

Section ListFacts.
Context {A : Type}.
Variable R : A -> A -> Prop.

Lemma StronglySorted_app_iff (l1 l2 : list A) :
  StronglySorted R (l1 ++ l2) <->
  StronglySorted R l1 /\ StronglySorted R l2 /\
  (forall a b, In a l1 -> In b l2 -> R a b).
Proof.
  induction l1 as [| x l1 IH]; simpl.
  - split.
    + intros H. repeat split; [constructor | exact H | contradiction].
    + tauto.
  - split.
    + intros H. inversion H as [| ? ? Hs Hf]; subst.
      apply IH in Hs. destruct Hs as (S1 & S2 & C).
      rewrite Forall_app in Hf. destruct Hf as [F1 F2].
      repeat split; auto.
      * constructor; auto.
      * intros a b [-> | Ha] Hb; [| auto].
        rewrite Forall_forall in F2. auto.
    + intros (S1 & S2 & C). inversion S1 as [| ? ? Hs Hf]; subst.
      constructor.
      * apply IH. repeat split; auto.
      * rewrite Forall_app. split; [assumption |].
        rewrite Forall_forall. intros b Hb. apply C; auto.
Qed.

Lemma StronglySorted_nth (l : list A) :
  StronglySorted R l ->
  forall i j a b, (i < j)%nat ->
    nth_error l i = Some a -> nth_error l j = Some b -> R a b.
Proof.
  induction 1 as [| x l Hs IH Hf]; intros i j a b Hij Hi Hj.
  - destruct i; discriminate.
  - destruct j as [| j]; [lia |]. simpl in Hj.
    destruct i as [| i]; simpl in Hi.
    + injection Hi as <-. rewrite Forall_forall in Hf.
      apply Hf. eapply nth_error_In; eauto.
    + apply (IH i j); auto. lia.
Qed.

Lemma In_firstn_nth (l : list A) :
  forall n a, In a (firstn n l) ->
    exists i, (i < n)%nat /\ nth_error l i = Some a.
Proof.
  induction l as [| x l IH]; intros n a H.
  - rewrite firstn_nil in H. contradiction.
  - destruct n as [| n]; simpl in H; [contradiction |].
    destruct H as [-> | H].
    + exists 0%nat. split; [lia | reflexivity].
    + destruct (IH n a H) as (i & Hi & Hn).
      exists (S i). split; [lia | exact Hn].
Qed.

Lemma In_skipn_nth (l : list A) :
  forall n a, In a (skipn n l) ->
    exists i, (n <= i)%nat /\ nth_error l i = Some a.
Proof.
  induction l as [| x l IH]; intros n a H.
  - rewrite skipn_nil in H. contradiction.
  - destruct n as [| n].
    + rewrite skipn_O in H. destruct (In_nth_error _ _ H) as (i & Hi).
      exists i. split; [lia | exact Hi].
    + simpl in H.
      destruct (IH n a H) as (i & Hi & Hn).
      exists (S i). split; [lia | exact Hn].
Qed.
End ListFacts.

(** ** std::upper_bound on a partitioned range *)

Section UpperBound.
Context {A : Type}.
Variable comp : A -> A -> bool.
Variable l : list A.
Variable val : A.

(** [comp val] at a position of the range. *)
Definition above (i : nat) : bool :=
  match nth_error l i with
  | Some m => comp val m
  | None => true
  end.

(** The range is partitioned with respect to [comp val]. *)
Hypothesis partitioned :
  forall i j, (i <= j)%nat -> (j < length l)%nat ->
    above i = true -> above j = true.

Lemma upper_bound_loop_spec :
  forall fuel first len,
    (len <= fuel)%nat -> (first + len <= length l)%nat ->
    (forall i, (i < first)%nat -> above i = false) ->
    (forall i, (first + len <= i)%nat -> (i < length l)%nat ->
       above i = true) ->
    let p := upper_bound_loop comp l val fuel first len in
    (p <= length l)%nat /\
    (forall i, (i < p)%nat -> above i = false) /\
    (forall i, (p <= i)%nat -> (i < length l)%nat -> above i = true).
Proof.
  induction fuel as [| fuel IH]; intros first len Hfuel Hlen Hlo Hhi; simpl.
  - assert (len = 0)%nat by lia. subst len.
    repeat split; auto; [lia |]. intros i H1 H2. apply Hhi; lia.
  - destruct (Nat.eqb_spec len 0) as [-> | Hn].
    + repeat split; auto; [lia |]. intros i H1 H2. apply Hhi; lia.
    + assert (Nat.div2 len < len)%nat as Hhalf.
      { apply Nat.lt_div2. lia. }
      generalize dependent (Nat.div2 len). intros half Hhalf.
      destruct (nth_error l (first + half)) as [m |] eqn:Em.
      * destruct (comp val m) eqn:Ec.
        -- apply IH; [lia | lia | exact Hlo |].
           intros i H1 H2.
           apply (partitioned (first + half)%nat i); auto.
           unfold above. rewrite Em. exact Ec.
        -- apply IH; [lia | lia | |].
           ++ intros i Hi.
              destruct (above i) eqn:Ei; [| reflexivity].
              assert (above (first + half) = true) as Hc.
              { apply (partitioned i); [lia | | exact Ei].
                apply nth_error_Some. congruence. }
              unfold above in Hc. rewrite Em in Hc. congruence.
           ++ intros i H1 H2. apply Hhi; lia.
      * apply nth_error_None in Em. lia.
Qed.

Lemma upper_bound_spec :
  let p := upper_bound comp l val in
  (p <= length l)%nat /\
  (forall i, (i < p)%nat -> above i = false) /\
  (forall i, (p <= i)%nat -> (i < length l)%nat -> above i = true).
Proof.
  unfold upper_bound.
  apply upper_bound_loop_spec; [lia | lia | intros; lia | intros; lia].
Qed.
End UpperBound.

(** ** insertTask keeps the sequence sorted *)

Lemma sorted_partitioned (l : list Task) (val : Task) :
  sorted_tasks l ->
  forall i j, (i <= j)%nat -> (j < length l)%nat ->
    above task_comp l val i = true -> above task_comp l val j = true.
Proof.
  intros Hs i j Hij Hj Hi. unfold above in *.
  destruct (nth_error l j) as [b |] eqn:Eb; [| reflexivity].
  destruct (nth_error l i) as [a |] eqn:Ea.
  - destruct (Nat.eq_dec i j) as [-> | Hne].
    + congruence.
    + apply task_comp_spec. apply task_comp_spec in Hi.
      apply (task_before_trans _ a); [exact Hi |].
      apply (StronglySorted_nth _ l Hs i j); auto. lia.
  - apply nth_error_None in Ea. lia.
Qed.

Lemma emplace_upper_bound (l : list Task) (val : Task) :
  sorted_tasks l ->
  Forall (fun e => id e < id val) l ->
  let p := upper_bound task_comp l val in
  sorted_tasks (emplace p val l) /\
  Forall (fun e => executeTime e <= executeTime val) (firstn p l) /\
  Forall (fun e => executeTime val < executeTime e) (skipn p l).
Proof.
  intros Hs Hid p.
  destruct (upper_bound_spec task_comp l val (sorted_partitioned l val Hs))
    as (Hp & Hlo & Hhi).
  fold p in Hp, Hlo, Hhi.
  rewrite Forall_forall in Hid.
  assert (forall a, In a (firstn p l) -> task_before a val) as Hbefore.
  { intros a Ha. destruct (In_firstn_nth l p a Ha) as (i & Hi & Hn).
    specialize (Hlo i Hi). unfold above in Hlo. rewrite Hn in Hlo.
    apply task_before_total; [| exact Hlo].
    apply nth_error_In in Hn. specialize (Hid a Hn). lia. }
  assert (forall a, In a (skipn p l) -> task_before val a) as Hafter.
  { intros a Ha. destruct (In_skipn_nth l p a Ha) as (i & Hi & Hn).
    assert (i < length l)%nat as Hl by (apply nth_error_Some; congruence).
    specialize (Hhi i Hi Hl). unfold above in Hhi. rewrite Hn in Hhi.
    apply task_comp_spec. exact Hhi. }
  assert (forall a, In a (skipn p l) -> In a l) as Hsk.
  { intros a Ha. rewrite <- (firstn_skipn p l). apply in_or_app. now right. }
  pose proof Hs as Hs'. unfold sorted_tasks in Hs'.
  rewrite <- (firstn_skipn p l) in Hs'.
  apply StronglySorted_app_iff in Hs'. destruct Hs' as (S1 & S2 & C).
  split; [| split].
  - unfold sorted_tasks, emplace. apply StronglySorted_app_iff.
    split; [exact S1 | split].
    + constructor; [exact S2 |]. rewrite Forall_forall. exact Hafter.
    + intros a b Ha [<- | Hb]; auto.
  - rewrite Forall_forall. intros a Ha.
    specialize (Hbefore a Ha). unfold task_before in Hbefore. lia.
  - rewrite Forall_forall. intros a Ha.
    specialize (Hafter a Ha). specialize (Hid a (Hsk a Ha)).
    unfold task_before in Hafter. lia.
Qed.

(** ** The invariant of the queue *)

(** Sorted by [(executeTime, id)], ids pairwise distinct, at least 1 and
    at most the counter. *)
Record queue_ok (s : TaskQueue) : Prop := mk_queue_ok {
  ok_sorted : sorted_tasks (tasks_ s);
  ok_nodup : NoDup (map id (tasks_ s));
  ok_ids : Forall (fun t => 1 <= id t <= taskIdCounter_ s) (tasks_ s);
  ok_counter : 0 <= taskIdCounter_ s
}.

Lemma queue_ok_new : queue_ok TaskQueue_new.
Proof.
  constructor; simpl; try constructor. lia.
Qed.

Lemma ids_below_next (s : TaskQueue) f t b :
  queue_ok s ->
  Forall (fun e => id e < id (mkTask (taskIdCounter_ s + 1) f t b)) (tasks_ s).
Proof.
  intros H. eapply Forall_impl; [| apply (ok_ids s H)].
  simpl. intros a Ha. lia.
Qed.

Lemma insertTask_ok f t b s :
  queue_ok s -> queue_ok (fst (insertTask f t b s)).
Proof.
  intros H. unfold insertTask. simpl.
  set (task := mkTask (taskIdCounter_ s + 1) f t b).
  destruct (emplace_upper_bound (tasks_ s) task (ok_sorted s H)
              (ids_below_next s f t b H)) as (Hs & _ & _).
  pose proof (ok_ids s H) as Hids. pose proof (ok_counter s H) as Hc.
  pose proof (ok_nodup s H) as Hnd.
  set (p := upper_bound task_comp (tasks_ s) task) in *.
  constructor; simpl.
  - exact Hs.
  - unfold emplace. rewrite map_app. simpl.
    apply NoDup_Add with (a := id task) (l := map id (tasks_ s)).
    + rewrite <- (firstn_skipn p (tasks_ s)) at 1. rewrite map_app.
      apply Add_app.
    + split; [exact Hnd |].
      intros Hin. apply in_map_iff in Hin. destruct Hin as (e & He & Hine).
      rewrite Forall_forall in Hids. specialize (Hids e Hine).
      simpl in He. lia.
  - unfold emplace. rewrite Forall_app. split.
    + rewrite Forall_forall in *. intros e He.
      assert (In e (tasks_ s)) as Hin.
      { rewrite <- (firstn_skipn p (tasks_ s)). apply in_or_app. now left. }
      specialize (Hids e Hin). lia.
    + constructor; [simpl; lia |].
      rewrite Forall_forall in *. intros e He.
      assert (In e (tasks_ s)) as Hin.
      { rewrite <- (firstn_skipn p (tasks_ s)). apply in_or_app. now right. }
      specialize (Hids e Hin). lia.
  - lia.
Qed.

Lemma remove_first_incl i l :
  forall e, In e (fst (remove_first i l)) -> In e l.
Proof.
  induction l as [| t l IH]; simpl; intros e He; [exact He |].
  destruct (id t =? i); [now right |].
  destruct (remove_first i l) as [r f]. simpl in *.
  destruct He as [-> | He]; auto.
Qed.

Lemma remove_first_sorted i l :
  sorted_tasks l -> sorted_tasks (fst (remove_first i l)).
Proof.
  induction 1 as [| t l Hs IH Hf]; simpl; [constructor |].
  destruct (id t =? i); [exact Hs |].
  pose proof (remove_first_incl i l) as Hin.
  destruct (remove_first i l) as [r f]. simpl in *.
  constructor; [exact IH |].
  rewrite Forall_forall in *. auto.
Qed.

Lemma remove_first_nodup i l :
  NoDup (map id l) -> NoDup (map id (fst (remove_first i l))).
Proof.
  induction l as [| t l IH]; simpl; intros H; [constructor |].
  inversion H as [| ? ? Hn Hd]; subst.
  destruct (id t =? i); [exact Hd |].
  pose proof (remove_first_incl i l) as Hin.
  destruct (remove_first i l) as [r f]. simpl in *.
  constructor; [| auto].
  intros Hc. apply Hn. apply in_map_iff in Hc.
  destruct Hc as (e & He & Hie). apply in_map_iff. exists e. auto.
Qed.

Lemma lockFreeRemoveTask_ok i s :
  queue_ok s -> queue_ok (fst (lockFreeRemoveTask i s)).
Proof.
  intros H. unfold lockFreeRemoveTask.
  pose proof (remove_first_sorted i (tasks_ s) (ok_sorted s H)) as Hs.
  pose proof (remove_first_nodup i (tasks_ s) (ok_nodup s H)) as Hn.
  pose proof (remove_first_incl i (tasks_ s)) as Hin.
  pose proof (ok_ids s H) as Hids. pose proof (ok_counter s H) as Hc.
  destruct (remove_first i (tasks_ s)) as [r f]. simpl in *.
  constructor; simpl; auto.
  rewrite Forall_forall in *. auto.
Qed.

Lemma queue_ok_same (s s' : TaskQueue) :
  tasks_ s' = tasks_ s -> taskIdCounter_ s' = taskIdCounter_ s ->
  queue_ok s -> queue_ok s'.
Proof.
  intros Ht Hc [H1 H2 H3 H4]. constructor; rewrite ?Ht, ?Hc; assumption.
Qed.

Lemma queue_ok_tail (s : TaskQueue) t rest :
  tasks_ s = t :: rest -> queue_ok s -> queue_ok (with_tasks rest s).
Proof.
  intros Ht [H1 H2 H3 H4]. rewrite Ht in *.
  constructor; simpl; auto.
  - now inversion H1.
  - now inversion H2.
  - now inversion H3.
Qed.

Lemma queue_ok_clear (s : TaskQueue) :
  queue_ok s -> queue_ok (with_tasks [] s).
Proof.
  intros [H1 H2 H3 H4]. constructor; simpl; auto; constructor.
Qed.

#[local] Ltac same_tasks H :=
  eapply queue_ok_same; [| | exact H]; reflexivity.

Lemma enqueue_locked_ok f t s :
  queue_ok s -> queue_ok (fst (fst (enqueue_locked f t s))).
Proof.
  intros H. unfold enqueue_locked.
  pose proof (insertTask_ok f t false s H) as Hi.
  destruct (insertTask f t false s) as [s1 i]. simpl in Hi.
  destruct (empty_ (with_first false s1)); simpl; same_tasks Hi.
Qed.

Lemma enqueue_ok f t s :
  queue_ok s -> queue_ok (fst (fst (enqueue f t s))).
Proof.
  intros H. unfold enqueue.
  destruct (disposed_ s); [exact H | now apply enqueue_locked_ok].
Qed.

Lemma cancel_ok i s : queue_ok s -> queue_ok (fst (cancel i s)).
Proof. intros H. unfold cancel. simpl. now apply lockFreeRemoveTask_ok. Qed.

Lemma barrier_pass_ok i s :
  queue_ok s -> queue_ok (fst (barrier_pass i s)).
Proof.
  intros H. unfold barrier_pass.
  destruct (tasks_ s) eqn:E; [exact H |].
  destruct (negb (currentRunningTasks_ s =? 0) || negb (id t =? i));
    simpl; [exact H | same_tasks H].
Qed.

Lemma barrier_leave_ok i s : queue_ok s -> queue_ok (barrier_leave i s).
Proof.
  intros H. unfold barrier_leave.
  pose proof (lockFreeRemoveTask_ok i s H) as Hr. same_tasks Hr.
Qed.

Lemma nextTask_pass_ok maxTime now s :
  queue_ok s -> queue_ok (fst (fst (nextTask_pass maxTime now s))).
Proof.
  intros H. unfold nextTask_pass.
  destruct (disposed_ s); [exact H |].
  destruct (tasks_ s) eqn:E.
  - destruct (negb (empty_ s)); simpl; [| exact H].
    apply (queue_ok_same s); auto.
  - destruct (maxConcurrentTasks_ s <=? currentRunningTasks_ s); [exact H |].
    destruct (isBarrier t); [exact H |].
    destruct (now <? executeTime t); exact H.
Qed.

Lemma nextTask_finish_ok b s :
  queue_ok s -> queue_ok (fst (nextTask_finish b s)).
Proof.
  intros H. unfold nextTask_finish.
  destruct (disposed_ s || negb b); [exact H |].
  destruct (tasks_ s) eqn:E; [exact H |]. simpl.
  apply (queue_ok_same (with_tasks l s)); auto.
  now apply (queue_ok_tail s t).
Qed.

Lemma nextTask_block_ok maxTime now s :
  queue_ok s -> queue_ok (fst (fst (nextTask_block maxTime now s))).
Proof.
  intros H. unfold nextTask_block.
  pose proof (nextTask_pass_ok maxTime now s H) as Hp.
  destruct (nextTask_pass maxTime now s) as [[s1 evs] p]. simpl in Hp.
  destruct p.
  - pose proof (nextTask_finish_ok false s1 Hp) as Hf.
    destruct (nextTask_finish false s1). exact Hf.
  - exact Hp.
  - pose proof (nextTask_finish_ok true s1 Hp) as Hf.
    destruct (nextTask_finish true s1). exact Hf.
Qed.

Lemma sys_nextTask_ok maxTime now sys :
  queue_ok (queue sys) ->
  queue_ok (queue (fst (fst (sys_nextTask maxTime now sys)))).
Proof.
  intros H. unfold sys_nextTask.
  pose proof (nextTask_block_ok maxTime now (queue sys) H) as Hb.
  destruct (nextTask_block maxTime now (queue sys)) as [[q1 evs] b].
  destruct b as [[t |] | u m]; exact Hb.
Qed.

Lemma sys_barrier_pass_ok i f sys :
  queue_ok (queue sys) ->
  queue_ok (queue (fst (fst (sys_barrier_pass i f sys)))).
Proof.
  intros H. unfold sys_barrier_pass.
  pose proof (barrier_pass_ok i (queue sys) H) as Hb.
  destruct (barrier_pass i (queue sys)) as [q1 p].
  destruct p; exact Hb.
Qed.

Lemma sys_barrier_begin_ok f now sys :
  queue_ok (queue sys) ->
  queue_ok (queue (fst (fst (fst (sys_barrier_begin f now sys))))).
Proof.
  intros H. unfold sys_barrier_begin, barrier_insert.
  pose proof (insertTask_ok EmptyFunction now true (queue sys) H) as Hi.
  destruct (insertTask EmptyFunction now true (queue sys)) as [q1 i].
  pose proof (sys_barrier_pass_ok i f (with_queue q1 [] sys) Hi) as Hp.
  destruct (sys_barrier_pass i f (with_queue q1 [] sys)) as [[sys1 evs] p].
  exact Hp.
Qed.

Lemma sys_step_ok o sys :
  queue_ok (queue sys) -> queue_ok (queue (sys_step o sys)).
Proof.
  intros H. destruct o; simpl.
  - pose proof (enqueue_ok f t (queue sys) H) as He.
    destruct (enqueue f t (queue sys)) as [[q evs] r]. exact He.
  - pose proof (enqueue_locked_ok f t (queue sys) H) as He.
    destruct (enqueue_locked f t (queue sys)) as [[q evs] r]. exact He.
  - now apply lockFreeRemoveTask_ok.
  - same_tasks H.
  - destruct (disposed_ (queue sys)); [| exact H].
    now apply queue_ok_clear.
  - unfold setMaxConcurrentTasks.
    destruct (maxConcurrentTasks_ (queue sys) =? size_wrap n);
      [exact H | same_tasks H].
  - same_tasks H.
  - now apply sys_barrier_begin_ok.
  - destruct (lookup_waiting i (waiting sys)); [| exact H].
    now apply sys_barrier_pass_ok.
  - unfold sys_barrier_leave.
    destruct (is_entered i (entered sys)); [| exact H].
    now apply barrier_leave_ok.
  - now apply sys_nextTask_ok.
  - unfold sys_task_done. destruct (stepping sys); [exact H |].
    same_tasks H.
Qed.

Lemma run_app ops1 ops2 sys :
  run (ops1 ++ ops2) sys = run ops2 (run ops1 sys).
Proof. unfold run. apply fold_left_app. Qed.

Lemma run_ok ops : forall sys,
  queue_ok (queue sys) -> queue_ok (queue (run ops sys)).
Proof.
  induction ops as [| o ops IH]; intros sys H; simpl; [exact H |].
  apply IH. now apply sys_step_ok.
Qed.

Lemma sorted_tasks_fifo (l : list Task) :
  sorted_tasks l ->
  forall l1 a l2 b l3, l = l1 ++ a :: l2 ++ b :: l3 ->
    executeTime a = executeTime b -> id a < id b.
Proof.
  intros Hs l1 a l2 b l3 -> Ht.
  apply StronglySorted_app_iff in Hs. destruct Hs as (_ & Hs & _).
  inversion Hs as [| ? ? _ Hf]; subst.
  rewrite Forall_forall in Hf.
  assert (task_before a b) as Hb.
  { apply Hf. apply in_or_app. right. now left. }
  unfold task_before in Hb. lia.
Qed.

(** C1: in every state reached from a new queue by any sequence of
    actions (enqueue, cancel, dispose, barrier, the blocks of step, and
    the setters) the task sequence is sorted ascending by
    [(executeTime, id)].  A new task is placed at the position found by
    [upper_bound]: its id exceeds every id present, every entry before it
    has an execute time at most its own and every entry after it a
    strictly later one, so it lands behind the entries of equal time; and
    two entries of equal time stand in the order of their ids, the
    order of submission. *)
Theorem C1_tasks_sorted_by_time_then_id :
  forall (ops : list Op),
    let s := queue (run ops System_new) in
    sorted_tasks (tasks_ s) /\
    (forall o, sorted_tasks (tasks_ (queue (sys_step o (run ops System_new))))) /\
    (forall f t,
       let task := mkTask (taskIdCounter_ s + 1) f t false in
       let p := upper_bound task_comp (tasks_ s) task in
       tasks_ (fst (fst (enqueue_locked f t s)))
         = firstn p (tasks_ s) ++ task :: skipn p (tasks_ s) /\
       enq_id (snd (enqueue_locked f t s)) = taskIdCounter_ s + 1 /\
       Forall (fun e => id e < taskIdCounter_ s + 1) (tasks_ s) /\
       Forall (fun e => executeTime e <= t) (firstn p (tasks_ s)) /\
       Forall (fun e => t < executeTime e) (skipn p (tasks_ s))) /\
    (forall l1 a l2 b l3,
       tasks_ s = l1 ++ a :: l2 ++ b :: l3 ->
       executeTime a = executeTime b -> id a < id b).
Proof.
  intros ops s.
  assert (queue_ok s) as Hok by (apply run_ok, queue_ok_new).
  split; [apply (ok_sorted s Hok) | split; [| split]].
  - intros o. apply ok_sorted. apply sys_step_ok. exact Hok.
  - intros f t task p.
    destruct (emplace_upper_bound (tasks_ s) task (ok_sorted s Hok)
                (ids_below_next s f t false Hok)) as (_ & Hb & Ha).
    split; [| split; [| split; [| split]]].
    + unfold enqueue_locked, insertTask. simpl. fold task. fold p.
      destruct (empty_ s); reflexivity.
    + unfold enqueue_locked, insertTask. simpl.
      destruct (empty_ s); reflexivity.
    + apply (ids_below_next s f t false Hok).
    + exact Hb.
    + exact Ha.
  - apply sorted_tasks_fifo. apply (ok_sorted s Hok).
Qed.

Lemma C1_tasks_sorted_witness :
  let ops := [OpEnqueue (Callable 1) 5; OpEnqueue (Callable 2) 5;
              OpBarrier (Callable 3) 5; OpEnqueue (Callable 4) 2] in
  map id (tasks_ (queue (run ops System_new))) = [4; 1; 2; 3] /\
  sorted_tasks (tasks_ (queue (run ops System_new))) /\
  id (mkTask 1 (Callable 1) 5 false) < id (mkTask 2 (Callable 2) 5 false).
Proof.
  intros ops. split; [reflexivity |].
  destruct (C1_tasks_sorted_by_time_then_id ops) as (Hs & _ & _ & Hfifo).
  split; [exact Hs |].
  apply (Hfifo [mkTask 4 (Callable 4) 2 false] _ [] _
           [mkTask 3 EmptyFunction 5 true]); reflexivity.
Defined.

(** ** What an action adds to the trace *)

Definition emitted (o : Op) (sys : System) : list Event :=
  skipn (length (trace sys)) (trace (sys_step o sys)).

Lemma skipn_length_app {A : Type} (l evs : list A) :
  skipn (length l) (l ++ evs) = evs.
Proof. induction l as [| x l IH]; simpl; auto. Qed.

Lemma sys_nextTask_trace maxTime now sys :
  trace (fst (fst (sys_nextTask maxTime now sys)))
    = trace sys ++ snd (fst (sys_nextTask maxTime now sys)).
Proof.
  unfold sys_nextTask.
  destruct (nextTask_block maxTime now (queue sys)) as [[q1 evs] b].
  destruct b as [[t |] | u m]; reflexivity.
Qed.

Lemma sys_barrier_pass_trace i f sys :
  trace (fst (fst (sys_barrier_pass i f sys)))
    = trace sys ++ snd (fst (sys_barrier_pass i f sys)).
Proof.
  unfold sys_barrier_pass.
  destruct (barrier_pass i (queue sys)) as [q1 p].
  destruct p; simpl; rewrite ?app_nil_r; reflexivity.
Qed.

Lemma sys_barrier_begin_trace f now sys :
  trace (fst (fst (fst (sys_barrier_begin f now sys))))
    = trace sys ++ snd (fst (fst (sys_barrier_begin f now sys))).
Proof.
  unfold sys_barrier_begin.
  destruct (barrier_insert now (queue sys)) as [q1 i].
  pose proof (sys_barrier_pass_trace i f (with_queue q1 [] sys)) as H.
  destruct (sys_barrier_pass i f (with_queue q1 [] sys)) as [[sys1 evs] p].
  simpl in *. rewrite app_nil_r in H. exact H.
Qed.

Lemma sys_step_trace o sys :
  trace (sys_step o sys) = trace sys ++ emitted o sys.
Proof.
  assert (exists evs, trace (sys_step o sys) = trace sys ++ evs) as [evs H].
  { destruct o; simpl.
    - destruct (enqueue f t (queue sys)) as [[q evs] r]. now exists evs.
    - destruct (enqueue_locked f t (queue sys)) as [[q evs] r]. now exists evs.
    - now exists [].
    - now exists [].
    - destruct (disposed_ (queue sys)); exists []; simpl;
        now rewrite ?app_nil_r.
    - now exists [].
    - now exists [].
    - eexists. apply sys_barrier_begin_trace.
    - destruct (lookup_waiting i (waiting sys)).
      + eexists. apply sys_barrier_pass_trace.
      + exists []. now rewrite app_nil_r.
    - unfold sys_barrier_leave. destruct (is_entered i (entered sys));
        exists []; simpl; now rewrite app_nil_r.
    - eexists. apply sys_nextTask_trace.
    - unfold sys_task_done. destruct (stepping sys);
        exists []; simpl; now rewrite app_nil_r. }
  unfold emitted. rewrite H. now rewrite skipn_length_app.
Qed.

Lemma emitted_eq o sys evs :
  trace (sys_step o sys) = trace sys ++ evs -> emitted o sys = evs.
Proof. intros H. unfold emitted. rewrite H. apply skipn_length_app. Qed.

Lemma run_trace ops : forall sys,
  exists evs, trace (run ops sys) = trace sys ++ evs.
Proof.
  induction ops as [| o ops IH]; intros sys; simpl.
  - exists []. now rewrite app_nil_r.
  - destruct (IH (sys_step o sys)) as [evs H].
    exists (emitted o sys ++ evs).
    rewrite H, sys_step_trace. now rewrite app_assoc.
Qed.

(** ** Submission after disposal *)

(** C5: on a disposed queue [enqueue] returns id 0 and [isFirst] false and
    leaves the queue exactly as it was (task sequence, id counter,
    [first_], [empty_] and all other fields); no listener callback and
    no other event is produced. *)
Theorem C5_enqueue_on_disposed_is_rejected :
  forall (f : DispatchFunction) (t : time_point) (s : TaskQueue),
    disposed_ s = true ->
    enqueue f t s = (s, [], mkEnqueuedTask 0 false) /\
    (forall sys, queue sys = s ->
       queue (sys_step (OpEnqueue f t) sys) = s /\
       trace (sys_step (OpEnqueue f t) sys) = trace sys).
Proof.
  intros f t s H. unfold enqueue. rewrite H. split; [reflexivity |].
  intros sys <-. simpl. unfold enqueue. rewrite H. simpl.
  split; [reflexivity | apply app_nil_r].
Qed.

Lemma C5_enqueue_on_disposed_witness :
  let s := dispose (fst (fst (enqueue (Callable 1) 5 TaskQueue_new))) in
  disposed_ s = true /\
  enqueue (Callable 2) 7 s = (s, [], mkEnqueuedTask 0 false).
Proof.
  split; [reflexivity |].
  apply (C5_enqueue_on_disposed_is_rejected (Callable 2) 7). reflexivity.
Defined.

(** ** Identifiers are never reused *)

Definition ids (s : TaskQueue) : list TaskId := map id (tasks_ s).

(** From [s] to [s']: the counter does not decrease and every id
    present in [s'] was present in [s] or was handed out in between. *)
Definition grows (s s' : TaskQueue) : Prop :=
  taskIdCounter_ s <= taskIdCounter_ s' /\
  forall j, In j (ids s') ->
    In j (ids s) \/ taskIdCounter_ s < j <= taskIdCounter_ s'.

Lemma grows_refl s : grows s s.
Proof. split; [lia | auto]. Qed.

Lemma grows_trans s1 s2 s3 : grows s1 s2 -> grows s2 s3 -> grows s1 s3.
Proof.
  intros [C1 H1] [C2 H2]. split; [lia |].
  intros j Hj. destruct (H2 j Hj) as [H | H]; [| right; lia].
  destruct (H1 j H) as [H' | H']; [now left | right; lia].
Qed.

Lemma grows_same s s' :
  tasks_ s' = tasks_ s -> taskIdCounter_ s' = taskIdCounter_ s -> grows s s'.
Proof.
  intros Ht Hc. unfold grows, ids. rewrite Ht, Hc. split; [lia | auto].
Qed.

Lemma grows_sub s s' :
  (forall e, In e (tasks_ s') -> In e (tasks_ s)) ->
  taskIdCounter_ s' = taskIdCounter_ s -> grows s s'.
Proof.
  intros Ht Hc. unfold grows, ids. rewrite Hc. split; [lia |].
  intros j Hj. left. apply in_map_iff in Hj. destruct Hj as (e & <- & He).
  apply in_map. auto.
Qed.

Lemma insertTask_grows f t b s : grows s (fst (insertTask f t b s)).
Proof.
  unfold insertTask, grows, ids. simpl. split; [lia |].
  intros j Hj. unfold emplace in Hj. rewrite map_app in Hj. simpl in Hj.
  apply in_app_or in Hj.
  set (p := upper_bound _ _ _) in Hj.
  assert (forall x, In x (map id (firstn p (tasks_ s)))
                    \/ In x (map id (skipn p (tasks_ s)))
                    -> In x (map id (tasks_ s))) as Hin.
  { intros x Hx. rewrite <- (firstn_skipn p (tasks_ s)), map_app.
    apply in_or_app. exact Hx. }
  destruct Hj as [Hj | [<- | Hj]]; [left; auto | right; lia | left; auto].
Qed.

Lemma enqueue_locked_grows f t s : grows s (fst (fst (enqueue_locked f t s))).
Proof.
  unfold enqueue_locked.
  pose proof (insertTask_grows f t false s) as Hi.
  destruct (insertTask f t false s) as [s1 i]. simpl in Hi.
  apply (grows_trans _ s1); [exact Hi |].
  destruct (empty_ (with_first false s1)); simpl; now apply grows_same.
Qed.

Lemma enqueue_grows f t s : grows s (fst (fst (enqueue f t s))).
Proof.
  unfold enqueue. destruct (disposed_ s);
    [apply grows_refl | apply enqueue_locked_grows].
Qed.

Lemma lockFreeRemoveTask_grows i s : grows s (fst (lockFreeRemoveTask i s)).
Proof.
  unfold lockFreeRemoveTask.
  pose proof (remove_first_incl i (tasks_ s)) as Hin.
  destruct (remove_first i (tasks_ s)) as [r f]. simpl in *.
  now apply grows_sub.
Qed.

Lemma barrier_pass_grows i s : grows s (fst (barrier_pass i s)).
Proof.
  unfold barrier_pass. destruct (tasks_ s) eqn:E; [apply grows_refl |].
  destruct (negb (currentRunningTasks_ s =? 0) || negb (id t =? i)); simpl;
    [apply grows_refl | now apply grows_same].
Qed.

Lemma barrier_leave_grows i s : grows s (barrier_leave i s).
Proof.
  unfold barrier_leave.
  apply (grows_trans _ (fst (lockFreeRemoveTask i s)));
    [apply lockFreeRemoveTask_grows | now apply grows_same].
Qed.

(** *** What one hold of the lock in nextTask can do *)

Definition is_invoke (e : Event) : bool :=
  match e with
  | invokeTask _ _ | invokeBarrier _ _ => true
  | _ => false
  end.

Lemma nextTask_pass_events maxTime now s :
  forall e, In e (snd (fst (nextTask_pass maxTime now s))) ->
    is_invoke e = false.
Proof.
  unfold nextTask_pass. intros e.
  destruct (disposed_ s); [simpl; tauto |].
  destruct (tasks_ s).
  - destruct (negb (empty_ s)); simpl; [| tauto].
    destruct (listener_ s); simpl; [| tauto].
    intros [<- | []]. reflexivity.
  - destruct (maxConcurrentTasks_ s <=? currentRunningTasks_ s);
      [simpl; tauto |].
    destruct (isBarrier t); [simpl; tauto |].
    destruct (now <? executeTime t); simpl; tauto.
Qed.

Lemma nextTask_pass_hasTask maxTime now s s1 evs :
  nextTask_pass maxTime now s = (s1, evs, PassHasTask) ->
  s1 = s /\ evs = [] /\ disposed_ s = false /\
  exists t rest, tasks_ s = t :: rest /\ isBarrier t = false /\
    executeTime t <= now /\
    currentRunningTasks_ s < maxConcurrentTasks_ s.
Proof.
  unfold nextTask_pass.
  destruct (disposed_ s) eqn:Ed; [discriminate |].
  destruct (tasks_ s) as [| t rest] eqn:Et.
  - destruct (negb (empty_ s)); discriminate.
  - destruct (Z.leb_spec (maxConcurrentTasks_ s) (currentRunningTasks_ s))
      as [Hc | Hc]; [discriminate |].
    destruct (isBarrier t) eqn:Eb; [discriminate |].
    destruct (Z.ltb_spec now (executeTime t)) as [Hn | Hn]; [discriminate |].
    intros E. injection E as <- <-.
    repeat split; auto. exists t, rest. repeat split; auto.
Qed.

Lemma nextTask_pass_disposed maxTime now s s1 evs :
  nextTask_pass maxTime now s = (s1, evs, PassDisposed) ->
  s1 = s /\ evs = [] /\ disposed_ s = true.
Proof.
  unfold nextTask_pass.
  destruct (disposed_ s) eqn:Ed.
  - intros H. injection H as <- <-. auto.
  - destruct (tasks_ s) as [| t rest].
    + destruct (negb (empty_ s)); discriminate.
    + destruct (maxConcurrentTasks_ s <=? currentRunningTasks_ s);
        [discriminate |].
      destruct (isBarrier t); [discriminate |].
      destruct (now <? executeTime t); discriminate.
Qed.

(** A block that returns a task: the task was the head, ready, not a
    barrier, below the ceiling, and the block popped exactly it. *)
Lemma nextTask_block_popped maxTime now s s' evs t :
  nextTask_block maxTime now s = (s', evs, BlockReturn (Some t)) ->
  evs = [] /\ disposed_ s = false /\
  tasks_ s = t :: tasks_ s' /\ isBarrier t = false /\
  executeTime t <= now /\
  currentRunningTasks_ s < maxConcurrentTasks_ s /\
  s' = with_tasks (tl (tasks_ s))
         (with_running (size_wrap (currentRunningTasks_ s + 1)) s).
Proof.
  unfold nextTask_block.
  destruct (nextTask_pass maxTime now s) as [[s1 evs1] p] eqn:Ep.
  destruct p.
  - apply nextTask_pass_disposed in Ep. destruct Ep as (-> & -> & Hd).
    unfold nextTask_finish. rewrite Hd. simpl. discriminate.
  - discriminate.
  - apply nextTask_pass_hasTask in Ep.
    destruct Ep as (-> & -> & Hd & t0 & rest & Ht & Hb & Hr & Hc).
    unfold nextTask_finish. rewrite Hd, Ht. simpl.
    intros H. injection H as <- <- <-. simpl.
    repeat split; auto.
Qed.

(** A block that returns without a task met a disposed queue and
    changed nothing. *)
Lemma nextTask_block_refused maxTime now s s' evs :
  nextTask_block maxTime now s = (s', evs, BlockReturn None) ->
  s' = s /\ evs = [] /\ disposed_ s = true.
Proof.
  unfold nextTask_block.
  destruct (nextTask_pass maxTime now s) as [[s1 evs1] p] eqn:Ep.
  destruct p.
  - apply nextTask_pass_disposed in Ep. destruct Ep as (-> & -> & Hd).
    unfold nextTask_finish. rewrite Hd. simpl.
    intros H. injection H as <- <-. auto.
  - discriminate.
  - apply nextTask_pass_hasTask in Ep.
    destruct Ep as (-> & -> & Hd & t0 & rest & Ht & Hb & Hr & Hc).
    unfold nextTask_finish. rewrite Hd, Ht. simpl. discriminate.
Qed.

(** A block that waits leaves the task sequence alone and invokes
    nothing. *)
Lemma nextTask_block_waits maxTime now s s' evs u m :
  nextTask_block maxTime now s = (s', evs, BlockWait u m) ->
  tasks_ s' = tasks_ s /\ taskIdCounter_ s' = taskIdCounter_ s /\
  disposed_ s' = disposed_ s /\ disposed_ s = false /\
  currentRunningTasks_ s' = currentRunningTasks_ s /\
  maxConcurrentTasks_ s' = maxConcurrentTasks_ s /\
  listener_ s' = listener_ s /\
  (forall e, In e evs -> is_invoke e = false).
Proof.
  unfold nextTask_block.
  pose proof (nextTask_pass_events maxTime now s) as Hev.
  destruct (nextTask_pass maxTime now s) as [[s1 evs1] p] eqn:Ep.
  destruct p.
  - destruct (nextTask_finish false s1); discriminate.
  - intros H. injection H as <- <- <- <-. simpl in Hev.
    revert Ep. unfold nextTask_pass.
    destruct (disposed_ s) eqn:Ed; [discriminate |].
    destruct (tasks_ s) as [| t rest] eqn:Et.
    + destruct (negb (empty_ s)); intros H; injection H as <- _ _ _;
        simpl; rewrite ?Ed, ?Et; repeat split; auto.
    + destruct (maxConcurrentTasks_ s <=? currentRunningTasks_ s);
        [intros H; injection H as <- _ _ _; rewrite ?Ed, ?Et;
         repeat split; auto |].
      destruct (isBarrier t);
        [intros H; injection H as <- _ _ _; rewrite ?Ed, ?Et;
         repeat split; auto |].
      destruct (now <? executeTime t); [| discriminate].
      intros H; injection H as <- _ _ _; rewrite ?Ed, ?Et;
        repeat split; auto.
  - destruct (nextTask_finish true s1); discriminate.
Qed.

Lemma nextTask_block_grows maxTime now s :
  grows s (fst (fst (nextTask_block maxTime now s))).
Proof.
  destruct (nextTask_block maxTime now s) as [[s' evs] b] eqn:E.
  destruct b as [[t |] | u m]; simpl.
  - apply nextTask_block_popped in E.
    destruct E as (_ & _ & Ht & _ & _ & _ & ->).
    apply grows_sub; [| reflexivity].
    simpl. intros e He. destruct (tasks_ s); [contradiction | now right].
  - apply nextTask_block_refused in E. destruct E as (-> & _).
    apply grows_refl.
  - apply nextTask_block_waits in E. destruct E as (Ht & Hc & _).
    now apply grows_same.
Qed.

Lemma sys_barrier_pass_queue i f sys :
  queue (fst (fst (sys_barrier_pass i f sys)))
    = fst (barrier_pass i (queue sys)).
Proof.
  unfold sys_barrier_pass.
  destruct (barrier_pass i (queue sys)) as [q1 p]. destruct p; reflexivity.
Qed.

Lemma sys_nextTask_queue maxTime now sys :
  queue (fst (fst (sys_nextTask maxTime now sys)))
    = fst (fst (nextTask_block maxTime now (queue sys))).
Proof.
  unfold sys_nextTask.
  destruct (nextTask_block maxTime now (queue sys)) as [[q1 evs] b].
  destruct b as [[t |] | u m]; reflexivity.
Qed.

Lemma sys_barrier_begin_queue f now sys :
  queue (fst (fst (fst (sys_barrier_begin f now sys))))
    = fst (barrier_pass (taskIdCounter_ (queue sys) + 1)
             (fst (barrier_insert now (queue sys)))).
Proof.
  unfold sys_barrier_begin, barrier_insert, insertTask.
  cbv beta iota zeta.
  match goal with
  | |- context [sys_barrier_pass ?i ?f ?s] =>
      pose proof (sys_barrier_pass_queue i f s) as H;
      destruct (sys_barrier_pass i f s) as [[sys1 evs] p]
  end.
  exact H.
Qed.

Lemma sys_step_grows o sys : grows (queue sys) (queue (sys_step o sys)).
Proof.
  destruct o; simpl.
  - pose proof (enqueue_grows f t (queue sys)) as H.
    destruct (enqueue f t (queue sys)) as [[q evs] r]. exact H.
  - pose proof (enqueue_locked_grows f t (queue sys)) as H.
    destruct (enqueue_locked f t (queue sys)) as [[q evs] r]. exact H.
  - apply lockFreeRemoveTask_grows.
  - now apply grows_same.
  - destruct (disposed_ (queue sys)); [| apply grows_refl].
    apply grows_sub; [simpl; contradiction | reflexivity].
  - unfold setMaxConcurrentTasks.
    destruct (maxConcurrentTasks_ (queue sys) =? size_wrap n);
      [apply grows_refl | now apply grows_same].
  - now apply grows_same.
  - rewrite sys_barrier_begin_queue.
    eapply grows_trans; [apply (insertTask_grows EmptyFunction now true) |].
    apply barrier_pass_grows.
  - destruct (lookup_waiting i (waiting sys)); [| apply grows_refl].
    rewrite sys_barrier_pass_queue. apply barrier_pass_grows.
  - unfold sys_barrier_leave.
    destruct (is_entered i (entered sys)); [| apply grows_refl].
    apply barrier_leave_grows.
  - rewrite sys_nextTask_queue. apply nextTask_block_grows.
  - unfold sys_task_done. destruct (stepping sys); [apply grows_refl |].
    now apply grows_same.
Qed.

(** *** Where each kind of event comes from *)

Lemma enqueue_locked_events f t s :
  snd (fst (enqueue_locked f t s))
    = (if empty_ s then notify (listener_ s) onQueueNonEmpty else []) /\
  empty_ (fst (fst (enqueue_locked f t s))) = false.
Proof.
  unfold enqueue_locked, insertTask. simpl.
  destruct (empty_ s) eqn:E; simpl; auto.
Qed.

Lemma nextTask_block_events maxTime now s :
  forall e, In e (snd (fst (nextTask_block maxTime now s))) ->
    exists l, e = onQueueEmpty l /\ listener_ s = Some l /\
      disposed_ s = false /\ tasks_ s = [] /\ empty_ s = false /\
      empty_ (fst (fst (nextTask_block maxTime now s))) = true.
Proof.
  unfold nextTask_block, nextTask_pass.
  destruct (disposed_ s) eqn:Ed.
  - unfold nextTask_finish. rewrite Ed. simpl. contradiction.
  - destruct (tasks_ s) as [| t rest] eqn:Et.
    + destruct (empty_ s) eqn:Ee; simpl; [contradiction |].
      destruct (listener_ s) as [l |]; simpl; [| contradiction].
      intros e [<- | []]. exists l. repeat split; auto.
    + destruct (maxConcurrentTasks_ s <=? currentRunningTasks_ s);
        [simpl; contradiction |].
      destruct (isBarrier t); [simpl; contradiction |].
      destruct (now <? executeTime t); [simpl; contradiction |].
      unfold nextTask_finish. rewrite Ed, Et. simpl. contradiction.
Qed.

Definition is_enqueue (o : Op) : bool :=
  match o with
  | OpEnqueue _ _ | OpEnqueueLocked _ _ => true
  | _ => false
  end.

Definition is_nextTask (o : Op) : bool :=
  match o with
  | OpNextTask _ _ => true
  | _ => false
  end.

Definition is_barrier_pass (o : Op) : bool :=
  match o with
  | OpBarrier _ _ | OpBarrierWake _ => true
  | _ => false
  end.

(** Every event of the trace, with the action and the state it comes
    from. *)
Lemma emitted_origin o sys e :
  In e (emitted o sys) ->
  (exists l, e = onQueueNonEmpty l /\ is_enqueue o = true /\
     listener_ (queue sys) = Some l /\
     empty_ (queue sys) = true /\ empty_ (queue (sys_step o sys)) = false) \/
  (exists l, e = onQueueEmpty l /\ is_nextTask o = true /\
     listener_ (queue sys) = Some l /\ tasks_ (queue sys) = [] /\
     empty_ (queue sys) = false /\ empty_ (queue (sys_step o sys)) = true) \/
  (exists t, e = invokeTask (id t) (function t) /\ is_nextTask o = true /\
     tasks_ (queue sys) = t :: tasks_ (queue (sys_step o sys))) \/
  (exists i f, e = invokeBarrier i f /\ is_barrier_pass o = true /\
     (In i (ids (queue sys)) \/ i = taskIdCounter_ (queue sys) + 1)).
Proof.
  destruct o.
  - (* OpEnqueue *)
    assert (emitted (OpEnqueue f t) sys
            = snd (fst (enqueue f t (queue sys)))) as ->.
    { apply emitted_eq. simpl.
      destruct (enqueue f t (queue sys)) as [[q evs] r]. reflexivity. }
    assert (queue (sys_step (OpEnqueue f t) sys)
            = fst (fst (enqueue f t (queue sys)))) as ->.
    { simpl. destruct (enqueue f t (queue sys)) as [[q evs] r]. reflexivity. }
    unfold enqueue. destruct (disposed_ (queue sys)); [simpl; contradiction |].
    destruct (enqueue_locked_events f t (queue sys)) as [-> He].
    destruct (empty_ (queue sys)) eqn:Ee; [| simpl; contradiction].
    destruct (listener_ (queue sys)) as [l |]; simpl; [| contradiction].
    intros [<- | []]. left. exists l. repeat split; auto.
  - (* OpEnqueueLocked *)
    assert (emitted (OpEnqueueLocked f t) sys
            = snd (fst (enqueue_locked f t (queue sys)))) as ->.
    { apply emitted_eq. simpl.
      destruct (enqueue_locked f t (queue sys)) as [[q evs] r]. reflexivity. }
    assert (queue (sys_step (OpEnqueueLocked f t) sys)
            = fst (fst (enqueue_locked f t (queue sys)))) as ->.
    { simpl. destruct (enqueue_locked f t (queue sys)) as [[q evs] r].
      reflexivity. }
    destruct (enqueue_locked_events f t (queue sys)) as [-> He].
    destruct (empty_ (queue sys)) eqn:Ee; [| simpl; contradiction].
    destruct (listener_ (queue sys)) as [l |]; simpl; [| contradiction].
    intros [<- | []]. left. exists l. repeat split; auto.
  - rewrite (emitted_eq _ _ []); [contradiction | reflexivity].
  - rewrite (emitted_eq _ _ []); [contradiction | reflexivity].
  - rewrite (emitted_eq _ _ []); [contradiction |].
    simpl. destruct (disposed_ (queue sys)); simpl; now rewrite ?app_nil_r.
  - rewrite (emitted_eq _ _ []); [contradiction | reflexivity].
  - rewrite (emitted_eq _ _ []); [contradiction | reflexivity].
  - (* OpBarrier *)
    rewrite (emitted_eq (OpBarrier f now) sys _
               (sys_barrier_begin_trace f now sys)).
    unfold sys_barrier_begin, barrier_insert, insertTask, sys_barrier_pass.
    simpl.
    match goal with
    | |- context [barrier_pass ?i ?s] => destruct (barrier_pass i s) as [q1 p]
    end.
    destruct p; simpl; try contradiction.
    intros [<- | []]. right. right. right. eexists _, _. eauto.
  - (* OpBarrierWake *)
    simpl. destruct (lookup_waiting i (waiting sys)) as [f |] eqn:El.
    + assert (emitted (OpBarrierWake i) sys
              = snd (fst (sys_barrier_pass i f sys))) as ->.
      { apply emitted_eq. simpl. rewrite El. apply sys_barrier_pass_trace. }
      unfold sys_barrier_pass, barrier_pass.
      destruct (tasks_ (queue sys)) as [| t rest] eqn:Et;
        [simpl; contradiction |].
      destruct (Z.eqb_spec (id t) i) as [Hi | Hi];
        [| rewrite orb_true_r; simpl; contradiction].
      destruct (negb (currentRunningTasks_ (queue sys) =? 0)); simpl;
        [contradiction |].
      intros [<- | []]. right. right. right. exists i, f.
      repeat split; auto. left. unfold ids. rewrite Et. simpl. auto.
    + rewrite (emitted_eq _ _ []); [contradiction |].
      simpl. rewrite El. now rewrite app_nil_r.
  - rewrite (emitted_eq _ _ []); [contradiction |].
    simpl. unfold sys_barrier_leave.
    destruct (is_entered i (entered sys)); simpl; now rewrite app_nil_r.
  - (* OpNextTask *)
    rewrite (emitted_eq (OpNextTask maxTime now) sys _
               (sys_nextTask_trace maxTime now sys)).
    simpl. rewrite sys_nextTask_queue. unfold sys_nextTask.
    pose proof (nextTask_block_events maxTime now (queue sys)) as Hev.
    destruct (nextTask_block maxTime now (queue sys)) as [[q1 evs] b] eqn:Eb.
    simpl in Hev.
    assert (forall e, In e evs ->
              exists l, e = onQueueEmpty l /\ is_nextTask
                (OpNextTask maxTime now) = true /\
                listener_ (queue sys) = Some l /\ tasks_ (queue sys) = [] /\
                empty_ (queue sys) = false /\ empty_ q1 = true) as Hev'.
    { intros e0 H0. destruct (Hev e0 H0) as (l & ? & ? & ? & ? & ? & ?).
      exists l. repeat split; auto. }
    destruct b as [[t |] | u m]; simpl.
    + apply nextTask_block_popped in Eb.
      destruct Eb as (-> & _ & Ht & _). simpl.
      intros [<- | []]. right. right. left. exists t. auto.
    + intros H. right. left. auto.
    + intros H. right. left. auto.
  - rewrite (emitted_eq _ _ []); [contradiction |].
    simpl. unfold sys_task_done.
    destruct (stepping sys); simpl; now rewrite app_nil_r.
Qed.

(** ** Cancellation *)

Lemma remove_first_absent i l :
  ~ In i (map id l) -> remove_first i l = (l, EmptyFunction).
Proof.
  induction l as [| t l IH]; simpl; intros H; [reflexivity |].
  destruct (Z.eqb_spec (id t) i) as [E | E]; [tauto |].
  rewrite IH; [reflexivity | tauto].
Qed.

Lemma remove_first_present i l :
  NoDup (map id l) -> In i (map id l) ->
  exists l1 t l2, l = l1 ++ t :: l2 /\ id t = i /\
    remove_first i l = (l1 ++ l2, function t) /\
    ~ In i (map id (l1 ++ l2)).
Proof.
  induction l as [| t l IH]; simpl; intros Hnd Hin; [contradiction |].
  inversion Hnd as [| ? ? Hn Hd]; subst.
  destruct (Z.eqb_spec (id t) i) as [E | E].
  - exists [], t, l. simpl. subst i. auto.
  - destruct Hin as [Hin | Hin]; [contradiction |].
    destruct (IH Hd Hin) as (l1 & t' & l2 & -> & Hid & Hr & Hnot).
    exists (t :: l1), t', l2. rewrite Hr. simpl.
    repeat split; auto. intros [H | H]; auto.
Qed.

Lemma with_tasks_same s : with_tasks (tasks_ s) s = s.
Proof. destruct s; reflexivity. Qed.

Lemma cancel_absent i s :
  ~ In i (ids s) -> cancel i s = (s, []).
Proof.
  intros H. unfold cancel, lockFreeRemoveTask.
  rewrite (remove_first_absent i (tasks_ s) H). simpl.
  now rewrite with_tasks_same.
Qed.

(** The id [i] has been handed out and is no longer in the sequence. *)
Definition gone (i : TaskId) (s : TaskQueue) : Prop :=
  i <= taskIdCounter_ s /\ ~ In i (ids s).

Lemma gone_grows i s s' : gone i s -> grows s s' -> gone i s'.
Proof.
  intros [Hc Hn] [Hc' Hin]. split; [lia |].
  intros H. destruct (Hin i H) as [H' | H']; [auto | lia].
Qed.

Lemma gone_never_invoked i later : forall sys evs,
  gone i (queue sys) ->
  trace (run later sys) = trace sys ++ evs ->
  forall f, ~ In (invokeTask i f) evs /\ ~ In (invokeBarrier i f) evs.
Proof.
  induction later as [| o later IH]; intros sys evs Hg Ht f.
  - simpl in Ht. rewrite <- (app_nil_r (trace sys)) in Ht at 1.
    apply app_inv_head in Ht. subst evs. simpl. tauto.
  - simpl in Ht.
    destruct (run_trace later (sys_step o sys)) as [evs2 H2].
    rewrite H2, sys_step_trace, <- app_assoc in Ht.
    apply app_inv_head in Ht. subst evs.
    assert (gone i (queue (sys_step o sys))) as Hg'.
    { eapply gone_grows; [exact Hg | apply sys_step_grows]. }
    destruct (IH (sys_step o sys) evs2 Hg' H2 f) as [N1 N2].
    destruct Hg as [Hc Hn].
    split; intros Hin; apply in_app_or in Hin;
      (destruct Hin as [Hin | Hin]; [| tauto]);
      apply emitted_origin in Hin;
      destruct Hin as [(l & E & _) | [(l & E & _) | [(t & E & _ & Ht)
                      | (j & g & E & _ & Hj)]]];
      try discriminate.
    + injection E as E1 E2. apply Hn. unfold ids. rewrite Ht. simpl. auto.
    + injection E as E1 E2. subst j. destruct Hj as [Hj | Hj]; [auto | lia].
Qed.

(** C4: in any state reached from a new queue, (a) cancelling an id that
    is pending erases exactly the entry with that id, after which no
    later action -- no step and no barrier pass -- ever invokes a
    callable under that id; (b) cancelling an id that is not in the
    sequence (never issued, already popped or already removed) leaves
    the whole queue unchanged and produces no event; (c) a second
    cancel of the same id changes nothing. *)
Theorem C4_cancel_erases_pending_else_noop :
  forall (ops : list Op) (i : TaskId),
    let sys := run ops System_new in
    let sys' := sys_step (OpCancel i) sys in
    (In i (ids (queue sys)) ->
       (exists l1 t l2,
          tasks_ (queue sys) = l1 ++ t :: l2 /\ id t = i /\
          tasks_ (queue sys') = l1 ++ l2) /\
       ~ In i (ids (queue sys')) /\
       forall later evs,
         trace (run later sys') = trace sys' ++ evs ->
         forall f, ~ In (invokeTask i f) evs /\ ~ In (invokeBarrier i f) evs) /\
    (~ In i (ids (queue sys)) ->
       queue sys' = queue sys /\ trace sys' = trace sys) /\
    emitted (OpCancel i) sys = [] /\
    queue (sys_step (OpCancel i) sys') = queue sys'.
Proof.
  intros ops i sys sys'.
  assert (queue_ok (queue sys)) as Hok by (apply run_ok, queue_ok_new).
  assert (~ In i (ids (queue sys)) ->
          queue sys' = queue sys /\ trace sys' = trace sys) as Habsent.
  { intros Hn. unfold sys'. simpl.
    pose proof (cancel_absent i (queue sys) Hn) as Hc.
    unfold cancel in Hc. injection Hc as Hc. rewrite Hc.
    split; [reflexivity | apply app_nil_r]. }
  assert (In i (ids (queue sys)) ->
          (exists l1 t l2,
             tasks_ (queue sys) = l1 ++ t :: l2 /\ id t = i /\
             tasks_ (queue sys') = l1 ++ l2) /\
          gone i (queue sys')) as Hpresent.
  { intros Hin.
    destruct (remove_first_present i (tasks_ (queue sys))
                (ok_nodup _ Hok) Hin) as (l1 & t & l2 & Hl & Hid & Hr & Hnot).
    assert (tasks_ (queue sys') = l1 ++ l2) as Ht.
    { unfold sys'. simpl. unfold lockFreeRemoveTask. rewrite Hr. reflexivity. }
    split; [exists l1, t, l2; auto |].
    split; [| unfold ids; rewrite Ht; exact Hnot].
    assert (taskIdCounter_ (queue sys') = taskIdCounter_ (queue sys)) as ->.
    { unfold sys'. simpl. unfold lockFreeRemoveTask.
      destruct (remove_first i (tasks_ (queue sys))). reflexivity. }
    pose proof (ok_ids _ Hok) as Hids. rewrite Forall_forall in Hids.
    apply in_map_iff in Hin. destruct Hin as (e & He & Hine).
    specialize (Hids e Hine). lia. }
  split; [| split; [exact Habsent | split]].
  - intros Hin. destruct (Hpresent Hin) as [He Hg].
    split; [exact He | split; [apply Hg |]].
    intros later evs Ht. now apply (gone_never_invoked i later sys').
  - apply emitted_eq. reflexivity.
  - destruct (in_dec Z.eq_dec i (ids (queue sys))) as [Hin | Hn].
    + destruct (Hpresent Hin) as [_ [_ Hg]].
      unfold sys_step at 1.
      pose proof (cancel_absent i (queue sys') Hg) as Hc.
      rewrite Hc. reflexivity.
    + destruct (Habsent Hn) as [Hq _].
      unfold sys_step at 1.
      assert (~ In i (ids (queue sys'))) as Hn' by (rewrite Hq; exact Hn).
      rewrite (cancel_absent i (queue sys') Hn'). reflexivity.
Qed.

Lemma C4_cancel_witness :
  let ops := [OpEnqueue (Callable 1) 5; OpEnqueue (Callable 2) 7] in
  let sys := run ops System_new in
  In 1 (ids (queue sys)) /\
  ~ In 1 (ids (queue (sys_step (OpCancel 1) sys))) /\
  ~ In 9 (ids (queue sys)) /\
  queue (sys_step (OpCancel 9) sys) = queue sys.
Proof.
  intros ops sys.
  assert (In 1 (ids (queue sys))) as H1 by (simpl; auto).
  assert (~ In 9 (ids (queue sys))) as H9.
  { simpl. intros [H | [H | []]]; discriminate. }
  split; [exact H1 | split; [| split; [exact H9 |]]].
  - apply (proj1 (C4_cancel_erases_pending_else_noop ops 1) H1).
  - apply (proj1 (proj2 (C4_cancel_erases_pending_else_noop ops 9)) H9).
Defined.

(** ** The concurrency ceiling *)

Definition within_ceiling (s : TaskQueue) : Prop :=
  currentRunningTasks_ s <= maxConcurrentTasks_ s.

(** Every [setMaxConcurrentTasks] of the sequence passes a ceiling of at
    least 1 that is not below the number of tasks running at that
    moment. *)
Fixpoint ceiling_kept (ops : list Op) (sys : System) : bool :=
  match ops with
  | [] => true
  | o :: rest =>
      match o with
      | OpSetMaxConcurrentTasks n =>
          (1 <=? size_wrap n) &&
          (currentRunningTasks_ (queue sys) <=? size_wrap n)
      | _ => true
      end && ceiling_kept rest (sys_step o sys)
  end.

(** The running count is the number of callers between their increment
    and their decrement, and it respects a ceiling of at least 1. *)
Record counted (sys : System) : Prop := mk_counted {
  cnt_running :
    currentRunningTasks_ (queue sys)
      = Z.of_nat (stepping sys) + Z.of_nat (length (entered sys));
  cnt_ceiling : within_ceiling (queue sys);
  cnt_max : 1 <= maxConcurrentTasks_ (queue sys) < 2 ^ 64
}.

Lemma size_wrap_small x : 0 <= x < 2 ^ 64 -> size_wrap x = x.
Proof. intros H. unfold size_wrap. now apply Z.mod_small. Qed.

Lemma size_wrap_range x : 0 <= size_wrap x < 2 ^ 64.
Proof. unfold size_wrap. apply Z.mod_pos_bound. lia. Qed.

Lemma barrier_pass_cases i s :
  (snd (barrier_pass i s) = BarrierEnter /\
   currentRunningTasks_ s = 0 /\
   (exists t rest, tasks_ s = t :: rest /\ id t = i) /\
   fst (barrier_pass i s) = with_running (size_wrap 1) s) \/
  (snd (barrier_pass i s) = BarrierWait /\ tasks_ s <> [] /\
   fst (barrier_pass i s) = s) \/
  (snd (barrier_pass i s) = BarrierReturn /\ tasks_ s = [] /\
   fst (barrier_pass i s) = s).
Proof.
  unfold barrier_pass. destruct (tasks_ s) as [| t rest] eqn:Et.
  - right. right. auto.
  - destruct (Z.eqb_spec (currentRunningTasks_ s) 0) as [Hr | Hr]; simpl.
    + destruct (Z.eqb_spec (id t) i) as [Hi | Hi]; simpl.
      * left. rewrite Hr. repeat split; auto. exists t, rest. auto.
      * right. left. repeat split; auto. discriminate.
    + right. left. repeat split; auto. discriminate.
Qed.

Lemma insertTask_load f t b s :
  currentRunningTasks_ (fst (insertTask f t b s)) = currentRunningTasks_ s /\
  maxConcurrentTasks_ (fst (insertTask f t b s)) = maxConcurrentTasks_ s.
Proof. split; reflexivity. Qed.

Lemma enqueue_locked_load f t s :
  currentRunningTasks_ (fst (fst (enqueue_locked f t s)))
    = currentRunningTasks_ s /\
  maxConcurrentTasks_ (fst (fst (enqueue_locked f t s)))
    = maxConcurrentTasks_ s.
Proof.
  unfold enqueue_locked, insertTask. simpl.
  destruct (empty_ s); split; reflexivity.
Qed.

Lemma enqueue_load f t s :
  currentRunningTasks_ (fst (fst (enqueue f t s))) = currentRunningTasks_ s /\
  maxConcurrentTasks_ (fst (fst (enqueue f t s))) = maxConcurrentTasks_ s.
Proof.
  unfold enqueue. destruct (disposed_ s); [split; reflexivity |].
  apply enqueue_locked_load.
Qed.

Lemma lockFreeRemoveTask_load i s :
  currentRunningTasks_ (fst (lockFreeRemoveTask i s))
    = currentRunningTasks_ s /\
  maxConcurrentTasks_ (fst (lockFreeRemoveTask i s)) = maxConcurrentTasks_ s.
Proof.
  unfold lockFreeRemoveTask. destruct (remove_first i (tasks_ s)).
  split; reflexivity.
Qed.

Lemma drop_entered_length i l :
  is_entered i l = true -> length l = S (length (drop_entered i l)).
Proof.
  induction l as [| j l IH]; simpl; [discriminate |].
  destruct (Z.eqb_spec i j) as [E | E]; simpl.
  - subst j. rewrite Z.eqb_refl. reflexivity.
  - intros H. destruct (Z.eqb_spec j i) as [E' | E']; [congruence |].
    simpl. now rewrite <- IH.
Qed.

Lemma counted_same_load sys sys' :
  currentRunningTasks_ (queue sys') = currentRunningTasks_ (queue sys) ->
  maxConcurrentTasks_ (queue sys') = maxConcurrentTasks_ (queue sys) ->
  stepping sys' = stepping sys -> entered sys' = entered sys ->
  counted sys -> counted sys'.
Proof.
  intros Hr Hm Hs He [C1 C2 C3]. unfold within_ceiling in *.
  constructor; unfold within_ceiling; rewrite ?Hr, ?Hm, ?Hs, ?He; assumption.
Qed.

Lemma sys_barrier_pass_counted i f sys :
  counted sys -> counted (fst (fst (sys_barrier_pass i f sys))).
Proof.
  intros H. pose proof H as [C1 C2 C3]. unfold within_ceiling in *.
  unfold sys_barrier_pass.
  destruct (barrier_pass_cases i (queue sys))
    as [(Hp & Hr & _ & Hq) | [(Hp & _ & Hq) | (Hp & _ & Hq)]];
    destruct (barrier_pass i (queue sys)) as [q1 p]; simpl in *; subst p q1.
  - constructor; unfold within_ceiling; simpl.
    + rewrite Hr in C1. rewrite size_wrap_small by lia. lia.
    + rewrite size_wrap_small by lia. lia.
    + exact C3.
  - now apply (counted_same_load sys).
  - now apply (counted_same_load sys).
Qed.

#[local] Ltac fields :=
  cbn [fst snd queue stepping entered waiting trace currentRunningTasks_
       maxConcurrentTasks_ tasks_ taskIdCounter_ disposed_ empty_ first_
       listener_ with_tasks with_running with_queue with_max
       runNextTask_done barrier_leave].

Lemma sys_step_counted o sys :
  ceiling_kept [o] sys = true -> counted sys -> counted (sys_step o sys).
Proof.
  intros Hk H. pose proof H as [C1 C2 C3]. unfold within_ceiling in *.
  destruct o; simpl.
  - destruct (enqueue_load f t (queue sys)) as [Hr Hm].
    destruct (enqueue f t (queue sys)) as [[q evs] r].
    now apply (counted_same_load sys).
  - destruct (enqueue_locked_load f t (queue sys)) as [Hr Hm].
    destruct (enqueue_locked f t (queue sys)) as [[q evs] r].
    now apply (counted_same_load sys).
  - destruct (lockFreeRemoveTask_load i (queue sys)) as [Hr Hm].
    now apply (counted_same_load sys).
  - now apply (counted_same_load sys).
  - destruct (disposed_ (queue sys)); [| exact H].
    now apply (counted_same_load sys).
  - simpl in Hk. rewrite andb_true_r in Hk.
    apply andb_true_iff in Hk. destruct Hk as [H1 H2].
    apply Z.leb_le in H1, H2. pose proof (size_wrap_range n) as Hw.
    unfold setMaxConcurrentTasks.
    destruct (maxConcurrentTasks_ (queue sys) =? size_wrap n);
      [now apply (counted_same_load sys) |].
    constructor; unfold within_ceiling; simpl; auto. lia.
  - now apply (counted_same_load sys).
  - unfold sys_barrier_begin, barrier_insert, insertTask.
    cbv beta iota zeta.
    match goal with
    | |- context [sys_barrier_pass ?i ?f ?s] =>
        pose proof (sys_barrier_pass_counted i f s) as Hp;
        destruct (sys_barrier_pass i f s) as [[sys1 evs] p]
    end.
    apply Hp. now apply (counted_same_load sys).
  - destruct (lookup_waiting i (waiting sys)); [| exact H].
    now apply sys_barrier_pass_counted.
  - unfold sys_barrier_leave.
    destruct (is_entered i (entered sys)) eqn:Ei; [| exact H].
    apply drop_entered_length in Ei.
    destruct (lockFreeRemoveTask_load i (queue sys)) as [Hr Hm].
    constructor; unfold within_ceiling; fields;
      rewrite ?Hr, ?Hm; try (rewrite size_wrap_small by lia);
      try lia; exact C3.
  - unfold sys_nextTask.
    destruct (nextTask_block maxTime now (queue sys)) as [[q1 evs] b] eqn:Eb.
    destruct b as [[t |] | u m].
    + apply nextTask_block_popped in Eb.
      destruct Eb as (_ & _ & _ & _ & _ & Hlt & ->).
      constructor; unfold within_ceiling; fields;
        try (rewrite size_wrap_small by lia); try lia; exact C3.
    + apply nextTask_block_refused in Eb. destruct Eb as (-> & _).
      now apply (counted_same_load sys).
    + apply nextTask_block_waits in Eb.
      destruct Eb as (_ & _ & _ & _ & Hr & Hm & _).
      now apply (counted_same_load sys).
  - unfold sys_task_done. destruct (stepping sys) as [| n] eqn:Es; [exact H |].
    constructor; unfold within_ceiling; fields;
      try (rewrite size_wrap_small by lia); try lia; exact C3.
Qed.

Lemma run_counted ops : forall sys,
  ceiling_kept ops sys = true -> counted sys -> counted (run ops sys).
Proof.
  induction ops as [| o ops IH]; intros sys Hk H; [exact H |].
  simpl. simpl in Hk. apply andb_true_iff in Hk. destruct Hk as [H1 H2].
  apply IH; [exact H2 |].
  apply sys_step_counted; [| exact H].
  simpl. rewrite H1. reflexivity.
Qed.

Lemma counted_new : counted System_new.
Proof. constructor; unfold within_ceiling; simpl; lia. Qed.

(** C3, as the code has it: the running count stays at or below the
    ceiling in every state reached by actions in which each call of
    [setMaxConcurrentTasks] passes a value that is at least 1 and at
    least the number of tasks running when it is called.  (The setter
    itself makes no such check.) *)
Theorem C3_running_within_ceiling_when_not_lowered :
  forall (ops : list Op),
    ceiling_kept ops System_new = true ->
    within_ceiling (queue (run ops System_new)).
Proof.
  intros ops Hk. apply cnt_ceiling. apply run_counted; [exact Hk |].
  apply counted_new.
Qed.

Lemma C3_running_within_ceiling_witness :
  let ops := [OpSetMaxConcurrentTasks 2; OpEnqueue (Callable 1) 0;
              OpEnqueue (Callable 2) 0; OpNextTask 0 0; OpNextTask 0 0;
              OpTaskDone; OpBarrier (Callable 3) 0] in
  ceiling_kept ops System_new = true /\
  within_ceiling (queue (run ops System_new)).
Proof.
  split; [reflexivity |].
  apply C3_running_within_ceiling_when_not_lowered. reflexivity.
Defined.

(** Without that proviso the bound of C3 breaks: with two tasks running
    under a ceiling of 2, [setMaxConcurrentTasks(1)] lowers the ceiling
    below the running count. *)
Lemma C3_ceiling_lowered_below_running :
  let ops := [OpSetMaxConcurrentTasks 2; OpEnqueue (Callable 1) 0;
              OpEnqueue (Callable 2) 0; OpNextTask 0 0; OpNextTask 0 0;
              OpSetMaxConcurrentTasks 1] in
  currentRunningTasks_ (queue (run ops System_new)) = 2 /\
  maxConcurrentTasks_ (queue (run ops System_new)) = 1 /\
  ~ within_ceiling (queue (run ops System_new)).
Proof.
  split; [reflexivity | split; [reflexivity |]].
  unfold within_ceiling. vm_compute. intros H. apply H. reflexivity.
Qed.

(** ** Listener callbacks *)

(** Reading a trace for its callbacks: [alternate b tr] is [None] when
    two callbacks of the same kind follow one another (or the first is
    of the wrong kind), and otherwise says which kind must come next:
    [true] for [onQueueNonEmpty], [false] for [onQueueEmpty]. *)
Fixpoint alternate (expectNonEmpty : bool) (tr : list Event) : option bool :=
  match tr with
  | [] => Some expectNonEmpty
  | onQueueNonEmpty _ :: tr' =>
      if expectNonEmpty then alternate false tr' else None
  | onQueueEmpty _ :: tr' =>
      if expectNonEmpty then None else alternate true tr'
  | _ :: tr' => alternate expectNonEmpty tr'
  end.

(** The callbacks of a trace strictly alternate, starting with
    [onQueueNonEmpty]. *)
Definition callbacks_alternate (tr : list Event) : Prop :=
  alternate true tr <> None.

Fixpoint no_setListener (ops : list Op) : bool :=
  match ops with
  | [] => true
  | OpSetListener _ :: _ => false
  | _ :: rest => no_setListener rest
  end.

(** No [setListener(nullptr)] among the actions. *)
Fixpoint listener_kept (ops : list Op) : bool :=
  match ops with
  | [] => true
  | OpSetListener None :: _ => false
  | _ :: rest => listener_kept rest
  end.

(** No submission among the actions. *)
Fixpoint no_enqueue (ops : list Op) : bool :=
  match ops with
  | [] => true
  | (OpEnqueue _ _ | OpEnqueueLocked _ _) :: _ => false
  | _ :: rest => no_enqueue rest
  end.

Lemma alternate_app tr1 : forall b tr2,
  alternate b (tr1 ++ tr2)
    = match alternate b tr1 with
      | Some b' => alternate b' tr2
      | None => None
      end.
Proof.
  induction tr1 as [| e tr1 IH]; intros b tr2; simpl; [reflexivity |].
  destruct e; destruct b; auto.
Qed.

#[local] Ltac split_matches :=
  repeat match goal with
    | |- context [match ?x with _ => _ end] => destruct x eqn:?
    | |- context [if ?x then _ else _] => destruct x eqn:?
    end.

Lemma sys_barrier_pass_quiet i f sys :
  listener_ (queue (fst (fst (sys_barrier_pass i f sys))))
    = listener_ (queue sys) /\
  empty_ (queue (fst (fst (sys_barrier_pass i f sys))))
    = empty_ (queue sys) /\
  exists evs,
    trace (fst (fst (sys_barrier_pass i f sys))) = trace sys ++ evs /\
    forall b, alternate b evs = Some b.
Proof.
  unfold sys_barrier_pass.
  destruct (barrier_pass_cases i (queue sys))
    as [(Hp & _ & _ & Hq) | [(Hp & _ & Hq) | (Hp & _ & Hq)]];
    destruct (barrier_pass i (queue sys)) as [q1 p]; simpl in *; subst p q1;
    simpl; repeat split; auto.
  - eexists. split; [reflexivity | reflexivity].
  - exists []. now rewrite app_nil_r.
  - exists []. now rewrite app_nil_r.
Qed.

(** With a listener registered, an action (other than [setListener])
    makes a callback exactly when it flips [empty_], and of the kind
    that matches the flip. *)
Lemma sys_step_alternate o sys l :
  listener_ (queue sys) = Some l ->
  no_setListener [o] = true ->
  listener_ (queue (sys_step o sys)) = Some l /\
  exists evs, trace (sys_step o sys) = trace sys ++ evs /\
    alternate (empty_ (queue sys)) evs
      = Some (empty_ (queue (sys_step o sys))).
Proof.
  intros Hl Hn.
  destruct o; try discriminate; simpl.
  - unfold enqueue, enqueue_locked, insertTask; simpl.
    destruct (disposed_ (queue sys)); simpl.
    + split; [exact Hl | exists []; now rewrite app_nil_r].
    + destruct (empty_ (queue sys)) eqn:Ee; simpl.
      * split; [exact Hl |]. rewrite Hl. simpl. eexists. split; reflexivity.
      * split; [exact Hl |]. exists []. rewrite Ee. auto.
  - unfold enqueue_locked, insertTask; simpl.
    destruct (empty_ (queue sys)) eqn:Ee; simpl.
    + split; [exact Hl |]. rewrite Hl. simpl. eexists. split; reflexivity.
    + split; [exact Hl |]. exists []. rewrite Ee. auto.
  - unfold lockFreeRemoveTask.
    destruct (remove_first i (tasks_ (queue sys))). simpl.
    split; [exact Hl | exists []; auto].
  - split; [exact Hl | exists []; auto].
  - destruct (disposed_ (queue sys)); simpl;
      (split; [exact Hl | exists []; now rewrite ?app_nil_r]).
  - unfold setMaxConcurrentTasks.
    destruct (maxConcurrentTasks_ (queue sys) =? size_wrap n); simpl;
      (split; [exact Hl | exists []; auto]).
  - unfold sys_barrier_begin, barrier_insert, insertTask.
    cbv beta iota zeta.
    match goal with
    | |- context [sys_barrier_pass ?i ?f ?s] =>
        destruct (sys_barrier_pass_quiet i f s) as (H1 & H2 & evs & H3 & H4);
        destruct (sys_barrier_pass i f s) as [[sys1 evs1] p]
    end.
    simpl in *. rewrite app_nil_r in H3.
    split; [congruence |]. exists evs. rewrite H2. auto.
  - destruct (lookup_waiting i (waiting sys)) as [f |].
    + destruct (sys_barrier_pass_quiet i f sys) as (H1 & H2 & evs & H3 & H4).
      split; [congruence |]. exists evs. rewrite H2. auto.
    + split; [exact Hl | exists []; now rewrite app_nil_r].
  - unfold sys_barrier_leave, barrier_leave, lockFreeRemoveTask.
    split_matches; simpl; (split; [exact Hl |]);
      exists []; now rewrite app_nil_r.
  - unfold sys_nextTask, nextTask_block, nextTask_pass, nextTask_finish.
    destruct (disposed_ (queue sys)) eqn:Ed; simpl.
    + rewrite Ed. simpl. split; [exact Hl | exists []; auto].
    + destruct (tasks_ (queue sys)) as [| t rest] eqn:Et.
      * destruct (empty_ (queue sys)) eqn:Ee; simpl.
        -- split; [exact Hl | exists []; rewrite Ee; auto].
        -- rewrite Hl. simpl. split; [reflexivity |].
           eexists. split; reflexivity.
      * destruct (maxConcurrentTasks_ (queue sys)
                  <=? currentRunningTasks_ (queue sys)); simpl;
          [split; [exact Hl | exists []; auto] |].
        destruct (isBarrier t); simpl;
          [split; [exact Hl | exists []; auto] |].
        destruct (now <? executeTime t); simpl;
          [split; [exact Hl | exists []; auto] |].
        rewrite Ed, Et. simpl. split; [exact Hl |].
        eexists. split; reflexivity.
  - unfold sys_task_done. destruct (stepping sys); simpl;
      (split; [exact Hl | exists []; now rewrite app_nil_r]).
Qed.

(** The same with [setListener] allowed, as long as it installs a
    listener: the callbacks go to whichever listener is registered. *)
Lemma sys_step_alternate_kept o sys :
  listener_ (queue sys) <> None ->
  listener_kept [o] = true ->
  listener_ (queue (sys_step o sys)) <> None /\
  exists evs, trace (sys_step o sys) = trace sys ++ evs /\
    alternate (empty_ (queue sys)) evs
      = Some (empty_ (queue (sys_step o sys))).
Proof.
  intros Hl Hk.
  destruct (listener_ (queue sys)) as [l |] eqn:El; [| contradiction].
  destruct o as [| | | | | | [l' |] | | | | |];
    try (match goal with
         | |- context [sys_step ?o _] =>
             destruct (sys_step_alternate o sys l El eq_refl)
               as (Hl' & evs & Ht & He)
         end;
         split; [congruence | exists evs; auto]).
  - simpl. split; [discriminate |]. exists []. now rewrite app_nil_r.
  - discriminate.
Qed.

Lemma listener_kept_cons o rest :
  listener_kept (o :: rest) = true ->
  listener_kept [o] = true /\ listener_kept rest = true.
Proof. destruct o as [| | | | | | [l |] | | | | |]; simpl; auto; discriminate. Qed.

Lemma run_alternate ops : forall sys,
  listener_ (queue sys) <> None ->
  listener_kept ops = true ->
  exists evs, trace (run ops sys) = trace sys ++ evs /\
    alternate (empty_ (queue sys)) evs = Some (empty_ (queue (run ops sys))).
Proof.
  induction ops as [| o ops IH]; intros sys Hl Hk.
  - exists []. now rewrite app_nil_r.
  - apply listener_kept_cons in Hk. destruct Hk as [Ho Hrest].
    destruct (sys_step_alternate_kept o sys Hl Ho) as (Hl' & evs & Ht & He).
    destruct (IH _ Hl' Hrest) as (evs' & Ht' & He').
    exists (evs ++ evs'). simpl. rewrite Ht', Ht, app_assoc.
    split; [reflexivity |]. now rewrite alternate_app, He.
Qed.

(** Before the first submission [empty_] stays set and no callback is
    made, whatever else the threads do. *)
Lemma sys_step_unsubmitted o sys :
  empty_ (queue sys) = true ->
  no_enqueue [o] = true ->
  empty_ (queue (sys_step o sys)) = true /\
  exists evs, trace (sys_step o sys) = trace sys ++ evs /\
    forall b, alternate b evs = Some b.
Proof.
  intros He Hn.
  destruct o; try discriminate; simpl.
  - unfold lockFreeRemoveTask.
    destruct (remove_first i (tasks_ (queue sys))). simpl.
    split; [exact He | exists []; auto].
  - split; [exact He | exists []; auto].
  - destruct (disposed_ (queue sys)); simpl;
      (split; [exact He | exists []; now rewrite ?app_nil_r]).
  - unfold setMaxConcurrentTasks.
    destruct (maxConcurrentTasks_ (queue sys) =? size_wrap n); simpl;
      (split; [exact He | exists []; auto]).
  - split; [exact He | exists []; auto].
  - unfold sys_barrier_begin, barrier_insert, insertTask.
    cbv beta iota zeta.
    match goal with
    | |- context [sys_barrier_pass ?i ?f ?s] =>
        destruct (sys_barrier_pass_quiet i f s) as (H1 & H2 & evs & H3 & H4);
        destruct (sys_barrier_pass i f s) as [[sys1 evs1] p]
    end.
    simpl in *. rewrite app_nil_r in H3.
    split; [congruence |]. exists evs. auto.
  - destruct (lookup_waiting i (waiting sys)) as [f |].
    + destruct (sys_barrier_pass_quiet i f sys) as (H1 & H2 & evs & H3 & H4).
      split; [congruence |]. exists evs. auto.
    + split; [exact He | exists []; now rewrite app_nil_r].
  - unfold sys_barrier_leave, barrier_leave, lockFreeRemoveTask.
    split_matches; simpl; (split; [exact He |]);
      exists []; now rewrite app_nil_r.
  - unfold sys_nextTask, nextTask_block, nextTask_pass, nextTask_finish.
    destruct (disposed_ (queue sys)) eqn:Ed; simpl.
    + rewrite Ed. simpl. split; [exact He | exists []; auto].
    + destruct (tasks_ (queue sys)) as [| t rest] eqn:Et.
      * rewrite He. simpl. split; [exact He | exists []; auto].
      * destruct (maxConcurrentTasks_ (queue sys)
                  <=? currentRunningTasks_ (queue sys)); simpl;
          [split; [exact He | exists []; auto] |].
        destruct (isBarrier t); simpl;
          [split; [exact He | exists []; auto] |].
        destruct (now <? executeTime t); simpl;
          [split; [exact He | exists []; auto] |].
        rewrite Ed, Et. simpl. split; [exact He |].
        eexists. split; [reflexivity | reflexivity].
  - unfold sys_task_done. destruct (stepping sys); simpl;
      (split; [exact He | exists []; now rewrite app_nil_r]).
Qed.

Lemma run_unsubmitted ops : forall sys,
  empty_ (queue sys) = true ->
  no_enqueue ops = true ->
  empty_ (queue (run ops sys)) = true /\
  exists evs, trace (run ops sys) = trace sys ++ evs /\
    forall b, alternate b evs = Some b.
Proof.
  induction ops as [| o ops IH]; intros sys He Hn.
  - split; [exact He |]. exists []. now rewrite app_nil_r.
  - assert (no_enqueue [o] = true /\ no_enqueue ops = true) as [Ho Hrest]
      by (destruct o; simpl in *; auto; discriminate).
    destruct (sys_step_unsubmitted o sys He Ho) as (He1 & evs & Ht & Ha).
    destruct (IH _ He1 Hrest) as (He2 & evs' & Ht' & Ha').
    split; [exact He2 |]. exists (evs ++ evs'). simpl.
    rewrite Ht', Ht, app_assoc. split; [reflexivity |].
    intros b. now rewrite alternate_app, Ha.
Qed.

(** C6, as the code has it: [empty_] flips whether or not a listener is
    registered, and a flip is reported only to the listener registered
    at that moment.  For a listener registered while [empty_] is set,
    and with no [setListener(nullptr)] afterwards, the callbacks made
    from then on strictly alternate, starting with [onQueueNonEmpty];
    [empty_] is set as long as nothing has been submitted, so for a
    listener registered before the first submission all callbacks of
    the queue alternate.  In any state, [onQueueNonEmpty] comes only
    from the enqueue path, when [empty_] was set, and clears it;
    [onQueueEmpty] comes only from the step path ([nextTask]), when the
    sequence is empty and [empty_] was clear, and sets it; [cancel]
    produces no callback, whatever it removes. *)
Theorem C6_callbacks_alternate_for_a_kept_listener :
  (forall (l : nat) (ops0 ops : list Op),
     empty_ (queue (run ops0 System_new)) = true ->
     listener_kept ops = true ->
     exists evs,
       trace (run (ops0 ++ OpSetListener (Some l) :: ops) System_new)
         = trace (run ops0 System_new) ++ evs /\
       callbacks_alternate evs) /\
  (forall (l : nat) (ops0 ops : list Op),
     no_enqueue ops0 = true ->
     listener_kept ops = true ->
     empty_ (queue (run ops0 System_new)) = true /\
     callbacks_alternate
       (trace (run (ops0 ++ OpSetListener (Some l) :: ops) System_new))) /\
  (forall o sys l,
     In (onQueueNonEmpty l) (emitted o sys) ->
     is_enqueue o = true /\ empty_ (queue sys) = true /\
     empty_ (queue (sys_step o sys)) = false) /\
  (forall o sys l,
     In (onQueueEmpty l) (emitted o sys) ->
     is_nextTask o = true /\ tasks_ (queue sys) = [] /\
     empty_ (queue sys) = false /\
     empty_ (queue (sys_step o sys)) = true) /\
  (forall i sys,
     emitted (OpCancel i) sys = [] /\
     empty_ (queue (sys_step (OpCancel i) sys)) = empty_ (queue sys)).
Proof.
  assert (forall (l : nat) (ops0 ops : list Op),
            empty_ (queue (run ops0 System_new)) = true ->
            listener_kept ops = true ->
            exists evs,
              trace (run (ops0 ++ OpSetListener (Some l) :: ops) System_new)
                = trace (run ops0 System_new) ++ evs /\
              alternate true evs <> None) as Hfrom.
  { intros l ops0 ops He Hk. rewrite run_app.
    change (run (OpSetListener (Some l) :: ops) (run ops0 System_new))
      with (run ops (sys_step (OpSetListener (Some l)) (run ops0 System_new))).
    destruct (run_alternate ops
                (sys_step (OpSetListener (Some l)) (run ops0 System_new)))
      as (evs & Ht & Ha); [discriminate | exact Hk |].
    exists evs. split.
    - rewrite Ht. simpl. now rewrite app_nil_r.
    - simpl in Ha. rewrite He in Ha. rewrite Ha. discriminate. }
  split; [| split; [| split; [| split]]].
  - exact Hfrom.
  - intros l ops0 ops Hn Hk.
    destruct (run_unsubmitted ops0 System_new eq_refl Hn)
      as (He & evs0 & Ht0 & Ha0).
    split; [exact He |].
    destruct (Hfrom l ops0 ops He Hk) as (evs & Ht & Ha).
    unfold callbacks_alternate. rewrite Ht, Ht0. simpl.
    now rewrite alternate_app, Ha0.
  - intros o sys l Hin. apply emitted_origin in Hin.
    destruct Hin as [(l' & E & H1 & H2 & H3 & H4) | [(l' & E & _)
                    | [(t & E & _) | (j & g & E & _)]]];
      try discriminate.
    auto.
  - intros o sys l Hin. apply emitted_origin in Hin.
    destruct Hin as [(l' & E & _) | [(l' & E & H1 & H2 & H3 & H4 & H5)
                    | [(t & E & _) | (j & g & E & _)]]];
      try discriminate.
    auto.
  - intros i sys. split; [apply emitted_eq; reflexivity |].
    simpl. unfold lockFreeRemoveTask.
    destruct (remove_first i (tasks_ (queue sys))). reflexivity.
Qed.

Lemma C6_callbacks_alternate_witness :
  let ops0 := [OpSetMaxConcurrentTasks 4; OpNextTask 0 0; OpBarrier (Callable 5) 0;
               OpBarrierLeave 1] in
  let ops := [OpEnqueue (Callable 1) 0; OpNextTask 0 0; OpTaskDone;
              OpNextTask 0 0; OpSetListener (Some 8%nat);
              OpEnqueue (Callable 2) 0; OpCancel 3;
              OpNextTask 0 0; OpEnqueue (Callable 3) 0] in
  no_enqueue ops0 = true /\ listener_kept ops = true /\
  callbacks_alternate
    (trace (run (ops0 ++ OpSetListener (Some 7%nat) :: ops) System_new)) /\
  exists evs,
    trace (run (ops0 ++ OpSetListener (Some 7%nat) :: ops) System_new)
      = trace (run ops0 System_new) ++ evs /\
    callbacks_alternate evs.
Proof.
  intros ops0 ops.
  split; [reflexivity | split; [reflexivity | split]].
  - apply (proj1 (proj2 C6_callbacks_alternate_for_a_kept_listener)
             7%nat ops0 ops); reflexivity.
  - apply (proj1 C6_callbacks_alternate_for_a_kept_listener 7%nat ops0 ops);
      reflexivity.
Defined.

(** Without that proviso the alternation of C6 breaks: a listener
    registered after the first submission receives [onQueueEmpty] as its
    first callback. *)
Lemma C6_first_callback_can_be_onQueueEmpty :
  let ops := [OpEnqueue (Callable 1) 0; OpSetListener (Some 7%nat);
              OpNextTask 0 0; OpTaskDone; OpNextTask 0 0] in
  trace (run ops System_new)
    = [invokeTask 1 (Callable 1); onQueueEmpty 7] /\
  ~ callbacks_alternate (trace (run ops System_new)).
Proof.
  split; [reflexivity |].
  unfold callbacks_alternate. intros H. apply H. reflexivity.
Qed.

(** ** runNextTask *)

Lemma nextTask_eq maxTime sched now sys :
  nextTask maxTime sched now sys =
  let '(sys1, evs, b) := call_nextTask maxTime now sys in
  match b with
  | BlockReturn t => Some (sys1, evs, t)
  | BlockWait until untilIsMax =>
      match sched with
      | [] => None
      | w :: sched' =>
          let sys2 := run (others w) sys1 in
          if untilIsMax && is_timeout (wait_until until (woke_at w))
          then
            let '(q, t) := nextTask_finish false (queue sys2) in
            Some (set_queue q sys2, evs, t)
          else
            match nextTask maxTime sched' (now_after w) sys2 with
            | Some (sys3, evs', t) => Some (sys3, evs ++ evs', t)
            | None => None
            end
      end
  end.
Proof. destruct sched; reflexivity. Qed.

Lemma nextTask_finish_false s : nextTask_finish false s = (s, None).
Proof. unfold nextTask_finish. now rewrite orb_true_r. Qed.

(** The head seen by a successful evaluation of the loop. *)
Definition ran_head (t : Task) (now0 : time_point) (s0 : TaskQueue) : Prop :=
  disposed_ s0 = false /\
  (exists rest, tasks_ s0 = t :: rest) /\
  isBarrier t = false /\
  executeTime t <= now0 /\
  currentRunningTasks_ s0 < maxConcurrentTasks_ s0.

Lemma call_nextTask_cases maxTime now sys :
  match snd (call_nextTask maxTime now sys) with
  | BlockReturn (Some t) =>
      snd (fst (call_nextTask maxTime now sys))
        = [invokeTask (id t) (function t)] /\
      ran_head t now (queue sys) /\
      tasks_ (queue sys)
        = t :: tasks_ (queue (fst (fst (call_nextTask maxTime now sys))))
  | BlockReturn None =>
      snd (fst (call_nextTask maxTime now sys)) = [] /\
      disposed_ (queue sys) = true /\
      queue (fst (fst (call_nextTask maxTime now sys))) = queue sys
  | BlockWait u m =>
      (forall e, In e (snd (fst (call_nextTask maxTime now sys))) ->
         is_invoke e = false) /\
      disposed_ (queue sys) = false /\
      tasks_ (queue (fst (fst (call_nextTask maxTime now sys))))
        = tasks_ (queue sys)
  end.
Proof.
  unfold call_nextTask.
  destruct (nextTask_block maxTime now (queue sys)) as [[q1 evs] b] eqn:Eb.
  destruct b as [[t |] | u m]; simpl.
  - apply nextTask_block_popped in Eb.
    destruct Eb as (-> & Hd & Ht & Hb & Hr & Hc & Hq).
    repeat split; auto. exists (tasks_ q1). exact Ht.
  - apply nextTask_block_refused in Eb. destruct Eb as (-> & -> & Hd). auto.
  - apply nextTask_block_waits in Eb.
    destruct Eb as (Ht & _ & _ & Hd & _ & _ & _ & He). auto.
Qed.

Lemma filter_invoke_none (evs : list Event) :
  (forall e, In e evs -> is_invoke e = false) -> filter is_invoke evs = [].
Proof.
  induction evs as [| e evs IH]; simpl; intros H; [reflexivity |].
  rewrite (H e (or_introl eq_refl)). apply IH. auto.
Qed.

Lemma nextTask_result sched : forall maxTime now sys sys' evs r,
  nextTask maxTime sched now sys = Some (sys', evs, r) ->
  match r with
  | Some t =>
      filter is_invoke evs = [invokeTask (id t) (function t)] /\
      exists sys0 now0,
        ran_head t now0 (queue sys0) /\
        tasks_ (queue sys0) = t :: tasks_ (queue sys')
  | None => filter is_invoke evs = []
  end.
Proof.
  induction sched as [| w sched IH]; intros maxTime now sys sys' evs r H;
    rewrite nextTask_eq in H;
    pose proof (call_nextTask_cases maxTime now sys) as Hc;
    destruct (call_nextTask maxTime now sys) as [[sys1 evs1] b];
    simpl in Hc; destruct b as [[t |] | u m].
  - injection H as <- <- <-. destruct Hc as (-> & Hh & Ht).
    split; [reflexivity |]. exists sys, now. auto.
  - injection H as <- <- <-. destruct Hc as (-> & _). reflexivity.
  - discriminate.
  - injection H as <- <- <-. destruct Hc as (-> & Hh & Ht).
    split; [reflexivity |]. exists sys, now. auto.
  - injection H as <- <- <-. destruct Hc as (-> & _). reflexivity.
  - destruct Hc as (Hev & _ & _).
    cbv zeta in H.
    destruct (m && is_timeout (wait_until u (woke_at w))).
    + rewrite nextTask_finish_false in H. injection H as <- <- <-.
      now apply filter_invoke_none.
    + destruct (nextTask maxTime sched (now_after w) (run (others w) sys1))
        as [[[sys3 evs3] t3] |] eqn:En; [| discriminate].
      injection H as <- <- <-.
      specialize (IH _ _ _ _ _ _ En).
      rewrite filter_app, (filter_invoke_none evs1 Hev). simpl.
      exact IH.
Qed.









(** ** barrier and disposal *)

Lemma barrier_wait_eq i f wake_ops during_ops sys evs p :
  barrier_wait i f wake_ops during_ops (sys, evs, p) =
  match p with
  | BarrierReturn => Some (sys, evs, Normal tt)
  | BarrierEnter =>
      let sys1 := run during_ops sys in
      match invoke f with
      | Normal _ =>
          Some (set_queue (barrier_leave i (queue sys1)) sys1, evs, Normal tt)
      | Exceptional e => Some (sys1, evs, Exceptional e)
      end
  | BarrierWait =>
      match wake_ops with
      | [] => None
      | ops :: rest =>
          barrier_wait i f rest during_ops
            (call_barrier_pass i f (run ops sys))
      end
  end.
Proof. destruct wake_ops; reflexivity. Qed.

(** None of the blocks of [barrier] reads [disposed_]. *)
Lemma barrier_ignores_disposed (b : bool) (i : TaskId) (now : time_point)
    (s : TaskQueue) :
  barrier_insert now (with_disposed b s)
    = (with_disposed b (fst (barrier_insert now s)),
       snd (barrier_insert now s)) /\
  barrier_pass i (with_disposed b s)
    = (with_disposed b (fst (barrier_pass i s)), snd (barrier_pass i s)) /\
  barrier_leave i (with_disposed b s) = with_disposed b (barrier_leave i s).
Proof.
  split; [reflexivity | split].
  - unfold barrier_pass. simpl. destruct (tasks_ s) as [| t rest];
      [reflexivity |].
    destruct (negb (currentRunningTasks_ s =? 0) || negb (id t =? i));
      reflexivity.
  - unfold barrier_leave, lockFreeRemoveTask. simpl.
    destruct (remove_first i (tasks_ s)). reflexivity.
Qed.

Lemma barrier_pass_ready i s t rest :
  tasks_ s = t :: rest -> id t = i -> currentRunningTasks_ s = 0 ->
  barrier_pass i s = (with_running (size_wrap 1) s, BarrierEnter).
Proof.
  intros Ht Hi Hr. unfold barrier_pass. rewrite Ht, Hi, Hr, !Z.eqb_refl.
  reflexivity.
Qed.

Lemma call_barrier_pass_waits i f sys :
  snd (barrier_pass i (queue sys)) = BarrierWait ->
  call_barrier_pass i f sys = (set_queue (queue sys) sys, [], BarrierWait).
Proof.
  intros H. unfold call_barrier_pass.
  destruct (barrier_pass_cases i (queue sys))
    as [(Hp & _) | [(_ & _ & Hq) | (Hp & _)]]; try congruence.
  destruct (barrier_pass i (queue sys)) as [q1 p]. simpl in *.
  subst. reflexivity.
Qed.

Lemma call_barrier_pass_empty i f sys :
  tasks_ (queue sys) = [] ->
  call_barrier_pass i f sys = (set_queue (queue sys) sys, [], BarrierReturn).
Proof.
  intros H. unfold call_barrier_pass, barrier_pass. now rewrite H.
Qed.

Lemma dispose_ops_clear before sys :
  let sys' := run (before ++ [OpDisposeMark; OpDisposeSwap]) sys in
  disposed_ (queue sys') = true /\ tasks_ (queue sys') = [].
Proof.
  rewrite run_app. simpl. split; reflexivity.
Qed.

(** C7, as the code has it: [barrier] never reads the disposed flag, so
    a caller whose barrier task is at the head with no task running
    enters and runs its callable whether or not the flag is set; but
    [dispose] also empties the task sequence, and a caller that was
    waiting when [dispose] ran finds the sequence empty when it wakes,
    leaves the loop and returns without running the callable. *)
Theorem C7_waiting_barrier_is_dropped_by_dispose :
  forall (f : DispatchFunction) (now : time_point) (sys : System)
         (before : list Op) (rest : list (list Op)) (during_ops : list Op),
    let i := taskIdCounter_ (queue sys) + 1 in
    (snd (barrier_pass i (fst (barrier_insert now (queue sys)))) = BarrierWait ->
     exists sys',
       barrier f now ((before ++ [OpDisposeMark; OpDisposeSwap]) :: rest)
         during_ops sys = Some (sys', [], Normal tt) /\
       disposed_ (queue sys') = true /\ tasks_ (queue sys') = []) /\
    (forall (b : bool) (j : TaskId) (s : TaskQueue),
       barrier_pass j (with_disposed b s)
         = (with_disposed b (fst (barrier_pass j s)),
            snd (barrier_pass j s))) /\
    (forall (j : TaskId) (s : TaskQueue) t more,
       disposed_ s = true -> tasks_ s = t :: more -> id t = j ->
       currentRunningTasks_ s = 0 ->
       snd (barrier_pass j s) = BarrierEnter).
Proof.
  intros f now sys before rest during_ops i. split; [| split].
  - intros Hw. unfold barrier.
    destruct (barrier_insert now (queue sys)) as [q1 i'] eqn:Ei.
    assert (i' = i) as -> by (now injection Ei).
    simpl in Hw.
    rewrite (call_barrier_pass_waits i f (set_queue q1 sys) Hw).
    rewrite barrier_wait_eq.
    set (sys1 := set_queue _ _).
    destruct (dispose_ops_clear before sys1) as [Hd Ht].
    rewrite (call_barrier_pass_empty i f _ Ht).
    rewrite barrier_wait_eq.
    eexists. split; [reflexivity |]. simpl. auto.
  - intros b j s. apply (barrier_ignores_disposed b j 0 s).
  - intros j s t more _ Ht Hi Hr.
    now rewrite (barrier_pass_ready j s t more Ht Hi Hr).
Qed.

Lemma C7_waiting_barrier_witness :
  let sys := run [OpEnqueue (Callable 1) 0; OpNextTask 0 0] System_new in
  snd (barrier_pass 2 (fst (barrier_insert 5 (queue sys)))) = BarrierWait /\
  exists sys',
    barrier (Callable 9) 5 [[OpTaskDone] ++ [OpDisposeMark; OpDisposeSwap]]
      [] sys = Some (sys', [], Normal tt) /\
    disposed_ (queue sys') = true /\ tasks_ (queue sys') = [].
Proof.
  intros sys. split; [reflexivity |].
  apply (proj1 (C7_waiting_barrier_is_dropped_by_dispose (Callable 9) 5 sys
                  [OpTaskDone] [] [])).
  reflexivity.
Defined.

(** Against C7's "the waiter still executes the callable": a task is
    running, a thread calls [barrier] and waits; [dispose] runs and the
    task finishes; the waiter wakes with no task running, and returns
    without invoking its callable. *)
Lemma C7_barrier_callable_not_run_after_dispose :
  let sys := run [OpEnqueue (Callable 1) 0; OpNextTask 0 0] System_new in
  exists sys',
    barrier (Callable 9) 5 [[OpDisposeMark; OpDisposeSwap; OpTaskDone]] [] sys
      = Some (sys', [], Normal tt) /\
    disposed_ (queue sys') = true /\
    currentRunningTasks_ (queue sys') = 0 /\
    trace sys' = [invokeTask 1 (Callable 1)].
Proof.
  eexists. split; [vm_compute; reflexivity |].
  repeat split.
Qed.

(** When nothing runs and every pending task is due later than the
    barrier's clock value, the placeholder is inserted at the head and
    the first evaluation of the loop enters. *)
Lemma firstn_nil_when_all_later (l : list Task) (p : nat) now :
  Forall (fun e => executeTime e <= now) (firstn p l) ->
  Forall (fun e => now < executeTime e) l ->
  firstn p l = [] /\ skipn p l = l.
Proof.
  intros Hb Ha.
  assert (firstn p l = []) as E.
  { destruct (firstn p l) as [| a r] eqn:Ef; [reflexivity |].
    assert (In a l) as Hin.
    { rewrite <- (firstn_skipn p l), Ef. now left. }
    inversion Hb; subst. rewrite Forall_forall in Ha.
    specialize (Ha a Hin). lia. }
  split; [exact E |].
  rewrite <- (firstn_skipn p l) at 2. now rewrite E.
Qed.

Lemma barrier_enters_at_once f now wake_ops sys :
  queue_ok (queue sys) ->
  currentRunningTasks_ (queue sys) = 0 ->
  Forall (fun e => now < executeTime e) (tasks_ (queue sys)) ->
  let i := taskIdCounter_ (queue sys) + 1 in
  let b := mkTask i EmptyFunction now true in
  tasks_ (fst (barrier_insert now (queue sys))) = b :: tasks_ (queue sys) /\
  exists sys',
    barrier f now wake_ops [] sys = Some (sys', [invokeBarrier i f], invoke f) /\
    trace sys' = trace sys ++ [invokeBarrier i f] /\
    taskIdCounter_ (queue sys') = i /\
    disposed_ (queue sys') = disposed_ (queue sys) /\
    match invoke f with
    | Normal _ =>
        tasks_ (queue sys') = tasks_ (queue sys) /\
        currentRunningTasks_ (queue sys') = 0
    | Exceptional _ =>
        tasks_ (queue sys') = b :: tasks_ (queue sys) /\
        currentRunningTasks_ (queue sys') = 1
    end.
Proof.
  intros Hok Hr Hall i b.
  destruct (emplace_upper_bound (tasks_ (queue sys)) b (ok_sorted _ Hok)
              (ids_below_next _ EmptyFunction now true Hok))
    as (_ & Hb & _).
  set (p := upper_bound task_comp (tasks_ (queue sys)) b) in *.
  simpl in Hb.
  destruct (firstn_nil_when_all_later _ p now Hb Hall) as [E1 E2].
  assert (emplace p b (tasks_ (queue sys)) = b :: tasks_ (queue sys)) as Ee
    by (unfold emplace; now rewrite E1, E2).
  split.
  - unfold barrier_insert, insertTask. cbv beta iota zeta.
    fold i. fold b. fold p. simpl. exact Ee.
  - unfold barrier, barrier_insert, insertTask. cbv beta iota zeta.
    fold i. fold b. fold p. rewrite Ee.
    unfold call_barrier_pass.
    rewrite (barrier_pass_ready i _ b (tasks_ (queue sys)));
      [| reflexivity | reflexivity | exact Hr].
    rewrite barrier_wait_eq. cbn [run fold_left].
    destruct (invoke f) as [[] | e]; (eexists; split; [reflexivity |]).
    + unfold barrier_leave, lockFreeRemoveTask.
      cbn [set_queue with_queue queue tasks_ with_running with_tasks
           with_counter].
      cbn [remove_first app id b]. rewrite Z.eqb_refl.
      cbn. repeat split; auto.
    + cbn. repeat split; auto.
Qed.

Lemma barrier_wait_stuck i f (n : nat) during_ops : forall sys evs,
  snd (barrier_pass i (queue sys)) = BarrierWait ->
  barrier_wait i f (repeat [] n) during_ops (sys, evs, BarrierWait) = None.
Proof.
  induction n as [| n IH]; intros sys evs Hw; rewrite barrier_wait_eq;
    [reflexivity |].
  cbn [repeat run fold_left].
  rewrite (call_barrier_pass_waits i f sys Hw).
  apply IH. exact Hw.
Qed.

(** C10, as the code has it: no block of [barrier] (and so of [sync],
    which is [barrier]) reads the disposed flag.  On a disposed queue
    with nothing running and no pending task due at or before the
    barrier's clock value (the empty sequence that [dispose] leaves, for
    one), [barrier] inserts its placeholder at the head, enters at once
    and invokes the caller's callable; when the callable returns, the
    placeholder is removed and the count is back at 0; when it throws
    (an empty function does), the exception leaves [barrier] with the
    placeholder still at the head and the count at 1.  [enqueue] on the
    same queue is rejected with id 0. *)
Theorem C10_barrier_runs_on_disposed_queue :
  forall (ops : list Op) (f : DispatchFunction) (now : time_point)
         (wake_ops : list (list Op)),
    let sys := run ops System_new in
    let i := taskIdCounter_ (queue sys) + 1 in
    let b := mkTask i EmptyFunction now true in
    disposed_ (queue sys) = true ->
    currentRunningTasks_ (queue sys) = 0 ->
    Forall (fun e => now < executeTime e) (tasks_ (queue sys)) ->
    tasks_ (fst (barrier_insert now (queue sys))) = b :: tasks_ (queue sys) /\
    (exists sys',
       sync f now wake_ops [] sys = Some (sys', [invokeBarrier i f], invoke f) /\
       trace sys' = trace sys ++ [invokeBarrier i f] /\
       taskIdCounter_ (queue sys') = i /\
       disposed_ (queue sys') = true /\
       match invoke f with
       | Normal _ =>
           tasks_ (queue sys') = tasks_ (queue sys) /\
           currentRunningTasks_ (queue sys') = 0
       | Exceptional _ =>
           tasks_ (queue sys') = b :: tasks_ (queue sys) /\
           currentRunningTasks_ (queue sys') = 1
       end) /\
    enqueue f now (queue sys) = (queue sys, [], mkEnqueuedTask 0 false) /\
    (forall (d : bool) (j : TaskId) (s : TaskQueue),
       barrier_insert now (with_disposed d s)
         = (with_disposed d (fst (barrier_insert now s)),
            snd (barrier_insert now s)) /\
       barrier_pass j (with_disposed d s)
         = (with_disposed d (fst (barrier_pass j s)),
            snd (barrier_pass j s)) /\
       barrier_leave j (with_disposed d s)
         = with_disposed d (barrier_leave j s)).
Proof.
  intros ops f now wake_ops sys i b Hd Hr Hall.
  assert (queue_ok (queue sys)) as Hok by (apply run_ok, queue_ok_new).
  destruct (barrier_enters_at_once f now wake_ops sys Hok Hr Hall)
    as (Hi & sys' & Hs & Ht & Hc & Hd' & Hm).
  split; [exact Hi | split; [| split]].
  - exists sys'. unfold sync. rewrite Hd' , Hd. auto.
  - unfold enqueue. now rewrite Hd.
  - intros d j s. apply barrier_ignores_disposed.
Qed.

Lemma C10_barrier_runs_on_disposed_witness :
  let sys := run [OpEnqueue (Callable 1) 0; OpDisposeMark; OpDisposeSwap]
               System_new in
  (exists sys',
     sync (Callable 9) 5 [] [] sys
       = Some (sys', [invokeBarrier 2 (Callable 9)], Normal tt)) /\
  (exists sys',
     sync EmptyFunction 5 [] [] sys
       = Some (sys', [invokeBarrier 2 EmptyFunction],
               Exceptional bad_function_call) /\
     currentRunningTasks_ (queue sys') = 1) /\
  enqueue (Callable 9) 5 (queue sys)
    = (queue sys, [], mkEnqueuedTask 0 false).
Proof.
  intros sys. split; [| split].
  - destruct (C10_barrier_runs_on_disposed_queue
                [OpEnqueue (Callable 1) 0; OpDisposeMark; OpDisposeSwap]
                (Callable 9) 5 [] eq_refl eq_refl (Forall_nil _))
      as (_ & (sys' & Hs & _) & _).
    exists sys'. exact Hs.
  - destruct (C10_barrier_runs_on_disposed_queue
                [OpEnqueue (Callable 1) 0; OpDisposeMark; OpDisposeSwap]
                EmptyFunction 5 [] eq_refl eq_refl (Forall_nil _))
      as (_ & (sys' & Hs & _ & _ & _ & _ & Hr) & _).
    exists sys'. split; [exact Hs | exact Hr].
  - apply (C10_barrier_runs_on_disposed_queue
             [OpEnqueue (Callable 1) 0; OpDisposeMark; OpDisposeSwap]
             (Callable 9) 5 [] eq_refl eq_refl (Forall_nil _)).
Defined.

(** Against C10's "on an already-disposed store with running == 0 it
    finds that task at the head": an [enqueue] that tested [disposed_]
    before [dispose] ran inserts its task after the swap.  The queue is
    disposed, nothing runs, and the task is due; a [barrier] called now
    is placed behind it and waits.  No [nextTask] pops on a disposed
    queue, so with the queue left alone the barrier waits for ever and
    its callable is not invoked. *)
Lemma C10_barrier_waits_behind_a_task_on_disposed_queue :
  let sys := run [OpDisposeMark; OpDisposeSwap;
                  OpEnqueueLocked (Callable 1) 0] System_new in
  disposed_ (queue sys) = true /\
  currentRunningTasks_ (queue sys) = 0 /\
  tasks_ (queue sys) = [mkTask 1 (Callable 1) 0 false] /\
  (forall maxTime now,
     snd (nextTask_block maxTime now (queue sys)) = BlockReturn None) /\
  (forall n, sync (Callable 9) 5 (repeat [] n) [] sys = None).
Proof.
  repeat split.
  intros n. unfold sync, barrier.
  change (barrier_insert 5
            (queue (run [OpDisposeMark; OpDisposeSwap;
                         OpEnqueueLocked (Callable 1) 0] System_new)))
    with (mkTaskQueue true 2
            [mkTask 1 (Callable 1) 0 false; mkTask 2 EmptyFunction 5 true]
            false false 0 1 None, 2).
  cbv beta iota.
  rewrite call_barrier_pass_waits by reflexivity.
  apply barrier_wait_stuck. reflexivity.
Qed.

(** ** flush *)

(** The number of callables a list of events records as invoked. *)
Definition executed (evs : list Event) : nat :=
  length (filter is_invoke evs).

Lemma executed_app evs1 evs2 :
  executed (evs1 ++ evs2) = (executed evs1 + executed evs2)%nat.
Proof. unfold executed. now rewrite filter_app, length_app. Qed.

Lemma runNextTask_executed maxTime sched now during_ops sys sys' evs r :
  runNextTask maxTime sched now during_ops sys = Some (sys', evs, r) ->
  executed evs = match r with Normal false => 0%nat | _ => 1%nat end.
Proof.
  unfold runNextTask. intros H.
  destruct (nextTask maxTime sched now sys) as [[[sys1 evs1] [t |]] |] eqn:En;
    [| | discriminate]; apply nextTask_result in En; unfold executed.
  - destruct En as [Hf _].
    destruct (invoke (function t)) as [[] | e]; injection H as <- <- <-;
      now rewrite Hf.
  - injection H as <- <- <-. now rewrite En.
Qed.

Lemma flush_loop_count rounds : forall n0 sys sys' evs n,
  0 <= n0 < 2 ^ 64 ->
  flush_loop rounds n0 sys = Some (sys', evs, Normal n) ->
  n = size_wrap (n0 + Z.of_nat (executed evs)).
Proof.
  induction rounds as [| r rs IH]; intros n0 sys sys' evs n Hn H;
    [discriminate |].
  simpl in H.
  destruct (runNextTask (call_now r) (wakes r) (pass_now r) (during r) sys)
    as [[[sys1 evs1] b] |] eqn:Er; [| discriminate].
  apply runNextTask_executed in Er.
  destruct b as [[|] | e]; [| | discriminate].
  - destruct (flush_loop rs (size_wrap (n0 + 1)) sys1)
      as [[[sys2 evs2] n2] |] eqn:Ef; [| discriminate].
    injection H as <- <- ->.
    apply IH in Ef; [| apply size_wrap_range].
    rewrite Ef, executed_app, Er. unfold size_wrap.
    rewrite Zplus_mod_idemp_l. f_equal. lia.
  - injection H as <- <- <-. rewrite Er, Z.add_0_r.
    symmetry. now apply size_wrap_small.
Qed.

Lemma runNextTask_only_future maxTime now w ws during_ops sys t rest :
  others w = [] ->
  tasks_ (queue sys) = t :: rest ->
  maxTime <= now -> now < executeTime t -> maxTime <= woke_at w ->
  exists sys',
    runNextTask maxTime (w :: ws) now during_ops sys
      = Some (sys', [], Normal false) /\
    queue sys' = queue sys /\ trace sys' = trace sys.
Proof.
  intros Ho Ht Hm Hn Hw. unfold runNextTask. rewrite nextTask_eq.
  unfold call_nextTask, nextTask_block, nextTask_pass.
  destruct (disposed_ (queue sys)) eqn:Ed.
  - rewrite nextTask_finish_false.
    eexists. split; [reflexivity |]. split; [reflexivity | apply app_nil_r].
  - rewrite Ht.
    assert (forall u, u = maxTime ->
              exists sys',
                match
                  (let sys2 := run (others w) (with_queue (queue sys) [] sys) in
                   if true && is_timeout (wait_until u (woke_at w))
                   then
                     let '(q, t0) := nextTask_finish false (queue sys2) in
                     Some (set_queue q sys2, @nil Event, t0)
                   else
                     match nextTask maxTime ws (now_after w) sys2 with
                     | Some (sys3, evs', t0) => Some (sys3, [] ++ evs', t0)
                     | None => None
                     end)
                with
                | Some (sys1, evs, Some task) =>
                    let sys2 := run during_ops sys1 in
                    match invoke (function task) with
                    | Normal _ =>
                        Some (set_queue (runNextTask_done (queue sys2)) sys2,
                              evs, Normal true)
                    | Exceptional e => Some (sys2, evs, Exceptional e)
                    end
                | Some (sys1, evs, None) => Some (sys1, evs, Normal false)
                | None => None
                end = Some (sys', [], Normal false) /\
                queue sys' = queue sys /\ trace sys' = trace sys) as Hwait.
    { intros u ->. rewrite Ho. cbv zeta. cbn [run fold_left].
      unfold wait_until. apply Z.leb_le in Hw. rewrite Hw. cbn [andb is_timeout].
      rewrite nextTask_finish_false.
      eexists. split; [reflexivity |].
      split; [reflexivity | simpl; now rewrite ?app_nil_r]. }
    destruct (maxConcurrentTasks_ (queue sys)
              <=? currentRunningTasks_ (queue sys));
      [apply Hwait; reflexivity |].
    destruct (isBarrier t); [apply Hwait; reflexivity |].
    apply Z.ltb_lt in Hn. rewrite Hn.
    apply Z.ltb_lt in Hn.
    cbv zeta. rewrite Z.min_l by lia. rewrite Z.eqb_refl.
    apply Hwait; reflexivity.
Qed.

(** C8: [flush] calls [runNextTask] with the clock value read for that
    iteration as deadline, goes on while the call returns true and
    stops at the first false (or at a callable's exception, which
    leaves [flush] as it leaves [runNextTask]); the number it returns
    is the number of callables it invoked (as a [size_t]).  When every
    task left has an execute time later than the clock, it returns 0
    with the queue as it was and nothing invoked. *)
Theorem C8_flush_counts_what_it_ran_and_skips_future_tasks :
  forall (rounds : list Round) (sys : System),
    (forall sys' evs n,
       flush rounds sys = Some (sys', evs, Normal n) ->
       n = size_wrap (Z.of_nat (executed evs)) /\
       (Z.of_nat (executed evs) < 2 ^ 64 -> n = Z.of_nat (executed evs))) /\
    (forall r rs n0,
       flush_loop (r :: rs) n0 sys =
       match runNextTask (call_now r) (wakes r) (pass_now r) (during r) sys with
       | None => None
       | Some (sys1, evs, Normal false) => Some (sys1, evs, Normal n0)
       | Some (sys1, evs, Normal true) =>
           match flush_loop rs (size_wrap (n0 + 1)) sys1 with
           | Some (sys2, evs', n) => Some (sys2, evs ++ evs', n)
           | None => None
           end
       | Some (sys1, evs, Exceptional e) => Some (sys1, evs, Exceptional e)
       end) /\
    (forall r rs w ws t rest,
       rounds = r :: rs -> wakes r = w :: ws -> others w = [] ->
       tasks_ (queue sys) = t :: rest ->
       Forall (fun e => pass_now r < executeTime e) (tasks_ (queue sys)) ->
       call_now r <= pass_now r -> call_now r <= woke_at w ->
       exists sys',
         flush rounds sys = Some (sys', [], Normal 0) /\
         queue sys' = queue sys /\ trace sys' = trace sys).
Proof.
  intros rounds sys. split; [| split].
  - intros sys' evs n H. unfold flush in H.
    apply flush_loop_count in H; [| lia]. simpl in H.
    split; [exact H |]. intros Hlt. rewrite H.
    apply size_wrap_small. lia.
  - reflexivity.
  - intros r rs w ws t rest -> Hw Ho Ht Hf Hc Hk.
    rewrite Ht in Hf. inversion Hf as [| ? ? Hhead _]; subst.
    unfold flush. simpl. rewrite Hw.
    destruct (runNextTask_only_future (call_now r) (pass_now r) w ws
                (during r) sys t rest Ho Ht Hc Hhead Hk)
      as (sys' & -> & Hq & Htr).
    exists sys'. auto.
Qed.

Lemma C8_flush_witness :
  let sys := run [OpEnqueue (Callable 1) 3; OpEnqueue (Callable 2) 50;
                  OpEnqueue (Callable 3) 4] System_new in
  let rounds := [mkRound 10 10 [mkWake [] 10 10] [];
                 mkRound 11 11 [mkWake [] 11 11] [];
                 mkRound 12 12 [mkWake [] 12 12] []] in
  match flush rounds sys with
  | Some (sys', evs, Normal n) =>
      n = 2 /\ n = size_wrap (Z.of_nat (executed evs)) /\
      map id (tasks_ (queue sys')) = [2]
  | _ => False
  end /\
  exists sys2,
    flush [mkRound 12 12 [mkWake [] 12 12] []]
      (run [OpNextTask 10 10; OpTaskDone; OpNextTask 11 11; OpTaskDone] sys)
      = Some (sys2, [], Normal 0).
Proof.
  intros sys rounds. split.
  - destruct (flush rounds sys) as [[[sys' evs] [n | e]] |] eqn:E.
    + destruct (proj1 (C8_flush_counts_what_it_ran_and_skips_future_tasks
                         rounds sys) sys' evs n E) as [H1 H2].
      vm_compute in E. injection E as <- <- <-.
      split; [reflexivity | split; [exact H1 | reflexivity]].
    + vm_compute in E. discriminate.
    + vm_compute in E. discriminate.
  - destruct (proj2 (proj2 (C8_flush_counts_what_it_ran_and_skips_future_tasks
                [mkRound 12 12 [mkWake [] 12 12] []]
                (run [OpNextTask 10 10; OpTaskDone; OpNextTask 11 11;
                      OpTaskDone] sys)))
             (mkRound 12 12 [mkWake [] 12 12] []) [] (mkWake [] 12 12) []
             (mkTask 2 (Callable 2) 50 false) []
             eq_refl eq_refl eq_refl eq_refl) as (sys2 & H & _).
    + repeat constructor.
    + simpl. lia.
    + simpl. lia.
    + exists sys2. exact H.
Defined.

(** ** sync through a promise *)

Module SyncFacts.
Import ThreadedDispatchQueue.

(** C9, as the code has it: in the promise/future branch of [sync] a
    callable that returns lets the worker fulfil the promise, and the
    caller unblocks; a callable that throws skips [promise.set_value()],
    nothing stores the exception in the promise, the exception leaves
    [runNextTask] and the worker's thread function, and the caller's
    [future.get()] stays blocked on a promise that is never ready. *)
Theorem C9_sync_promise_is_set_only_on_normal_return :
  forall (name : nat) (w : World),
    disableSyncCallsInCallingThread_ w = true ->
    0 <= currentRunningTasks_ w < 2 ^ 64 - 1 ->
    (let r := sync (user_function name returns) w in
     snd r = Some (Returned tt) /\ snd (fst r) = Looping /\
     promise (fst (fst r)) = HasValue /\
     runningSync_ (fst (fst r)) = false /\
     currentRunningTasks_ (fst (fst r)) = currentRunningTasks_ w /\
     ran (fst (fst r)) = ran w ++ [name]) /\
    (forall e,
       let r := sync (user_function name (throws e)) w in
       snd r = None /\ snd (fst r) = Terminated e /\
       promise (fst (fst r)) = NotReady /\
       runningSync_ (fst (fst r)) = true /\
       currentRunningTasks_ (fst (fst r)) = currentRunningTasks_ w + 1 /\
       ran (fst (fst r)) = ran w ++ [name]).
Proof.
  intros name w Hd Hr. split.
  - unfold sync. rewrite Hd.
    unfold handler_step, runNextTask_invoke, sync_task, bind. simpl.
    repeat split.
    rewrite (size_wrap_small (currentRunningTasks_ w + 1)) by lia.
    rewrite size_wrap_small by lia. lia.
  - intros e. unfold sync. rewrite Hd.
    unfold handler_step, runNextTask_invoke, sync_task, bind. simpl.
    repeat split. apply size_wrap_small. lia.
Qed.

Lemma C9_sync_promise_witness :
  disableSyncCallsInCallingThread_ World_new = true /\
  0 <= currentRunningTasks_ World_new < 2 ^ 64 - 1 /\
  snd (sync (user_function 1 returns) World_new) = Some (Returned tt) /\
  snd (sync (user_function 1 (throws 7)) World_new) = None.
Proof.
  assert (0 <= currentRunningTasks_ World_new < 2 ^ 64 - 1) as H
    by (simpl; lia).
  split; [reflexivity | split; [exact H |]].
  destruct (C9_sync_promise_is_set_only_on_normal_return 1 World_new
              eq_refl H) as [H1 H2].
  split; [apply H1 | apply (H2 7%nat)].
Defined.

(** Against C9's "captured and re-raised on the caller": the callable
    throws on the worker, and the caller neither receives the exception
    nor unblocks. *)
Lemma C9_exception_does_not_reach_the_caller :
  let r := sync (user_function 1 (throws 7)) World_new in
  disableSyncCallsInCallingThread_ World_new = true /\
  snd r <> Some (Thrown 7) /\ snd r = None /\
  snd (fst r) = Terminated 7 /\ promise (fst (fst r)) = NotReady.
Proof.
  vm_compute. repeat split. discriminate.
Qed.

End SyncFacts.

(** * Further properties of the task queue *)

(** ** A step takes the earliest task *)

(** X1: in any state reached from a new queue, the task that [nextTask]
    pops stands before every task it leaves in the sequence, in the
    order [(executeTime, id)]; it is not a barrier and its time has
    come. *)
Theorem X1_nextTask_pops_the_earliest_task :
  forall (ops : list Op) (maxTime now : time_point)
         (s' : TaskQueue) (evs : list Event) (t : Task),
    nextTask_block maxTime now (queue (run ops System_new))
      = (s', evs, BlockReturn (Some t)) ->
    Forall (task_before t) (tasks_ s') /\
    tasks_ (queue (run ops System_new)) = t :: tasks_ s' /\
    isBarrier t = false /\ executeTime t <= now.
Proof.
  intros ops maxTime now s' evs t H.
  assert (queue_ok (queue (run ops System_new))) as Hok
    by (apply run_ok, queue_ok_new).
  apply nextTask_block_popped in H.
  destruct H as (_ & _ & Ht & Hb & Hr & _ & _).
  pose proof (ok_sorted _ Hok) as Hs. unfold sorted_tasks in Hs.
  rewrite Ht in Hs. inversion Hs; subst. auto.
Qed.

Lemma X1_nextTask_pops_the_earliest_witness :
  let ops := [OpEnqueue (Callable 1) 7; OpEnqueue (Callable 2) 3;
              OpEnqueue (Callable 3) 3] in
  exists s' t,
    nextTask_block 9 9 (queue (run ops System_new))
      = (s', [], BlockReturn (Some t)) /\
    id t = 2 /\ Forall (task_before t) (tasks_ s').
Proof.
  intros ops.
  destruct (nextTask_block 9 9 (queue (run ops System_new)))
    as [[s' evs] b] eqn:E.
  vm_compute in E. injection E as <- <- <-.
  eexists _, _. split; [reflexivity | split; [reflexivity |]].
  eapply (X1_nextTask_pops_the_earliest_task ops 9 9). reflexivity.
Defined.

(** ** Submitting and cancelling *)

Lemma remove_first_inserted i l1 x l2 :
  id x = i -> ~ In i (map id l1) ->
  remove_first i (l1 ++ x :: l2) = (l1 ++ l2, function x).
Proof.
  intros Hx. induction l1 as [| a l1 IH]; simpl; intros Hn.
  - subst i. now rewrite Z.eqb_refl.
  - destruct (Z.eqb_spec (id a) i) as [E | E]; [tauto |].
    rewrite IH; [reflexivity | tauto].
Qed.

Lemma insertTask_then_remove f t b s :
  queue_ok s ->
  let r := insertTask f t b s in
  remove_first (snd r) (tasks_ (fst r)) = (tasks_ s, f).
Proof.
  intros Hok. unfold insertTask. simpl. unfold emplace.
  set (task := mkTask (taskIdCounter_ s + 1) f t b).
  set (p := upper_bound task_comp (tasks_ s) task).
  rewrite (remove_first_inserted (taskIdCounter_ s + 1) _ task);
    [now rewrite firstn_skipn | reflexivity |].
  intros Hin. apply in_map_iff in Hin. destruct Hin as (e & He & Hine).
  pose proof (ok_ids s Hok) as Hids. rewrite Forall_forall in Hids.
  assert (In e (tasks_ s)) as Hin'.
  { rewrite <- (firstn_skipn p (tasks_ s)). apply in_or_app. now left. }
  specialize (Hids e Hin'). lia.
Qed.

Lemma tick_wrap_small x : - 2 ^ 63 <= x < 2 ^ 63 -> tick_wrap x = x.
Proof.
  intros H. unfold tick_wrap. rewrite Z.mod_small by lia. lia.
Qed.

(** X2: on a queue that is not disposed, [asyncAfter(f, delay)] returns
    an id of at least 1 and leaves a task with that id and callable [f]
    in the sequence, whose execute time is [now + delay] whenever that
    sum fits the clock's 64-bit tick count; [cancel] with the returned
    id then takes out exactly that task: the sequence is again what it
    was before the submission, and the callable handed back by
    [lockFreeRemoveTask] is [f]. *)
Theorem X2_asyncAfter_then_cancel_restores_the_sequence :
  forall (ops : list Op) (f : DispatchFunction) (delay : Z)
         (now : time_point),
    let s := queue (run ops System_new) in
    isDisposed s = false ->
    let r := asyncAfter f delay now s in
    1 <= snd r /\
    (exists t,
       In (mkTask (snd r) f t false) (tasks_ (fst (fst r))) /\
       (- 2 ^ 63 <= now + delay < 2 ^ 63 -> t = now + delay)) /\
    tasks_ (fst (cancel (snd r) (fst (fst r)))) = tasks_ s /\
    snd (lockFreeRemoveTask (snd r) (fst (fst r))) = f.
Proof.
  intros ops f delay now s Hd r.
  assert (queue_ok s) as Hok by (apply run_ok, queue_ok_new).
  pose proof (tick_wrap_small (now + delay)) as Hw.
  unfold r, asyncAfter, enqueue_delay. clear r.
  set (t := tick_wrap (now + delay)) in *.
  set (r := let '(s', evs, r) := enqueue f t s in (s', evs, enq_id r)).
  pose proof (insertTask_then_remove f t false s Hok) as Hrm.
  pose proof (ok_counter s Hok) as Hc.
  unfold isDisposed in Hd.
  assert (r = (let '(s1, i) := insertTask f t false s in
               if empty_ s
               then (with_empty false (with_first false s1),
                     notify (listener_ s) onQueueNonEmpty, i)
               else (with_first false s1, [], i))) as Hr.
  { unfold r, enqueue. rewrite Hd.
    unfold enqueue_locked, insertTask. simpl.
    destruct (empty_ s); reflexivity. }
  clearbody r. subst r.
  unfold insertTask in *. simpl in Hrm.
  assert (In (mkTask (taskIdCounter_ s + 1) f t false)
            (emplace (upper_bound task_comp (tasks_ s)
                        (mkTask (taskIdCounter_ s + 1) f t false))
               (mkTask (taskIdCounter_ s + 1) f t false)
               (tasks_ s))) as Hin.
  { unfold emplace. apply in_or_app. right. now left. }
  cbv zeta. destruct (empty_ s); simpl;
    (split; [lia | split; [exists t; split; [exact Hin | exact Hw] |]]);
    unfold lockFreeRemoveTask; simpl; rewrite Hrm; auto.
Qed.

Lemma X2_asyncAfter_then_cancel_witness :
  let ops := [OpEnqueue (Callable 1) 5; OpEnqueue (Callable 2) 500] in
  let s := queue (run ops System_new) in
  let r := asyncAfter (Callable 3) 200 0 s in
  snd r = 3 /\
  map id (tasks_ (fst (fst r))) = [1; 3; 2] /\
  map executeTime (tasks_ (fst (fst r))) = [5; 200; 500] /\
  tasks_ (fst (cancel (snd r) (fst (fst r)))) = tasks_ s.
Proof.
  intros ops s r.
  split; [reflexivity | split; [reflexivity | split; [reflexivity |]]].
  apply (X2_asyncAfter_then_cancel_restores_the_sequence ops (Callable 3)
           200 0). reflexivity.
Defined.

(** ** Fields that only some actions touch *)

Definition same_flags (s s' : TaskQueue) : Prop :=
  first_ s' = first_ s /\ disposed_ s' = disposed_ s /\
  maxConcurrentTasks_ s' = maxConcurrentTasks_ s.

Lemma same_flags_refl s : same_flags s s.
Proof. repeat split. Qed.

Lemma same_flags_trans s1 s2 s3 :
  same_flags s1 s2 -> same_flags s2 s3 -> same_flags s1 s3.
Proof. unfold same_flags. intuition congruence. Qed.

Lemma lockFreeRemoveTask_flags i s :
  same_flags s (fst (lockFreeRemoveTask i s)).
Proof.
  unfold lockFreeRemoveTask. destruct (remove_first i (tasks_ s)).
  repeat split.
Qed.

Lemma barrier_pass_flags i s : same_flags s (fst (barrier_pass i s)).
Proof.
  unfold barrier_pass. destruct (tasks_ s); [apply same_flags_refl |].
  destruct (negb (currentRunningTasks_ s =? 0) || negb (id t =? i));
    repeat split.
Qed.

Lemma barrier_leave_flags i s : same_flags s (barrier_leave i s).
Proof.
  unfold barrier_leave.
  destruct (lockFreeRemoveTask_flags i s) as (H1 & H2 & H3).
  repeat split; simpl; assumption.
Qed.

Lemma nextTask_block_flags maxTime now s :
  same_flags s (fst (fst (nextTask_block maxTime now s))).
Proof.
  unfold nextTask_block, nextTask_pass, nextTask_finish.
  destruct (disposed_ s) eqn:Ed.
  - rewrite Ed. simpl. apply same_flags_refl.
  - destruct (tasks_ s) as [| t rest] eqn:Et.
    + destruct (negb (empty_ s)); repeat split.
    + destruct (maxConcurrentTasks_ s <=? currentRunningTasks_ s);
        [apply same_flags_refl |].
      destruct (isBarrier t); [apply same_flags_refl |].
      destruct (now <? executeTime t); [apply same_flags_refl |].
      rewrite Ed, Et. simpl. repeat split; simpl; auto.
Qed.

Lemma enqueue_locked_first f t s :
  first_ (fst (fst (enqueue_locked f t s))) = false /\
  disposed_ (fst (fst (enqueue_locked f t s))) = disposed_ s /\
  maxConcurrentTasks_ (fst (fst (enqueue_locked f t s)))
    = maxConcurrentTasks_ s /\
  isFirst (snd (enqueue_locked f t s)) = first_ s /\
  enq_id (snd (enqueue_locked f t s)) = taskIdCounter_ s + 1 /\
  taskIdCounter_ (fst (fst (enqueue_locked f t s))) = taskIdCounter_ s + 1.
Proof.
  unfold enqueue_locked, insertTask. simpl.
  destruct (empty_ s); repeat split.
Qed.

(** What an action can do to [first_], [disposed_] and the ceiling. *)
Lemma sys_step_frame o sys :
  (first_ (queue (sys_step o sys)) = first_ (queue sys) \/
   (is_enqueue o = true /\ first_ (queue (sys_step o sys)) = false)) /\
  (disposed_ (queue (sys_step o sys)) = disposed_ (queue sys) \/
   (o = OpDisposeMark /\ disposed_ (queue (sys_step o sys)) = true)) /\
  (maxConcurrentTasks_ (queue (sys_step o sys))
     = maxConcurrentTasks_ (queue sys) \/
   exists n, o = OpSetMaxConcurrentTasks n).
Proof.
  assert (forall q', same_flags (queue sys) q' ->
            (first_ q' = first_ (queue sys) \/
             (is_enqueue o = true /\ first_ q' = false)) /\
            (disposed_ q' = disposed_ (queue sys) \/
             (o = OpDisposeMark /\ disposed_ q' = true)) /\
            (maxConcurrentTasks_ q' = maxConcurrentTasks_ (queue sys) \/
             exists n, o = OpSetMaxConcurrentTasks n)) as Hsame.
  { intros q' (H1 & H2 & H3). auto. }
  destruct o; simpl.
  - unfold enqueue. destruct (disposed_ (queue sys)) eqn:Ed.
    + apply Hsame, same_flags_refl.
    + destruct (enqueue_locked_first f t (queue sys))
        as (H1 & H2 & H3 & _).
      destruct (enqueue_locked f t (queue sys)) as [[q evs] r].
      simpl in *. rewrite H2, H3. auto.
  - destruct (enqueue_locked_first f t (queue sys)) as (H1 & H2 & H3 & _).
    destruct (enqueue_locked f t (queue sys)) as [[q evs] r].
    simpl in *. auto.
  - apply Hsame, lockFreeRemoveTask_flags.
  - auto.
  - destruct (disposed_ (queue sys)); apply Hsame; repeat split.
  - unfold setMaxConcurrentTasks.
    destruct (maxConcurrentTasks_ (queue sys) =? size_wrap n); simpl;
      (split; [now left | split; [now left | right; eauto]]).
  - apply Hsame. repeat split.
  - rewrite sys_barrier_begin_queue. apply Hsame.
    eapply same_flags_trans; [| apply barrier_pass_flags]. repeat split.
  - destruct (lookup_waiting i (waiting sys));
      [| apply Hsame, same_flags_refl].
    rewrite sys_barrier_pass_queue. apply Hsame, barrier_pass_flags.
  - unfold sys_barrier_leave.
    destruct (is_entered i (entered sys));
      [| apply Hsame, same_flags_refl].
    apply Hsame, barrier_leave_flags.
  - rewrite sys_nextTask_queue. apply Hsame, nextTask_block_flags.
  - unfold sys_task_done. destruct (stepping sys);
      apply Hsame; repeat split.
Qed.

Lemma run_first_stays_false ops : forall sys,
  first_ (queue sys) = false -> first_ (queue (run ops sys)) = false.
Proof.
  induction ops as [| o ops IH]; intros sys H; [exact H |].
  simpl. apply IH.
  destruct (sys_step_frame o sys) as ([E | [_ E]] & _); congruence.
Qed.

Lemma run_disposed_stays ops : forall sys,
  disposed_ (queue sys) = true -> disposed_ (queue (run ops sys)) = true.
Proof.
  induction ops as [| o ops IH]; intros sys H; [exact H |].
  simpl. apply IH.
  destruct (sys_step_frame o sys) as (_ & [E | [_ E]] & _); congruence.
Qed.

Lemma run_first_untouched ops : forall sys,
  no_enqueue ops = true -> first_ (queue (run ops sys)) = first_ (queue sys).
Proof.
  induction ops as [| o ops IH]; intros sys H; [reflexivity |].
  simpl. assert (is_enqueue o = false /\ no_enqueue ops = true) as [Ho Hr]
    by (destruct o; simpl in *; auto; discriminate).
  rewrite (IH _ Hr).
  destruct (sys_step_frame o sys) as ([E | [E _]] & _); congruence.
Qed.

(** X3: [isFirst] is a one-shot: an [enqueue] on a queue that is not
    disposed reports [isFirst] exactly when no [enqueue] went through
    before it.  After one accepted [enqueue], whatever else happens, no
    later [enqueue] reports [isFirst]; and before any, whatever else
    happened (barriers, cancels, steps, setters), the first one does. *)
Theorem X3_isFirst_is_reported_once :
  forall (ops1 ops2 : list Op) (f g : DispatchFunction) (t u : time_point),
    let sys1 := run ops1 System_new in
    disposed_ (queue sys1) = false ->
    isFirst (snd (enqueue g u
               (queue (run ops2 (sys_step (OpEnqueue f t) sys1))))) = false /\
    (no_enqueue ops1 = true -> isFirst (snd (enqueue f t (queue sys1))) = true).
Proof.
  intros ops1 ops2 f g t u sys1 Hd. split.
  - set (sys2 := run ops2 (sys_step (OpEnqueue f t) sys1)).
    assert (first_ (queue sys2) = false) as Hf.
    { apply run_first_stays_false. simpl. unfold enqueue. rewrite Hd.
      destruct (enqueue_locked_first f t (queue sys1)) as (H1 & _).
      destruct (enqueue_locked f t (queue sys1)) as [[q evs] r]. exact H1. }
    unfold enqueue. destruct (disposed_ (queue sys2)); [reflexivity |].
    destruct (enqueue_locked_first g u (queue sys2)) as (_ & _ & _ & H & _).
    congruence.
  - intros Hn. unfold enqueue. rewrite Hd.
    destruct (enqueue_locked_first f t (queue sys1)) as (_ & _ & _ & H & _).
    rewrite H. unfold sys1. now rewrite run_first_untouched.
Qed.

Lemma X3_isFirst_witness :
  let ops1 := [OpBarrier (Callable 9) 0; OpBarrierLeave 1; OpCancel 4] in
  let ops2 := [OpNextTask 5 5; OpTaskDone; OpNextTask 5 5] in
  disposed_ (queue (run ops1 System_new)) = false /\
  no_enqueue ops1 = true /\
  isFirst (snd (enqueue (Callable 1) 0 (queue (run ops1 System_new)))) = true /\
  isFirst (snd (enqueue (Callable 2) 0
             (queue (run ops2 (sys_step (OpEnqueue (Callable 1) 0)
                                 (run ops1 System_new)))))) = false.
Proof.
  intros ops1 ops2.
  destruct (X3_isFirst_is_reported_once ops1 ops2 (Callable 1) (Callable 2)
              0 0 eq_refl) as [H1 H2].
  split; [reflexivity | split; [reflexivity | split]].
  - apply H2. reflexivity.
  - exact H1.
Defined.

Lemma run_grows ops : forall sys, grows (queue sys) (queue (run ops sys)).
Proof.
  induction ops as [| o ops IH]; intros sys; [apply grows_refl |].
  simpl. eapply grows_trans; [apply sys_step_grows | apply IH].
Qed.

(** X4: ids are handed out in increasing order and never twice: an
    accepted [enqueue] returns an id of at least 1, larger than every id
    in the sequence, and any later accepted [enqueue] returns a larger
    one; a rejected [enqueue] returns 0. *)
Theorem X4_enqueue_ids_increase :
  forall (ops1 ops2 : list Op) (f g : DispatchFunction) (t u : time_point),
    let sys1 := run ops1 System_new in
    let sys2 := run ops2 (sys_step (OpEnqueue f t) sys1) in
    let id1 := enq_id (snd (enqueue f t (queue sys1))) in
    let id2 := enq_id (snd (enqueue g u (queue sys2))) in
    (disposed_ (queue sys1) = false ->
     1 <= id1 /\ Forall (fun e => id e < id1) (tasks_ (queue sys1)) /\
     (disposed_ (queue sys2) = false -> id1 < id2)) /\
    (disposed_ (queue sys1) = true -> id1 = 0).
Proof.
  intros ops1 ops2 f g t u sys1 sys2 id1 id2. split.
  - intros Hd.
    assert (queue_ok (queue sys1)) as Hok by (apply run_ok, queue_ok_new).
    pose proof (ok_counter _ Hok) as Hc.
    assert (id1 = taskIdCounter_ (queue sys1) + 1) as E1.
    { unfold id1, enqueue. rewrite Hd.
      apply (enqueue_locked_first f t (queue sys1)). }
    split; [lia | split].
    + rewrite E1. apply (ids_below_next _ f t false Hok).
    + intros Hd2.
      assert (id2 = taskIdCounter_ (queue sys2) + 1) as E2.
      { unfold id2, enqueue. rewrite Hd2.
        apply (enqueue_locked_first g u (queue sys2)). }
      assert (taskIdCounter_ (queue (sys_step (OpEnqueue f t) sys1))
              = taskIdCounter_ (queue sys1) + 1) as E3.
      { simpl. unfold enqueue. rewrite Hd.
        destruct (enqueue_locked_first f t (queue sys1))
          as (_ & _ & _ & _ & _ & H).
        destruct (enqueue_locked f t (queue sys1)) as [[q evs] r]. exact H. }
      assert (grows (queue (sys_step (OpEnqueue f t) sys1)) (queue sys2))
        as [Hg _].
      { apply run_grows. }
      lia.
  - intros Hd. unfold id1, enqueue. now rewrite Hd.
Qed.

Lemma X4_enqueue_ids_witness :
  let ops1 := [OpEnqueue (Callable 1) 0; OpBarrier (Callable 2) 0] in
  let ops2 := [OpCancel 3; OpBarrier (Callable 4) 0] in
  let sys1 := run ops1 System_new in
  let sys2 := run ops2 (sys_step (OpEnqueue (Callable 3) 0) sys1) in
  enq_id (snd (enqueue (Callable 3) 0 (queue sys1))) = 3 /\
  enq_id (snd (enqueue (Callable 5) 0 (queue sys2))) = 5 /\
  enq_id (snd (enqueue (Callable 3) 0 (queue sys1)))
    < enq_id (snd (enqueue (Callable 5) 0 (queue sys2))).
Proof.
  intros ops1 ops2 sys1 sys2.
  split; [reflexivity | split; [reflexivity |]].
  apply (proj1 (X4_enqueue_ids_increase ops1 ops2 (Callable 3) (Callable 5)
                  0 0)); reflexivity.
Defined.

(** ** After disposal *)

Lemma emitted_nextTask_disposed maxTime now sys :
  disposed_ (queue sys) = true -> emitted (OpNextTask maxTime now) sys = [].
Proof.
  intros Hd. apply emitted_eq. simpl.
  unfold sys_nextTask, nextTask_block, nextTask_pass. rewrite Hd.
  rewrite nextTask_finish_false. reflexivity.
Qed.

(** X5: disposal is final for the step path.  Once [disposed_] is set it
    stays set; from then on [nextTask] pops nothing, so no task callable
    is invoked and no [onQueueEmpty] is delivered, whatever the threads
    do: the only events still possible are a barrier's callable and the
    [onQueueNonEmpty] of an [enqueue] that had passed its test of
    [disposed_] before the flag was set; every [enqueue] called from
    then on returns id 0. *)
Theorem X5_nothing_is_popped_after_disposal :
  forall (ops : list Op) (sys : System) (evs : list Event),
    disposed_ (queue sys) = true ->
    trace (run ops sys) = trace sys ++ evs ->
    disposed_ (queue (run ops sys)) = true /\
    (forall e, In e evs ->
       (exists i f, e = invokeBarrier i f) \/
       (exists l, e = onQueueNonEmpty l)) /\
    (forall f t, enq_id (snd (enqueue f t (queue (run ops sys)))) = 0).
Proof.
  induction ops as [| o ops IH]; intros sys evs Hd Ht.
  - simpl in *. rewrite <- (app_nil_r (trace sys)) in Ht at 1.
    apply app_inv_head in Ht. subst evs.
    split; [exact Hd | split; [contradiction |]].
    intros f t. unfold enqueue. now rewrite Hd.
  - simpl in Ht.
    assert (disposed_ (queue (sys_step o sys)) = true) as Hd'.
    { destruct (sys_step_frame o sys) as (_ & [E | [_ E]] & _); congruence. }
    destruct (run_trace ops (sys_step o sys)) as [evs2 H2].
    destruct (IH _ _ Hd' H2) as (I1 & I2 & I3).
    rewrite H2, sys_step_trace, <- app_assoc in Ht.
    apply app_inv_head in Ht. subst evs.
    split; [exact I1 | split; [| exact I3]].
    intros e Hin. apply in_app_or in Hin. destruct Hin as [Hin | Hin]; auto.
    destruct (is_nextTask o) eqn:En.
    + destruct o; try discriminate.
      rewrite emitted_nextTask_disposed in Hin by exact Hd. contradiction.
    + apply emitted_origin in Hin.
      destruct Hin as [(l & E & _) | [(l & E & N & _) | [(t & E & N & _)
                      | (i & f & E & _)]]]; try congruence; eauto.
Qed.

Lemma X5_nothing_is_popped_witness :
  let sys := run [OpEnqueue (Callable 1) 0; OpDisposeMark] System_new in
  let ops := [OpNextTask 5 5; OpEnqueue (Callable 2) 0; OpDisposeSwap;
              OpBarrier (Callable 3) 1; OpNextTask 6 6] in
  disposed_ (queue sys) = true /\
  trace (run ops sys) = trace sys ++ [invokeBarrier 2 (Callable 3)] /\
  disposed_ (queue (run ops sys)) = true.
Proof.
  intros sys ops. split; [reflexivity | split; [reflexivity |]].
  apply (X5_nothing_is_popped_after_disposal ops sys
           [invokeBarrier 2 (Callable 3)]); reflexivity.
Defined.

(** ** No task runs twice *)

(** The ids under which [runNextTask] invoked a callable. *)
Fixpoint invoked (tr : list Event) : list TaskId :=
  match tr with
  | [] => []
  | invokeTask i _ :: tr' => i :: invoked tr'
  | _ :: tr' => invoked tr'
  end.

Lemma invoked_app tr1 tr2 : invoked (tr1 ++ tr2) = invoked tr1 ++ invoked tr2.
Proof.
  induction tr1 as [| e tr1 IH]; simpl; [reflexivity |].
  destruct e; simpl; now rewrite ?IH.
Qed.

Lemma invoked_none tr :
  (forall i f, ~ In (invokeTask i f) tr) -> invoked tr = [].
Proof.
  induction tr as [| e tr IH]; simpl; intros H; [reflexivity |].
  destruct e; try (apply IH; intros i0 f0 Hin; apply (H i0 f0); now right).
  exfalso. apply (H i f). now left.
Qed.

Lemma invoked_emitted o sys :
  invoked (emitted o sys) = [] \/
  exists t, invoked (emitted o sys) = [id t] /\
    tasks_ (queue sys) = t :: tasks_ (queue (sys_step o sys)).
Proof.
  destruct (is_nextTask o) eqn:En.
  - destruct o; try discriminate.
    rewrite (emitted_eq (OpNextTask maxTime now) sys _
               (sys_nextTask_trace maxTime now sys)).
    simpl. rewrite sys_nextTask_queue. unfold sys_nextTask.
    pose proof (nextTask_block_events maxTime now (queue sys)) as Hev.
    destruct (nextTask_block maxTime now (queue sys)) as [[q1 evs] b] eqn:Eb.
    simpl in Hev.
    assert (invoked evs = []) as Hnone.
    { apply invoked_none. intros i f Hin.
      destruct (Hev _ Hin) as (l & E & _). discriminate. }
    destruct b as [[t |] | u m]; simpl; auto.
    apply nextTask_block_popped in Eb. destruct Eb as (_ & _ & Ht & _).
    right. exists t. rewrite invoked_app, Hnone. auto.
  - left. apply invoked_none. intros i f Hin.
    apply emitted_origin in Hin.
    destruct Hin as [(l & E & _) | [(l & E & _) | [(t & E & N & _)
                    | (j & g & E & _)]]]; congruence.
Qed.

(** The ids invoked so far are pairwise distinct and all [gone]. *)
Definition ran_once (sys : System) : Prop :=
  queue_ok (queue sys) /\ NoDup (invoked (trace sys)) /\
  forall i, In i (invoked (trace sys)) -> gone i (queue sys).

Lemma sys_step_ran_once o sys : ran_once sys -> ran_once (sys_step o sys).
Proof.
  intros (Hok & Hnd & Hg).
  pose proof (sys_step_grows o sys) as Hgr.
  split; [now apply sys_step_ok |].
  rewrite sys_step_trace, invoked_app.
  destruct (invoked_emitted o sys) as [-> | (t & -> & Ht)].
  - rewrite app_nil_r. split; [exact Hnd |].
    intros i Hi. eapply gone_grows; eauto.
  - assert (~ In (id t) (invoked (trace sys))) as Hfresh.
    { intros Hin. destruct (Hg _ Hin) as [_ Hn]. apply Hn.
      unfold ids. rewrite Ht. now left. }
    split.
    + apply NoDup_Add with (a := id t) (l := invoked (trace sys)).
      * rewrite <- (app_nil_r (invoked (trace sys))) at 1. apply Add_app.
      * auto.
    + intros i Hi. apply in_app_or in Hi. destruct Hi as [Hi | [<- | []]].
      * eapply gone_grows; eauto.
      * pose proof (ok_nodup _ Hok) as Hn. pose proof (ok_ids _ Hok) as Hb.
        rewrite Ht in Hn, Hb. simpl in Hn.
        inversion Hn as [| ? ? Hnot _]; subst.
        inversion Hb as [| ? ? Hbt _]; subst.
        destruct Hgr as [Hc _]. split; [lia | exact Hnot].
Qed.

Lemma run_ran_once ops : forall sys, ran_once sys -> ran_once (run ops sys).
Proof.
  induction ops as [| o ops IH]; intros sys H; [exact H |].
  simpl. apply IH. now apply sys_step_ran_once.
Qed.

(** X6: no task is run twice.  In every trace from a new queue the ids
    under which [runNextTask] invoked a callable are pairwise distinct,
    each was handed out by the counter, and none of them is still in
    the sequence. *)
Theorem X6_no_task_is_invoked_twice :
  forall (ops : list Op),
    let sys := run ops System_new in
    NoDup (invoked (trace sys)) /\
    Forall (fun i => 1 <= i <= taskIdCounter_ (queue sys)
                     /\ ~ In i (ids (queue sys)))
      (invoked (trace sys)).
Proof.
  intros ops sys.
  assert (ran_once System_new) as H0.
  { split; [apply queue_ok_new | split; [constructor | contradiction]]. }
  destruct (run_ran_once ops _ H0) as (Hok & Hnd & Hg). fold sys in Hok, Hnd, Hg.
  split; [exact Hnd |].
  rewrite Forall_forall. intros i Hi. destruct (Hg i Hi) as [Hc Hn].
  split; [| exact Hn]. split; [| exact Hc].
  (* the id was that of a task, hence at least 1 *)
  clear Hg Hnd Hc Hn. unfold sys in Hi. clear sys Hok.
  revert i Hi. induction ops as [| o ops IH] using rev_ind; intros i Hi.
  - contradiction.
  - rewrite run_app in Hi. simpl in Hi.
    rewrite sys_step_trace, invoked_app in Hi. apply in_app_or in Hi.
    destruct Hi as [Hi | Hi]; [now apply IH |].
    destruct (invoked_emitted o (run ops System_new)) as [E | (t & E & Ht)];
      rewrite E in Hi; [contradiction |].
    destruct Hi as [<- | []].
    assert (queue_ok (queue (run ops System_new))) as Hok
      by (apply run_ok, queue_ok_new).
    pose proof (ok_ids _ Hok) as Hb. rewrite Ht in Hb.
    inversion Hb; subst. lia.
Qed.

(** ** The empty flag and the pending tasks *)

(** When [empty_] is set, only barrier placeholders are pending. *)
Definition empty_means_idle (s : TaskQueue) : Prop :=
  empty_ s = true -> Forall (fun t => isBarrier t = true) (tasks_ s).

Lemma idle_sub s s' :
  (forall e, In e (tasks_ s') -> In e (tasks_ s)) ->
  empty_ s' = empty_ s ->
  empty_means_idle s -> empty_means_idle s'.
Proof.
  intros Hin He H Hs'. rewrite He in Hs'. specialize (H Hs').
  rewrite Forall_forall in *. auto.
Qed.

Lemma In_emplace {A : Type} (p : nat) (x e : A) (l : list A) :
  In e (emplace p x l) -> e = x \/ In e l.
Proof.
  unfold emplace. intros H. apply in_app_or in H.
  destruct H as [H | [H | H]]; auto; right;
    rewrite <- (firstn_skipn p l); apply in_or_app; auto.
Qed.

Lemma lockFreeRemoveTask_idle i s :
  empty_means_idle s -> empty_means_idle (fst (lockFreeRemoveTask i s)).
Proof.
  unfold lockFreeRemoveTask.
  pose proof (remove_first_incl i (tasks_ s)) as Hin.
  destruct (remove_first i (tasks_ s)) as [l f]. simpl in *.
  now apply idle_sub.
Qed.

Lemma barrier_pass_idle i s :
  empty_means_idle s -> empty_means_idle (fst (barrier_pass i s)).
Proof.
  unfold barrier_pass. destruct (tasks_ s) as [| t rest] eqn:Et; [auto |].
  destruct (negb (currentRunningTasks_ s =? 0) || negb (id t =? i)); [auto |].
  simpl. apply idle_sub; simpl; auto.
Qed.

Lemma barrier_insert_idle now s :
  empty_means_idle s -> empty_means_idle (fst (barrier_insert now s)).
Proof.
  intros H He. unfold barrier_insert, insertTask in *. simpl in *.
  specialize (H He). rewrite Forall_forall in *.
  intros e Hin. apply In_emplace in Hin. destruct Hin as [-> | Hin]; auto.
Qed.

Lemma nextTask_block_idle maxTime now s :
  empty_means_idle s ->
  empty_means_idle (fst (fst (nextTask_block maxTime now s))).
Proof.
  intros H. unfold nextTask_block, nextTask_pass, nextTask_finish.
  destruct (disposed_ s) eqn:Ed.
  - rewrite Ed. exact H.
  - destruct (tasks_ s) as [| t rest] eqn:Et.
    + destruct (negb (empty_ s)); simpl; [| exact H].
      intros _. simpl. rewrite Et. constructor.
    + destruct (maxConcurrentTasks_ s <=? currentRunningTasks_ s); [exact H |].
      destruct (isBarrier t); [exact H |].
      destruct (now <? executeTime t); [exact H |].
      rewrite Ed, Et. simpl. apply (idle_sub s); simpl; auto.
      intros e He. rewrite Et. now right.
Qed.

Lemma sys_step_idle o sys :
  empty_means_idle (queue sys) -> empty_means_idle (queue (sys_step o sys)).
Proof.
  intros H. destruct o; simpl.
  - unfold enqueue. destruct (disposed_ (queue sys)); [exact H |].
    destruct (enqueue_locked_events f t (queue sys)) as [_ He].
    destruct (enqueue_locked f t (queue sys)) as [[q evs] r]. simpl in *.
    intros E. congruence.
  - destruct (enqueue_locked_events f t (queue sys)) as [_ He].
    destruct (enqueue_locked f t (queue sys)) as [[q evs] r]. simpl in *.
    intros E. congruence.
  - now apply lockFreeRemoveTask_idle.
  - apply (idle_sub (queue sys)); auto.
  - destruct (disposed_ (queue sys)); [| exact H].
    intros _. constructor.
  - unfold setMaxConcurrentTasks.
    destruct (maxConcurrentTasks_ (queue sys) =? size_wrap n); [exact H |].
    apply (idle_sub (queue sys)); auto.
  - apply (idle_sub (queue sys)); auto.
  - rewrite sys_barrier_begin_queue.
    now apply barrier_pass_idle, barrier_insert_idle.
  - destruct (lookup_waiting i (waiting sys)); [| exact H].
    rewrite sys_barrier_pass_queue. now apply barrier_pass_idle.
  - unfold sys_barrier_leave.
    destruct (is_entered i (entered sys)); [| exact H].
    simpl. unfold barrier_leave.
    apply (idle_sub (fst (lockFreeRemoveTask i (queue sys)))); auto.
    now apply lockFreeRemoveTask_idle.
  - rewrite sys_nextTask_queue. now apply nextTask_block_idle.
  - unfold sys_task_done. destruct (stepping sys); [exact H |].
    apply (idle_sub (queue sys)); auto.
Qed.

(** X7: while a submitted task is pending, the empty flag is clear.  In
    every state reached from a new queue, if [empty_] is set then the
    sequence holds nothing but barrier placeholders: [onQueueEmpty] is
    never followed by a pending submitted task without an
    [enqueue] clearing the flag in between. *)
Theorem X7_empty_flag_set_means_no_submitted_task_pending :
  forall (ops : list Op),
    let s := queue (run ops System_new) in
    empty_ s = true ->
    Forall (fun t => isBarrier t = true) (tasks_ s).
Proof.
  intros ops s.
  assert (forall sys, empty_means_idle (queue sys) ->
            empty_means_idle (queue (run ops sys))) as H.
  { induction ops as [| o ops IH]; intros sys Hs; [exact Hs |].
    simpl. apply IH. now apply sys_step_idle. }
  apply H. intros _. constructor.
Qed.

Lemma X7_empty_flag_witness :
  let ops := [OpEnqueue (Callable 1) 0; OpNextTask 0 0; OpTaskDone;
              OpNextTask 0 0; OpBarrier (Callable 2) 0] in
  empty_ (queue (run ops System_new)) = true /\
  map id (tasks_ (queue (run ops System_new))) = [2] /\
  Forall (fun t => isBarrier t = true) (tasks_ (queue (run ops System_new))).
Proof.
  intros ops. split; [reflexivity | split; [reflexivity |]].
  apply (X7_empty_flag_set_means_no_submitted_task_pending ops). reflexivity.
Defined.

(** ** Barriers *)

Lemma barrier_entered_idle o sys i f :
  In (invokeBarrier i f) (emitted o sys) ->
  currentRunningTasks_ (queue sys) = 0.
Proof.
  intros Hin.
  assert (is_barrier_pass o = true) as Hb.
  { apply emitted_origin in Hin.
    destruct Hin as [(l & E & _) | [(l & E & _) | [(t & E & _)
                    | (j & g & E & B & _)]]]; congruence. }
  destruct o; try discriminate.
  - rewrite (emitted_eq (OpBarrier f0 now) sys _
               (sys_barrier_begin_trace f0 now sys)) in Hin.
    unfold sys_barrier_begin, barrier_insert, insertTask in Hin.
    cbv beta iota zeta in Hin. unfold sys_barrier_pass in Hin.
    match type of Hin with
    | context [barrier_pass ?j ?s] =>
        destruct (barrier_pass_cases j s)
          as [(Hp & Hr & _) | [(Hp & _) | (Hp & _)]];
        destruct (barrier_pass j s) as [q1 p]
    end; simpl in Hp; subst p; simpl in Hin; try contradiction.
    exact Hr.
  - simpl in Hin. unfold emitted in Hin. simpl in Hin.
    destruct (lookup_waiting i0 (waiting sys)) as [g |] eqn:El.
    + fold (emitted (OpBarrierWake i0) sys) in Hin.
      assert (emitted (OpBarrierWake i0) sys
              = snd (fst (sys_barrier_pass i0 g sys))) as E.
      { apply emitted_eq. simpl. rewrite El. apply sys_barrier_pass_trace. }
      unfold emitted in E. simpl in E. rewrite El in E. rewrite E in Hin.
      unfold sys_barrier_pass in Hin.
      destruct (barrier_pass_cases i0 (queue sys))
        as [(Hp & Hr & _) | [(Hp & _) | (Hp & _)]];
        destruct (barrier_pass i0 (queue sys)) as [q1 p];
        simpl in Hp; subst p; simpl in Hin; try contradiction.
      exact Hr.
    + rewrite skipn_all in Hin. contradiction.
Qed.

(** X8: a barrier's callable starts only when nothing else runs.  In a
    run that keeps the ceiling (C3's proviso), at the moment a barrier
    invokes its callable the running count is 0: no thread is between
    the pop and the decrement of [runNextTask], and no other barrier's
    callable is executing. *)
Theorem X8_barrier_enters_only_when_idle :
  forall (ops : list Op) (o : Op) (i : TaskId) (f : DispatchFunction),
    let sys := run ops System_new in
    ceiling_kept ops System_new = true ->
    In (invokeBarrier i f) (emitted o sys) ->
    currentRunningTasks_ (queue sys) = 0 /\
    stepping sys = 0%nat /\ entered sys = [].
Proof.
  intros ops o i f sys Hk Hin.
  pose proof (barrier_entered_idle o sys i f Hin) as Hr.
  pose proof (run_counted ops _ Hk counted_new) as [C1 _ _].
  fold sys in C1. rewrite Hr in C1.
  split; [exact Hr | split; [lia |]].
  destruct (entered sys); [reflexivity | simpl in C1; lia].
Qed.

Lemma X8_barrier_enters_witness :
  let ops := [OpEnqueue (Callable 1) 0; OpNextTask 0 0;
              OpBarrier (Callable 2) 1; OpTaskDone] in
  let sys := run ops System_new in
  ceiling_kept ops System_new = true /\
  emitted (OpBarrierWake 2) sys = [invokeBarrier 2 (Callable 2)] /\
  stepping sys = 0%nat /\ entered sys = [].
Proof.
  intros ops sys. split; [reflexivity | split; [reflexivity |]].
  apply (X8_barrier_enters_only_when_idle ops (OpBarrierWake 2) 2
           (Callable 2)); [reflexivity |].
  left. reflexivity.
Defined.

(** X9: on a queue with ceiling 1 (the default, and what a serial queue
    keeps), no task is popped while a barrier's callable is executing:
    as long as some barrier has entered and not left, [nextTask]
    returns no task. *)
Theorem X9_serial_queue_pops_nothing_during_a_barrier :
  forall (ops : list Op) (maxTime now : time_point),
    let sys := run ops System_new in
    ceiling_kept ops System_new = true ->
    maxConcurrentTasks_ (queue sys) = 1 ->
    entered sys <> [] ->
    forall s' evs t,
      nextTask_block maxTime now (queue sys)
        <> (s', evs, BlockReturn (Some t)).
Proof.
  intros ops maxTime now sys Hk Hm He s' evs t Hb.
  pose proof (run_counted ops _ Hk counted_new) as [C1 _ _].
  fold sys in C1.
  apply nextTask_block_popped in Hb.
  destruct Hb as (_ & _ & _ & _ & _ & Hlt & _).
  destruct (entered sys); [congruence |]. simpl length in C1. lia.
Qed.

Lemma X9_serial_queue_witness :
  let ops := [OpBarrier (Callable 2) 5; OpEnqueue (Callable 1) 0] in
  let sys := run ops System_new in
  entered sys = [1] /\ map id (tasks_ (queue sys)) = [2; 1] /\
  fst (nextTask_block 9 9 (queue sys)) = (queue sys, []).
Proof.
  intros ops sys. split; [reflexivity | split; [reflexivity |]].
  destruct (nextTask_block 9 9 (queue sys)) as [[s' evs] b] eqn:E.
  destruct b as [[t |] | u m].
  - exfalso.
    apply (X9_serial_queue_pops_nothing_during_a_barrier ops 9 9
             eq_refl eq_refl) with (s' := s') (evs := evs) (t := t);
      [discriminate | exact E].
  - vm_compute in E. discriminate.
  - vm_compute in E. injection E as <- <- _ _. reflexivity.
Defined.

(** X10: where a barrier stands.  The placeholder that [barrier] inserts
    with the clock value [now] gets the next id and stands behind every
    pending task whose execute time is at most [now], and ahead of
    every pending task with a later time. *)
Theorem X10_barrier_is_inserted_behind_the_tasks_due :
  forall (ops : list Op) (now : time_point),
    let s := queue (run ops System_new) in
    let b := mkTask (taskIdCounter_ s + 1) EmptyFunction now true in
    let p := upper_bound task_comp (tasks_ s) b in
    barrier_insert now s
      = (with_tasks (firstn p (tasks_ s) ++ b :: skipn p (tasks_ s))
           (with_counter (taskIdCounter_ s + 1) s),
         taskIdCounter_ s + 1) /\
    Forall (fun e => executeTime e <= now) (firstn p (tasks_ s)) /\
    Forall (fun e => now < executeTime e) (skipn p (tasks_ s)) /\
    sorted_tasks (tasks_ (fst (barrier_insert now s))).
Proof.
  intros ops now s b p.
  assert (queue_ok s) as Hok by (apply run_ok, queue_ok_new).
  destruct (emplace_upper_bound (tasks_ s) b (ok_sorted s Hok)
              (ids_below_next s EmptyFunction now true Hok))
    as (Hs & Hb & Ha).
  repeat split; auto.
Qed.

(** ** flush and flushUpToNow with no other thread *)

(** An iteration in which no other thread acts, with a clock that does
    not go back: the deadline is not later than the clock read by the
    loop of [nextTask] nor than the clock when a wait returns. *)
Definition quiet_round (maxTime : time_point) (r : Round) : bool :=
  match wakes r, during r with
  | w :: _, [] =>
      match others w with
      | [] => (maxTime <=? pass_now r) && (maxTime <=? woke_at w)
      | _ :: _ => false
      end
  | _, _ => false
  end.

Definition invocation (t : Task) : Event := invokeTask (id t) (function t).

Lemma nextTask_block_wait_deadline maxTime now s s' evs u m :
  maxTime <= now ->
  nextTask_block maxTime now s = (s', evs, BlockWait u m) ->
  u = maxTime /\ m = true.
Proof.
  intros Hle. unfold nextTask_block, nextTask_pass, nextTask_finish.
  destruct (disposed_ s) eqn:Ed.
  - rewrite Ed. discriminate.
  - destruct (tasks_ s) as [| t rest] eqn:Et.
    + destruct (negb (empty_ s)); intros H; injection H as _ _ <- <-; auto.
    + destruct (maxConcurrentTasks_ s <=? currentRunningTasks_ s);
        [intros H; injection H as _ _ <- <-; auto |].
      destruct (isBarrier t); [intros H; injection H as _ _ <- <-; auto |].
      destruct (Z.ltb_spec now (executeTime t)) as [Hn | Hn].
      * intros H. injection H as _ _ <- <-.
        rewrite Z.min_l by lia. now rewrite Z.eqb_refl.
      * rewrite Ed, Et. discriminate.
Qed.

(** The callable of a task returns when it is invoked. *)
Definition returns (t : Task) : Prop := invoke (function t) = Normal tt.

Lemma runNextTask_alone maxTime r sys :
  quiet_round maxTime r = true ->
  0 <= currentRunningTasks_ (queue sys) < 2 ^ 64 - 1 ->
  (exists t rest sys',
     tasks_ (queue sys) = t :: rest /\
     match invoke (function t) with
     | Normal _ =>
         runNextTask maxTime (wakes r) (pass_now r) (during r) sys
           = Some (sys', [invocation t], Normal true) /\
         currentRunningTasks_ (queue sys') = currentRunningTasks_ (queue sys)
     | Exceptional e =>
         runNextTask maxTime (wakes r) (pass_now r) (during r) sys
           = Some (sys', [invocation t], Exceptional e) /\
         currentRunningTasks_ (queue sys')
           = currentRunningTasks_ (queue sys) + 1
     end /\
     tasks_ (queue sys') = rest) \/
  (exists sys' evs,
     runNextTask maxTime (wakes r) (pass_now r) (during r) sys
       = Some (sys', evs, Normal false) /\
     tasks_ (queue sys') = tasks_ (queue sys) /\
     currentRunningTasks_ (queue sys') = currentRunningTasks_ (queue sys) /\
     filter is_invoke evs = []).
Proof.
  unfold quiet_round. intros Hq Hr.
  destruct (wakes r) as [| w ws]; [discriminate |].
  destruct (during r); [| discriminate].
  destruct (others w) eqn:Eo; [| discriminate].
  apply andb_true_iff in Hq. destruct Hq as [H1 H2].
  apply Z.leb_le in H1.
  unfold runNextTask. rewrite nextTask_eq. unfold call_nextTask.
  destruct (nextTask_block maxTime (pass_now r) (queue sys))
    as [[q1 evs] b] eqn:Eb.
  destruct b as [[t |] | u m].
  - left. apply nextTask_block_popped in Eb.
    destruct Eb as (-> & _ & Ht & _ & _ & _ & ->).
    exists t, (tl (tasks_ (queue sys))).
    destruct (invoke (function t)) as [[] | e]; eexists;
      rewrite Ht;
      cbn [run fold_left set_queue with_queue queue tasks_
           currentRunningTasks_ runNextTask_done with_tasks with_running tl
           fst snd app];
      (split; [reflexivity | split; [split; [reflexivity |] | reflexivity]]);
      cbn [set_queue with_queue queue currentRunningTasks_
           runNextTask_done with_tasks with_running];
      rewrite (size_wrap_small (currentRunningTasks_ (queue sys) + 1)) by lia.
    + rewrite size_wrap_small by lia. lia.
    + reflexivity.
  - right. apply nextTask_block_refused in Eb. destruct Eb as (-> & -> & _).
    eexists _, _. split; [reflexivity |]. auto.
  - right.
    destruct (nextTask_block_wait_deadline _ _ _ _ _ _ _ H1 Eb) as [-> ->].
    apply nextTask_block_waits in Eb.
    destruct Eb as (Ht & _ & _ & _ & Hrun & _ & _ & Hev).
    cbv zeta. rewrite Eo. cbn [run fold_left].
    unfold wait_until. rewrite H2. cbn [andb is_timeout].
    rewrite nextTask_finish_false.
    eexists _, _. split; [reflexivity |].
    split; [exact Ht | split; [exact Hrun | now apply filter_invoke_none]].
Qed.

(** What a loop over [runNextTask] has done when it ends: it invoked a
    prefix of the sequence; either all of these returned, or the last
    one threw and the ones before it returned. *)
Definition ran_prefix (k : nat) (r : Outcome Z) (sys sys' : System)
    (evs : list Event) : Prop :=
  (k <= length (tasks_ (queue sys)))%nat /\
  filter is_invoke evs = map invocation (firstn k (tasks_ (queue sys))) /\
  tasks_ (queue sys') = skipn k (tasks_ (queue sys)) /\
  match r with
  | Normal _ =>
      Forall returns (firstn k (tasks_ (queue sys))) /\
      currentRunningTasks_ (queue sys') = currentRunningTasks_ (queue sys)
  | Exceptional e =>
      (exists l t,
         firstn k (tasks_ (queue sys)) = l ++ [t] /\
         Forall returns l /\ invoke (function t) = Exceptional e) /\
      currentRunningTasks_ (queue sys')
        = currentRunningTasks_ (queue sys) + 1
  end.

Lemma ran_prefix_cons t rest k r sys sys1 sys' evs :
  tasks_ (queue sys) = t :: rest ->
  tasks_ (queue sys1) = rest ->
  currentRunningTasks_ (queue sys1) = currentRunningTasks_ (queue sys) ->
  returns t ->
  ran_prefix k r sys1 sys' evs ->
  ran_prefix (S k) r sys sys' ([invocation t] ++ evs).
Proof.
  intros Ht Ht1 Hr1 Hret (Hk & Hf & Hts & Hm). unfold ran_prefix.
  rewrite Ht. rewrite Ht1 in *. simpl.
  split; [lia | split; [now rewrite Hf | split; [exact Hts |]]].
  destruct r as [n | e].
  - destruct Hm as [Hall Hrun]. split; [now constructor | congruence].
  - destruct Hm as [(l & t' & Hl & Hall & Hthrow) Hrun].
    split; [| congruence].
    exists (t :: l), t'. rewrite Hl. split; [reflexivity |].
    split; [now constructor | exact Hthrow].
Qed.

Lemma ran_prefix_throw t rest e sys sys' :
  tasks_ (queue sys) = t :: rest ->
  tasks_ (queue sys') = rest ->
  currentRunningTasks_ (queue sys') = currentRunningTasks_ (queue sys) + 1 ->
  invoke (function t) = Exceptional e ->
  ran_prefix 1 (Exceptional e) sys sys' [invocation t].
Proof.
  intros Ht Ht1 Hr1 He. unfold ran_prefix. rewrite Ht. simpl.
  split; [lia | split; [reflexivity | split; [exact Ht1 |]]].
  split; [| exact Hr1]. exists [], t. auto.
Qed.

Lemma ran_prefix_none n sys sys' evs :
  tasks_ (queue sys') = tasks_ (queue sys) ->
  currentRunningTasks_ (queue sys') = currentRunningTasks_ (queue sys) ->
  filter is_invoke evs = [] ->
  ran_prefix 0 (Normal n) sys sys' evs.
Proof.
  intros Ht Hr Hf. unfold ran_prefix. simpl.
  split; [lia | split; [exact Hf | split; [exact Ht |]]].
  split; [constructor | exact Hr].
Qed.

Lemma flushUpToNow_loop_alone rounds : forall maxTime n0 sys,
  forallb (quiet_round maxTime) rounds = true ->
  (length (tasks_ (queue sys)) < length rounds)%nat ->
  0 <= currentRunningTasks_ (queue sys) < 2 ^ 64 - 1 ->
  exists k sys' evs r,
    flushUpToNow_loop maxTime rounds n0 sys = Some (sys', evs, r) /\
    ran_prefix k r sys sys' evs.
Proof.
  induction rounds as [| r rs IH]; intros maxTime n0 sys Hq Hlen Hr;
    [simpl in Hlen; lia |].
  simpl in Hq. apply andb_true_iff in Hq. destruct Hq as [Hq1 Hq2].
  simpl.
  destruct (runNextTask_alone maxTime r sys Hq1 Hr)
    as [(t & rest & sys1 & Ht & Hm & Ht1) | (sys1 & evs & -> & Ht1 & Hr1 & Hf)].
  - destruct (invoke (function t)) as [[] | e] eqn:Ei.
    + destruct Hm as [-> Hr1].
      rewrite Ht in Hlen. simpl in Hlen.
      destruct (IH maxTime (size_wrap (n0 + 1)) sys1 Hq2)
        as (k & sys2 & evs2 & r2 & -> & Hp).
      * rewrite Ht1. lia.
      * now rewrite Hr1.
      * exists (S k), sys2, ([invocation t] ++ evs2), r2.
        split; [reflexivity |].
        now apply (ran_prefix_cons t rest k r2 sys sys1).
    + destruct Hm as [-> Hr1].
      exists 1%nat, sys1, [invocation t], (Exceptional e).
      split; [reflexivity |]. now apply (ran_prefix_throw t rest).
  - exists 0%nat, sys1, evs, (Normal n0).
    split; [reflexivity |]. now apply ran_prefix_none.
Qed.

Lemma flush_loop_alone rounds : forall n0 sys,
  forallb (fun r => quiet_round (call_now r) r) rounds = true ->
  (length (tasks_ (queue sys)) < length rounds)%nat ->
  0 <= currentRunningTasks_ (queue sys) < 2 ^ 64 - 1 ->
  exists k sys' evs r,
    flush_loop rounds n0 sys = Some (sys', evs, r) /\
    ran_prefix k r sys sys' evs.
Proof.
  induction rounds as [| r rs IH]; intros n0 sys Hq Hlen Hr;
    [simpl in Hlen; lia |].
  simpl in Hq. apply andb_true_iff in Hq. destruct Hq as [Hq1 Hq2].
  simpl.
  destruct (runNextTask_alone (call_now r) r sys Hq1 Hr)
    as [(t & rest & sys1 & Ht & Hm & Ht1) | (sys1 & evs & -> & Ht1 & Hr1 & Hf)].
  - destruct (invoke (function t)) as [[] | e] eqn:Ei.
    + destruct Hm as [-> Hr1].
      rewrite Ht in Hlen. simpl in Hlen.
      destruct (IH (size_wrap (n0 + 1)) sys1 Hq2)
        as (k & sys2 & evs2 & r2 & -> & Hp).
      * rewrite Ht1. lia.
      * now rewrite Hr1.
      * exists (S k), sys2, ([invocation t] ++ evs2), r2.
        split; [reflexivity |].
        now apply (ran_prefix_cons t rest k r2 sys sys1).
    + destruct Hm as [-> Hr1].
      exists 1%nat, sys1, [invocation t], (Exceptional e).
      split; [reflexivity |]. now apply (ran_prefix_throw t rest).
  - exists 0%nat, sys1, evs, (Normal n0).
    split; [reflexivity |]. now apply ran_prefix_none.
Qed.

Lemma flushUpToNow_loop_count maxTime rounds : forall n0 sys sys' evs n,
  0 <= n0 < 2 ^ 64 ->
  flushUpToNow_loop maxTime rounds n0 sys = Some (sys', evs, Normal n) ->
  n = size_wrap (n0 + Z.of_nat (executed evs)).
Proof.
  induction rounds as [| r rs IH]; intros n0 sys sys' evs n Hn H;
    [discriminate |].
  simpl in H.
  destruct (runNextTask maxTime (wakes r) (pass_now r) (during r) sys)
    as [[[sys1 evs1] b] |] eqn:Er; [| discriminate].
  apply runNextTask_executed in Er.
  destruct b as [[|] | e]; [| | discriminate].
  - destruct (flushUpToNow_loop maxTime rs (size_wrap (n0 + 1)) sys1)
      as [[[sys2 evs2] n2] |] eqn:Ef; [| discriminate].
    injection H as <- <- ->.
    apply IH in Ef; [| apply size_wrap_range].
    rewrite Ef, executed_app, Er. unfold size_wrap.
    rewrite Zplus_mod_idemp_l. f_equal. lia.
  - injection H as <- <- <-. rewrite Er, Z.add_0_r.
    symmetry. now apply size_wrap_small.
Qed.

Lemma executed_prefix k (l : list Task) evs :
  (k <= length l)%nat ->
  filter is_invoke evs = map invocation (firstn k l) ->
  executed evs = k.
Proof.
  intros Hk H. unfold executed. rewrite H, length_map, length_firstn. lia.
Qed.

(** X11: [flush] with no other thread around.  Given one more iteration
    than there are pending tasks, [flush] ends; it has invoked the
    callables of a prefix of the sequence, in the order of the sequence
    (execute time, then id), and left the rest of the sequence in
    place.  Either all the callables invoked returned: then [flush]
    returns the length of that prefix and the running count is what it
    was.  Or the last one invoked threw (an empty function does): then
    the exception leaves [flush], and the running count stays
    incremented. *)
Theorem X11_flush_alone_runs_a_prefix_in_order :
  forall (rounds : list Round) (sys : System),
    forallb (fun r => quiet_round (call_now r) r) rounds = true ->
    (length (tasks_ (queue sys)) < length rounds)%nat ->
    Z.of_nat (length (tasks_ (queue sys))) < 2 ^ 64 ->
    0 <= currentRunningTasks_ (queue sys) < 2 ^ 64 - 1 ->
    exists k sys' evs r,
      flush rounds sys = Some (sys', evs, r) /\
      (k <= length (tasks_ (queue sys)))%nat /\
      filter is_invoke evs = map invocation (firstn k (tasks_ (queue sys))) /\
      tasks_ (queue sys') = skipn k (tasks_ (queue sys)) /\
      match r with
      | Normal n =>
          n = Z.of_nat k /\
          Forall returns (firstn k (tasks_ (queue sys))) /\
          currentRunningTasks_ (queue sys') = currentRunningTasks_ (queue sys)
      | Exceptional e =>
          (exists l t,
             firstn k (tasks_ (queue sys)) = l ++ [t] /\
             Forall returns l /\ invoke (function t) = Exceptional e) /\
          currentRunningTasks_ (queue sys')
            = currentRunningTasks_ (queue sys) + 1
      end.
Proof.
  intros rounds sys Hq Hlen Hsz Hr. unfold flush.
  destruct (flush_loop_alone rounds 0 sys Hq Hlen Hr)
    as (k & sys' & evs & r & Hf & Hk & He & Ht & Hm).
  exists k, sys', evs, r.
  split; [exact Hf | split; [exact Hk | split; [exact He | split; [exact Ht |]]]].
  destruct r as [n | e]; [| exact Hm].
  split; [| exact Hm].
  pose proof (flush_loop_count rounds 0 sys sys' evs n ltac:(lia) Hf) as Hn.
  rewrite (executed_prefix k _ evs Hk He) in Hn. simpl in Hn.
  rewrite size_wrap_small in Hn by lia. exact Hn.
Qed.

Lemma X11_flush_alone_witness :
  let sys := run [OpEnqueue (Callable 1) 5; OpEnqueue (Callable 2) 90;
                  OpEnqueue (Callable 3) 5; OpEnqueue (Callable 4) 1]
               System_new in
  let bad := run [OpEnqueue (Callable 1) 5; OpEnqueue EmptyFunction 6;
                  OpEnqueue (Callable 3) 7] System_new in
  let r := mkRound 10 10 [mkWake [] 10 10] [] in
  option_map snd (flush [r; r; r; r; r] sys) = Some (Normal 3) /\
  option_map snd (flush [r; r; r; r; r] bad)
    = Some (Exceptional bad_function_call) /\
  (exists k sys' evs n,
     flush [r; r; r; r; r] sys = Some (sys', evs, n) /\
     filter is_invoke evs = map invocation (firstn k (tasks_ (queue sys))) /\
     tasks_ (queue sys') = skipn k (tasks_ (queue sys))) /\
  (exists k sys' evs n,
     flush [r; r; r; r; r] bad = Some (sys', evs, n) /\
     filter is_invoke evs = map invocation (firstn k (tasks_ (queue bad))) /\
     tasks_ (queue sys') = skipn k (tasks_ (queue bad))).
Proof.
  intros sys bad r.
  split; [reflexivity | split; [reflexivity | split]].
  - destruct (X11_flush_alone_runs_a_prefix_in_order [r; r; r; r; r] sys)
      as (k & sys' & evs & n & Hf & Hk & He & Ht & _);
      [reflexivity | simpl; lia | simpl; lia | simpl; lia |].
    exists k, sys', evs, n. auto.
  - destruct (X11_flush_alone_runs_a_prefix_in_order [r; r; r; r; r] bad)
      as (k & sys' & evs & n & Hf & Hk & He & Ht & _);
      [reflexivity | simpl; lia | simpl; lia | simpl; lia |].
    exists k, sys', evs, n. auto.
Defined.

(** X12: [flushUpToNow] with no other thread around behaves the same
    way with its one deadline: it ends after at most one iteration more
    than there are pending tasks, having invoked a prefix of the
    sequence in order; it returns the number of callables invoked when
    all of them returned, and is left by the exception of the last one
    invoked otherwise, with the running count still incremented. *)
Theorem X12_flushUpToNow_alone_runs_a_prefix_in_order :
  forall (maxTime : time_point) (rounds : list Round) (sys : System),
    forallb (quiet_round maxTime) rounds = true ->
    (length (tasks_ (queue sys)) < length rounds)%nat ->
    Z.of_nat (length (tasks_ (queue sys))) < 2 ^ 64 ->
    0 <= currentRunningTasks_ (queue sys) < 2 ^ 64 - 1 ->
    exists k sys' evs r,
      flushUpToNow maxTime rounds sys = Some (sys', evs, r) /\
      (k <= length (tasks_ (queue sys)))%nat /\
      filter is_invoke evs = map invocation (firstn k (tasks_ (queue sys))) /\
      tasks_ (queue sys') = skipn k (tasks_ (queue sys)) /\
      match r with
      | Normal n =>
          n = Z.of_nat k /\
          Forall returns (firstn k (tasks_ (queue sys))) /\
          currentRunningTasks_ (queue sys') = currentRunningTasks_ (queue sys)
      | Exceptional e =>
          (exists l t,
             firstn k (tasks_ (queue sys)) = l ++ [t] /\
             Forall returns l /\ invoke (function t) = Exceptional e) /\
          currentRunningTasks_ (queue sys')
            = currentRunningTasks_ (queue sys) + 1
      end.
Proof.
  intros maxTime rounds sys Hq Hlen Hsz Hr. unfold flushUpToNow.
  destruct (flushUpToNow_loop_alone rounds maxTime 0 sys Hq Hlen Hr)
    as (k & sys' & evs & r & Hf & Hk & He & Ht & Hm).
  exists k, sys', evs, r.
  split; [exact Hf | split; [exact Hk | split; [exact He | split; [exact Ht |]]]].
  destruct r as [n | e]; [| exact Hm].
  split; [| exact Hm].
  pose proof (flushUpToNow_loop_count maxTime rounds 0 sys sys' evs n
                ltac:(lia) Hf) as Hn.
  rewrite (executed_prefix k _ evs Hk He) in Hn. simpl in Hn.
  rewrite size_wrap_small in Hn by lia. exact Hn.
Qed.

Lemma X12_flushUpToNow_alone_witness :
  let sys := run [OpEnqueue (Callable 1) 5; OpEnqueue (Callable 2) 12]
               System_new in
  let bad := run [OpEnqueue (Throwing 1) 5; OpEnqueue (Callable 2) 6]
               System_new in
  let rounds := [mkRound 0 10 [mkWake [] 11 11] [];
                 mkRound 0 13 [mkWake [] 13 13] [];
                 mkRound 0 14 [mkWake [] 14 14] []] in
  option_map snd (flushUpToNow 10 rounds sys) = Some (Normal 2) /\
  option_map snd (flushUpToNow 10 rounds bad)
    = Some (Exceptional (thrown_by 1)) /\
  (exists k sys' evs n,
     flushUpToNow 10 rounds sys = Some (sys', evs, n) /\
     filter is_invoke evs = map invocation (firstn k (tasks_ (queue sys))) /\
     tasks_ (queue sys') = skipn k (tasks_ (queue sys))) /\
  (exists k sys' evs n,
     flushUpToNow 10 rounds bad = Some (sys', evs, n) /\
     filter is_invoke evs = map invocation (firstn k (tasks_ (queue bad))) /\
     tasks_ (queue sys') = skipn k (tasks_ (queue bad))).
Proof.
  intros sys bad rounds.
  split; [reflexivity | split; [reflexivity | split]].
  - destruct (X12_flushUpToNow_alone_runs_a_prefix_in_order 10 rounds sys)
      as (k & sys' & evs & n & Hf & Hk & He & Ht & _);
      [reflexivity | simpl; lia | simpl; lia | simpl; lia |].
    exists k, sys', evs, n. auto.
  - destruct (X12_flushUpToNow_alone_runs_a_prefix_in_order 10 rounds bad)
      as (k & sys' & evs & n & Hf & Hk & He & Ht & _);
      [reflexivity | simpl; lia | simpl; lia | simpl; lia |].
    exists k, sys', evs, n. auto.
Defined.

(** ** The pool's ceiling *)

Module PoolFacts.
Import ThreadPoolDispatchQueue.

Lemma pool_actions_cons o rest :
  pool_actions (o :: rest) = true ->
  (forall n, o <> OpSetMaxConcurrentTasks n) /\ pool_actions rest = true.
Proof. destruct o; simpl; intros H; split; auto; discriminate. Qed.

Lemma pool_actions_kept ops : forall sys,
  pool_actions ops = true -> ceiling_kept ops sys = true.
Proof.
  induction ops as [| o ops IH]; intros sys H; [reflexivity |].
  destruct (pool_actions_cons _ _ H) as [Ho Hr].
  simpl. rewrite (IH _ Hr). destruct o; try reflexivity.
  exfalso. now apply (Ho n).
Qed.

Lemma pool_actions_max ops : forall sys,
  pool_actions ops = true ->
  maxConcurrentTasks_ (queue (run ops sys)) = maxConcurrentTasks_ (queue sys).
Proof.
  induction ops as [| o ops IH]; intros sys H; [reflexivity |].
  destruct (pool_actions_cons _ _ H) as [Ho Hr].
  simpl. rewrite (IH _ Hr).
  destruct (sys_step_frame o sys) as (_ & _ & [E | [n E]]); [exact E |].
  exfalso. now apply (Ho n).
Qed.

(** X13: a pool never runs more callables at once than it has threads.
    The constructor sets the ceiling of its task queue to [threadCount]
    and nothing in the pool changes it afterwards, so in every state
    the ceiling is [threadCount] and the number of callables in
    progress (tasks popped and not yet finished, plus barrier callables)
    is at most [threadCount].  [create(name)] always passes a count of
    at least 1: the hardware concurrency, or 4 when that is reported
    as 0. *)
Theorem X13_pool_runs_at_most_threadCount_callables :
  forall (threadCount : Z) (ops : list Op),
    1 <= threadCount < 2 ^ 64 ->
    pool_actions ops = true ->
    let sys := run ops (construct threadCount) in
    maxConcurrentTasks_ (queue sys) = threadCount /\
    currentRunningTasks_ (queue sys) <= threadCount /\
    Z.of_nat (stepping sys) + Z.of_nat (length (entered sys)) <= threadCount /\
    (forall hw, 0 <= hw < 2 ^ 64 -> 1 <= default_threadCount hw < 2 ^ 64).
Proof.
  intros threadCount ops Hn Hp sys.
  assert (maxConcurrentTasks_ (queue (construct threadCount)) = threadCount)
    as Hm0.
  { unfold construct. cbn [sys_step with_queue queue System_new].
    unfold setMaxConcurrentTasks.
    rewrite (size_wrap_small threadCount) by lia.
    change (maxConcurrentTasks_ TaskQueue_new) with 1.
    destruct (Z.eqb_spec 1 threadCount) as [E | E];
      [simpl; exact E | reflexivity]. }
  assert (counted (construct threadCount)) as Hc0.
  { unfold construct. apply sys_step_counted; [| apply counted_new].
    cbn [ceiling_kept]. rewrite (size_wrap_small threadCount) by lia.
    rewrite andb_true_r. apply andb_true_iff.
    split; apply Z.leb_le; [lia | simpl; lia]. }
  pose proof (run_counted ops _ (pool_actions_kept ops _ Hp) Hc0)
    as [C1 C2 C3].
  fold sys in C1, C2, C3. unfold within_ceiling in C2.
  assert (maxConcurrentTasks_ (queue sys) = threadCount) as Hm.
  { unfold sys. now rewrite pool_actions_max. }
  rewrite Hm in C2.
  split; [exact Hm | split; [exact C2 | split; [lia |]]].
  intros hw Hhw. unfold default_threadCount.
  destruct (Z.eqb_spec hw 0); lia.
Qed.

Lemma X13_pool_witness :
  let ops := [OpEnqueue (Callable 1) 0; OpEnqueue (Callable 2) 0;
              OpEnqueue (Callable 3) 0; OpNextTask 1 1; OpNextTask 1 1;
              OpNextTask 1 1] in
  let sys := run ops (construct (default_threadCount 2)) in
  currentRunningTasks_ (queue sys) = 2 /\
  currentRunningTasks_ (queue sys) <= 2.
Proof.
  intros ops sys. split; [reflexivity |].
  apply (X13_pool_runs_at_most_threadCount_callables 2 ops);
    [lia | reflexivity].
Defined.

End PoolFacts.

(** ** sync through the barrier *)

Module BarrierSyncFacts.
Import ThreadedDispatchQueue.

(** X14: [sync] in its default mode (the caller runs the callable inside
    [barrier]).  A callable that returns leaves the running count and
    [runningSync_] as they were.  A callable that throws hands its
    exception to the caller of [sync], and nothing is restored on the
    way out: [runningSync_] stays set and the running count stays
    incremented. *)
Theorem X14_sync_in_the_calling_thread :
  forall (name : nat) (w : World),
    disableSyncCallsInCallingThread_ w = false ->
    0 <= currentRunningTasks_ w < 2 ^ 64 - 1 ->
    (let r := sync (user_function name returns) w in
     snd r = Some (Returned tt) /\ snd (fst r) = Looping /\
     runningSync_ (fst (fst r)) = false /\
     currentRunningTasks_ (fst (fst r)) = currentRunningTasks_ w /\
     promise (fst (fst r)) = promise w /\
     ran (fst (fst r)) = ran w ++ [name]) /\
    (forall e,
       let r := sync (user_function name (throws e)) w in
       snd r = Some (Thrown e) /\ snd (fst r) = Looping /\
       runningSync_ (fst (fst r)) = true /\
       currentRunningTasks_ (fst (fst r)) = currentRunningTasks_ w + 1 /\
       promise (fst (fst r)) = promise w /\
       ran (fst (fst r)) = ran w ++ [name]).
Proof.
  intros name w Hd Hr. split.
  - unfold sync. rewrite Hd.
    unfold barrier_invoke, sync_barrier_task, bind. simpl.
    repeat split.
    rewrite (size_wrap_small (currentRunningTasks_ w + 1)) by lia.
    rewrite size_wrap_small by lia. lia.
  - intros e. unfold sync. rewrite Hd.
    unfold barrier_invoke, sync_barrier_task, bind. simpl.
    repeat split. apply size_wrap_small. lia.
Qed.

Lemma X14_sync_in_the_calling_thread_witness :
  let w := mkWorld false false NotReady 0 [] in
  snd (sync (user_function 1 (throws 7)) w) = Some (Thrown 7) /\
  currentRunningTasks_ (fst (fst (sync (user_function 1 (throws 7)) w))) = 1.
Proof.
  intros w.
  assert (0 <= currentRunningTasks_ w < 2 ^ 64 - 1) as H by (simpl; lia).
  destruct (proj2 (X14_sync_in_the_calling_thread 1 w eq_refl H) 7%nat)
    as (H1 & _ & _ & H2 & _).
  split; [exact H1 | exact H2].
Defined.

End BarrierSyncFacts.

(** ** The worker thread of a ThreadedDispatchQueue *)

Module WorkerThreadFacts.
Import WorkerThread.

Definition starts (l : list ThreadEvent) : nat :=
  length (filter (fun e => match e with started => true | _ => false end) l).

Lemma starts_app l1 l2 : starts (l1 ++ l2) = (starts l1 + starts l2)%nat.
Proof. unfold starts. now rewrite filter_app, length_app. Qed.

(** At most one start is owed or done; a thread behind [thread_] has been
    started; and nothing is owed or done while [first_] is still set. *)
Record thread_ok (st : State) : Prop := mk_thread_ok {
  ok_asserted : asserted st = true;
  ok_once : (toStart st + starts (log st) <= 1)%nat;
  ok_thread : thread_ st = true -> starts (log st) = 1%nat;
  ok_first : first_ (queue (taskQueue_ st)) = true ->
             toStart st = 0%nat /\ starts (log st) = 0%nat
}.

Lemma enqueue_part_ok f t st :
  thread_ok st -> thread_ok (fst (enqueue_part f t st)).
Proof.
  intros [A O T F]. unfold enqueue_part, enqueue.
  destruct (disposed_ (queue (taskQueue_ st))) eqn:Ed; simpl.
  - constructor; simpl; auto.
  - destruct (enqueue_locked_first f t (queue (taskQueue_ st)))
      as (H1 & _ & _ & H4 & _).
    destruct (enqueue_locked f t (queue (taskQueue_ st))) as [[q evs] r].
    simpl in *. rewrite H4.
    destruct (first_ (queue (taskQueue_ st))) eqn:Ef.
    + destruct (F eq_refl) as [F1 F2].
      constructor; simpl.
      * exact A.
      * lia.
      * intros Ht. specialize (T Ht). lia.
      * intros Hq. congruence.
    + constructor; simpl.
      * exact A.
      * exact O.
      * exact T.
      * intros Hq. congruence.
Qed.

Lemma teardownThread_ok b st : thread_ok st -> thread_ok (teardownThread b st).
Proof.
  intros [A O T F]. unfold teardownThread.
  destruct (thread_ st) eqn:Et;
    [| constructor; auto; intros Hx; congruence].
  assert (starts (log st ++ [if b then detached else joined])
          = starts (log st)) as E.
  { rewrite starts_app. destruct b; apply Nat.add_0_r. }
  constructor; cbn [asserted toStart log thread_ taskQueue_]; rewrite ?E.
  - exact A.
  - exact O.
  - discriminate.
  - exact F.
Qed.

Lemma on_queue_ok ops st : thread_ok st -> thread_ok (on_queue ops st).
Proof.
  intros [A O T F]. constructor; simpl; auto.
  intros Hf. apply F.
  destruct (first_ (queue (taskQueue_ st))) eqn:E; [reflexivity |].
  rewrite (run_first_stays_false ops _ E) in Hf. discriminate.
Qed.

Lemma act_ok a st : thread_ok st -> thread_ok (act a st).
Proof.
  intros H. destruct a; simpl.
  - now apply enqueue_part_ok.
  - now apply enqueue_part_ok.
  - destruct (toStart st) as [| n] eqn:En; [exact H |].
    destruct H as [A O T F]. unfold startThread.
    assert (starts (log st) = 0%nat) as Hs by lia.
    assert (thread_ st = false) as Ht.
    { destruct (thread_ st); [| reflexivity]. specialize (T eq_refl). lia. }
    rewrite En in O.
    constructor; simpl; rewrite ?starts_app, ?Ht, ?En, ?Hs; simpl; auto.
    + now rewrite A.
    + change (starts [started]) with 1%nat. lia.
    + intros Hf. destruct (F Hf). congruence.
  - now apply teardownThread_ok.
  - unfold teardown. apply teardownThread_ok.
    destruct (disposed_ (queue (taskQueue_ st))); [exact H |].
    now apply on_queue_ok.
  - now apply on_queue_ok.
Qed.

(** X15: the worker thread is started at most once, and the assertion
    in [startThread] never fails.  Whatever the threads do with the
    queue object ([async], [asyncAfter], [startThread] by the callers
    that were told [isFirst], [teardown], and any action on the task
    queue), [assert(thread_ == nullptr)] holds every time it is
    evaluated and at most one thread is ever started. *)
Theorem X15_worker_thread_is_started_at_most_once :
  forall (l : list Action),
    asserted (acts l State_new) = true /\
    (starts (log (acts l State_new)) <= 1)%nat /\
    (thread_ (acts l State_new) = true ->
     starts (log (acts l State_new)) = 1%nat).
Proof.
  intros l.
  assert (forall st, thread_ok st -> thread_ok (acts l st)) as H.
  { induction l as [| a l IH]; intros st Hs; [exact Hs |].
    simpl. apply IH. now apply act_ok. }
  assert (thread_ok State_new) as H0.
  { constructor; simpl; auto. discriminate. }
  destruct (H _ H0) as [A O T F].
  split; [exact A | split; [lia | exact T]].
Qed.

Lemma local_app h1 h2 :
  local (h1 ++ h2) = fold_left (fun l a => local_step a l) h2 (local h1).
Proof. unfold local. apply fold_left_app. Qed.

(** X16: [teardown] is idempotent.  After a [teardown] the task queue is
    disposed and [thread_] is null; a thread that was there has been
    detached when [current_] of the calling thread is this queue, and
    joined otherwise; a second [teardown], from any thread, changes
    nothing.  [current_] is this queue on the worker thread once
    [handler] has begun, and equally on any thread while it executes
    the callable of this queue's [sync] (and after that callable has
    thrown): a [teardown] called from there detaches the worker.  On a
    thread that has done none of this it is null. *)
Theorem X16_teardown_twice_is_teardown_once :
  forall (st : State) (this : nat) (caller again : list LocalStep),
    let st1 := teardown (isCurrent this (local caller)) st in
    teardown (isCurrent this (local again)) st1 = st1 /\
    thread_ st1 = false /\
    disposed_ (queue (taskQueue_ st1)) = true /\
    log st1 = log st ++
      (if thread_ st
       then [if isCurrent this (local caller) then detached else joined]
       else []) /\
    (forall history,
       isCurrent this (local (history ++ [handler_begins this])) = true /\
       isCurrent this (local (history ++ [sync_callable_begins this])) = true /\
       isCurrent this
         (local (history ++ [sync_callable_begins this; sync_callable_throws]))
         = true /\
       isCurrent this
         (local (history ++ [sync_callable_begins this; sync_callable_returns]))
         = isCurrent this (local history)) /\
    isCurrent this (local []) = false.
Proof.
  intros st this caller again st1.
  assert (disposed_ (queue (taskQueue_ st1)) = true /\ thread_ st1 = false /\
          log st1 = log st ++
            (if thread_ st
             then [if isCurrent this (local caller) then detached else joined]
             else [])) as (Hd & Ht & Hl).
  { unfold st1, teardown, teardownThread, on_queue.
    destruct (disposed_ (queue (taskQueue_ st))) eqn:Ed;
      destruct (thread_ st) eqn:Et; simpl; rewrite ?Ed, ?Et, ?app_nil_r;
      auto. }
  split; [| split; [exact Ht | split; [exact Hd | split; [exact Hl |]]]].
  - unfold teardown at 1. rewrite Hd. unfold teardownThread. now rewrite Ht.
  - split; [| reflexivity].
    intros history. rewrite !local_app. unfold isCurrent, getCurrent. simpl.
    rewrite Nat.eqb_refl. repeat split.
Qed.

End WorkerThreadFacts.

(** ** A barrier with no other thread, and a cancelled barrier *)

(** X17: a barrier with no other thread around.  On a queue reached from
    a new one, with nothing running: when every pending task is due
    later than the barrier's clock value, [barrier] enters at once and
    invokes the callable; a callable that returns leaves the sequence
    and the running count as they were, a callable that throws (an
    empty function does) leaves its exception to the caller, the
    placeholder at the head and the running count at 1.  When the head
    of the sequence is due (its time is at most the clock value),
    [barrier] does not enter but waits behind it. *)
Theorem X17_barrier_alone_runs_at_once_or_waits_behind_due_tasks :
  forall (ops : list Op) (f : DispatchFunction) (now : time_point)
         (during_ops : list Op),
    let sys := run ops System_new in
    let i := taskIdCounter_ (queue sys) + 1 in
    let b := mkTask i EmptyFunction now true in
    currentRunningTasks_ (queue sys) = 0 ->
    (Forall (fun e => now < executeTime e) (tasks_ (queue sys)) ->
     exists sys',
       barrier f now [] [] sys = Some (sys', [invokeBarrier i f], invoke f) /\
       trace sys' = trace sys ++ [invokeBarrier i f] /\
       match invoke f with
       | Normal _ =>
           tasks_ (queue sys') = tasks_ (queue sys) /\
           currentRunningTasks_ (queue sys') = 0
       | Exceptional _ =>
           tasks_ (queue sys') = b :: tasks_ (queue sys) /\
           currentRunningTasks_ (queue sys') = 1
       end) /\
    (forall t rest,
       tasks_ (queue sys) = t :: rest -> executeTime t <= now ->
       barrier f now [] during_ops sys = None).
Proof.
  intros ops f now during_ops sys i b Hr.
  assert (queue_ok (queue sys)) as Hok by (apply run_ok, queue_ok_new).
  split.
  - intros Hall.
    destruct (barrier_enters_at_once f now [] sys Hok Hr Hall)
      as (_ & sys' & Hs & Ht & _ & _ & Hm).
    exists sys'. auto.
  - intros t rest Ht Hdue.
    destruct (emplace_upper_bound (tasks_ (queue sys)) b (ok_sorted _ Hok)
                (ids_below_next _ EmptyFunction now true Hok))
      as (_ & Hb & Ha).
    set (p := upper_bound task_comp (tasks_ (queue sys)) b) in *.
    simpl in Hb, Ha.
    assert (exists more, firstn p (tasks_ (queue sys)) = t :: more)
      as [more Ef].
    { destruct p as [| p'].
      - exfalso. rewrite skipn_O, Ht in Ha. inversion Ha; subst. lia.
      - rewrite Ht. simpl. eauto. }
    unfold barrier, barrier_insert, insertTask. cbv beta iota zeta.
    fold i. fold b. fold p. unfold emplace. rewrite Ef.
    rewrite call_barrier_pass_waits; [now rewrite barrier_wait_eq |].
    unfold barrier_pass. cbn [set_queue queue tasks_ with_tasks app].
    pose proof (ok_ids _ Hok) as Hids. rewrite Ht in Hids.
    inversion Hids; subst.
    destruct (Z.eqb_spec (id t) i) as [E | E]; [unfold i in E; lia |].
    simpl. now rewrite orb_true_r.
Qed.

Lemma X17_barrier_alone_witness :
  let sys := run [OpEnqueue (Callable 1) 50] System_new in
  (exists sys',
     barrier (Callable 9) 10 [] [] sys
       = Some (sys', [invokeBarrier 2 (Callable 9)], Normal tt) /\
     tasks_ (queue sys') = tasks_ (queue sys)) /\
  (exists sys',
     barrier (Throwing 9) 10 [] [] sys
       = Some (sys', [invokeBarrier 2 (Throwing 9)],
               Exceptional (thrown_by 9)) /\
     currentRunningTasks_ (queue sys') = 1) /\
  barrier (Callable 9) 60 [] [] sys = None.
Proof.
  intros sys. split; [| split].
  - destruct (proj1 (X17_barrier_alone_runs_at_once_or_waits_behind_due_tasks
                       [OpEnqueue (Callable 1) 50] (Callable 9) 10 []
                       eq_refl))
      as (sys' & H1 & _ & H2 & _).
    + repeat constructor.
    + exists sys'. auto.
  - destruct (proj1 (X17_barrier_alone_runs_at_once_or_waits_behind_due_tasks
                       [OpEnqueue (Callable 1) 50] (Throwing 9) 10 []
                       eq_refl))
      as (sys' & H1 & _ & _ & H2).
    + repeat constructor.
    + exists sys'. auto.
  - apply (proj2 (X17_barrier_alone_runs_at_once_or_waits_behind_due_tasks
                    [OpEnqueue (Callable 1) 50] (Callable 9) 60 []
                    eq_refl) (mkTask 1 (Callable 1) 50 false) []).
    + reflexivity.
    + simpl. lia.
Defined.

(** X18: [cancel] does not tell a barrier placeholder from a task.  When
    the id of a barrier that has been inserted is cancelled, the
    placeholder is gone for good: whatever happens afterwards, that
    barrier's evaluation of its condition never again finds it at the
    head, so a caller still waiting for it never enters. *)
Theorem X18_a_cancelled_barrier_never_enters :
  forall (ops later : list Op) (f : DispatchFunction) (now : time_point),
    let sys := run ops System_new in
    let i := taskIdCounter_ (queue sys) + 1 in
    let sys1 := sys_step (OpCancel i) (sys_step (OpBarrier f now) sys) in
    In i (ids (queue (sys_step (OpBarrier f now) sys))) /\
    ~ In i (ids (queue (run later sys1))) /\
    snd (barrier_pass i (queue (run later sys1))) <> BarrierEnter.
Proof.
  intros ops later f now sys i sys1.
  assert (queue_ok (queue sys)) as Hok by (apply run_ok, queue_ok_new).
  set (sysb := sys_step (OpBarrier f now) sys) in *.
  assert (queue_ok (queue sysb)) as Hokb by (apply sys_step_ok, Hok).
  assert (taskIdCounter_ (queue sysb) = i /\ In i (ids (queue sysb)))
    as [Hc Hin].
  { unfold sysb. simpl. rewrite sys_barrier_begin_queue.
    unfold barrier_insert, insertTask. cbv beta iota zeta.
    cbn [fst].
    match goal with
    | |- context [barrier_pass ?j ?s] =>
        destruct (barrier_pass_cases j s)
          as [(_ & _ & _ & ->) | [(_ & _ & ->) | (_ & _ & ->)]]
    end; simpl; (split; [reflexivity |]);
      unfold ids; simpl; unfold emplace; rewrite map_app;
      apply in_or_app; right; now left. }
  assert (gone i (queue sys1)) as Hg.
  { destruct (remove_first_present i (tasks_ (queue sysb))
                (ok_nodup _ Hokb) Hin) as (l1 & t & l2 & Hl & Hid & Hrm & Hn).
    unfold sys1. simpl. unfold lockFreeRemoveTask. fold sysb.
    rewrite Hrm. split; simpl; [lia | exact Hn]. }
  assert (gone i (queue (run later sys1))) as Hg'
    by (eapply gone_grows; [exact Hg | apply run_grows]).
  split; [exact Hin | split; [apply Hg' |]].
  intros He.
  destruct (barrier_pass_cases i (queue (run later sys1)))
    as [(_ & _ & (t & rest & Ht & Hid) & _) | [(Hp & _) | (Hp & _)]];
    try congruence.
  apply (proj2 Hg'). unfold ids. rewrite Ht. simpl. now left.
Qed.
